(** * xmlpath: the node arena of parser.go and its string-value queries

    A shallow embedding of [parser.go]: the [Node] store that [ParseDecoder]
    and [ParseHTML] build in one pass, and the queries [Bytes], [String],
    [equals], [contains] and [startsWith] that read it.

    Conventions of the embedding.
    - A Go [string] is a [string]; a [[]byte] is a [list ascii] (an [ascii]
      is one byte).  [[]byte(s)] is [list_ascii_of_string] and [string(b)]
      is [string_of_list_ascii].
    - A [*Node] is always the address of an entry of the one node slice, so
      it is modelled as [option nat]: [None] is [nil], [Some i] is
      [&nodes[i]].  Pointer equality is equality of indices.
    - Go [int]s in this file are slice indices and lengths; they are [nat].
    - A run-time panic (index out of range, nil dereference) is the outcome
      [Panic]; an [error] return is [Err].
    - A loop whose end is not read off its bounds takes a [fuel] argument, and
      [OutOfFuel] is the outcome of running out of it; it stands for no
      behaviour of the code. *)

From Stdlib Require Import Ascii String.
From stdpp Require Import base tactics option list numbers strings.

Local Open Scope string_scope.
Local Open Scope list_scope.
Local Open Scope nat_scope.

(** ** Outcomes of a call *)

Inductive error :=
| EOF                         (* io.EOF *)
| SyntaxError (msg : string). (* whatever the tokenizer or the HTML parser reports *)

Inductive outcome (A : Type) :=
| Ret (a : A)
| Err (e : error)
| Panic
| OutOfFuel.
Arguments Ret {A} a.
Arguments Err {A} e.
Arguments Panic {A}.
Arguments OutOfFuel {A}.

Definition outcome_bind {A B} (k : A → outcome B) (m : outcome A) : outcome B :=
  match m with
  | Ret a => k a
  | Err e => Err e
  | Panic => Panic
  | OutOfFuel => OutOfFuel
  end.

#[global] Instance outcome_mbind : MBind outcome := @outcome_bind.
#[global] Instance outcome_mret : MRet outcome := @Ret.

(** ** encoding/xml: names and tokens *)

Module xml.

Record Name := mkName { Space : string; Local : string }.

Record Attr := mkAttr { AttrName : Name; Value : string }.

Inductive Token :=
| StartElement (Name : Name) (Attr : list Attr)
| EndElement (Name : Name)
| CharData (b : list ascii)
| Comment (b : list ascii)
| ProcInst (Target : string) (Inst : list ascii)
| Directive (b : list ascii).

End xml.

(** The zero value of [xml.Name]. *)
Definition noName : xml.Name := xml.mkName "" "".

(** ** Nodes *)

Inductive NodeKind :=
| AnyNode
| StartNode
| EndNode
| AttrNode
| TextNode
| CommentNode
| ProcInstNode.

#[global] Instance NodeKind_eq_dec : EqDecision NodeKind.
Proof. solve_decision. Defined.

(** [node.nodes] is either [nil] or the one shared node slice. *)
Inductive NodesRef := NoNodes | SharedNodes.

(** [node.down]: [nil], a window [downs[off : off+len]] of the shared pool
    (its capacity runs to the end of the pool), or an array of its own that
    [append] allocated when the window was full. *)
Inductive DownSlice :=
| DownNil
| DownPool (off len : nat)
| DownOwn (l : list (option nat)).

Record Node := mkNode {
  kind : NodeKind;
  name : xml.Name;
  attr : string;
  text : list ascii;
  nodes : NodesRef;
  pos : nat;
  end_ : nat;
  up : option nat;
  down : DownSlice
}.

(** [Node{kind: k, name: n, attr: a, text: t}]: the other fields are zero. *)
Definition newNode (k : NodeKind) (n : xml.Name) (a : string) (t : list ascii) : Node :=
  mkNode k n a t NoNodes 0 0 None DownNil.

Definition set_nodes (r : NodesRef) (n : Node) : Node :=
  mkNode (kind n) (name n) (attr n) (text n) r (pos n) (end_ n) (up n) (down n).
Definition set_pos (p : nat) (n : Node) : Node :=
  mkNode (kind n) (name n) (attr n) (text n) (nodes n) p (end_ n) (up n) (down n).
Definition set_end (e : nat) (n : Node) : Node :=
  mkNode (kind n) (name n) (attr n) (text n) (nodes n) (pos n) e (up n) (down n).
Definition set_up (u : option nat) (n : Node) : Node :=
  mkNode (kind n) (name n) (attr n) (text n) (nodes n) (pos n) (end_ n) u (down n).
Definition set_down (d : DownSlice) (n : Node) : Node :=
  mkNode (kind n) (name n) (attr n) (text n) (nodes n) (pos n) (end_ n) (up n) d.

(** A constructed tree: the node slice and the pool that the [down] windows
    point into. *)
Record Tree := mkTree { arena : list Node; downs : list (option nat) }.

Definition Kind (node : Node) : NodeKind := kind node.
Definition Name (node : Node) : xml.Name := name node.

(** [node.nodes[i]] *)
Definition node_at (store : list Node) (node : Node) (i : nat) : outcome Node :=
  match nodes node with
  | NoNodes => Panic
  | SharedNodes => match store !! i with Some n => Ret n | None => Panic end
  end.

(** ** Bytes and String *)

(** First loop of [Bytes]: the capacity to allocate. *)
Fixpoint Bytes_size (store : list Node) (node : Node) (i count size : nat) : outcome nat :=
  match count with
  | 0 => Ret size
  | S count' =>
      n ← node_at store node i;
      Bytes_size store node (S i) count'
        (if decide (kind n = TextNode) then size + length (text n) else size)
  end.

(** Second loop of [Bytes]: the copy. *)
Fixpoint Bytes_copy (store : list Node) (node : Node) (i count : nat) (acc : list ascii)
  : outcome (list ascii) :=
  match count with
  | 0 => Ret acc
  | S count' =>
      n ← node_at store node i;
      Bytes_copy store node (S i) count'
        (if decide (kind n = TextNode) then acc ++ text n else acc)
  end.

Definition Bytes (store : list Node) (node : Node) : outcome (list ascii) :=
  if decide (kind node = AttrNode) then Ret (list_ascii_of_string (attr node))
  else if decide (kind node ≠ StartNode) then Ret (text node)
  else
    _ ← Bytes_size store node (pos node) (end_ node - pos node) 0;
    Bytes_copy store node (pos node) (end_ node - pos node) [].

Definition String_ (store : list Node) (node : Node) : outcome string :=
  if decide (kind node = AttrNode) then Ret (attr node)
  else b ← Bytes store node; Ret (string_of_list_ascii b).

(** ** The standard library's string tests

    [strings.HasPrefix] and [strings.Contains] are the textbook tests: [s]
    begins with [prefix]; [substr] begins at some offset of [s]. *)

Module strings.

Definition HasPrefix (s prefix : string) : bool := String.prefix prefix s.

Fixpoint Contains (s substr : string) : bool :=
  String.prefix substr s ||
  match s with
  | EmptyString => false
  | String _ s' => Contains s' substr
  end.

End strings.

(** ** The range clause over a string

    [for i := range s] visits the index of the first byte of each UTF-8
    encoded code point of [s]; after an invalid sequence it advances by one
    byte.  [rune_width s i] is the number of bytes by which the clause
    advances from index [i]. *)

Definition byte_in (lo hi : N) (b : option ascii) : bool :=
  match b with
  | Some c => ((lo <=? N_of_ascii c) && (N_of_ascii c <=? hi))%N
  | None => false
  end.

Definition rune_width (s : string) (i : nat) : nat :=
  match String.get i s with
  | None => 0
  | Some c0 =>
      let b := N_of_ascii c0 in
      let cont := byte_in 128 191 in
      if (b <? 194)%N then 1                         (* ASCII, or not a leading byte *)
      else if (b <? 224)%N then                      (* C2..DF: two bytes *)
        if cont (String.get (i + 1) s) then 2 else 1
      else if (b <? 240)%N then                      (* E0..EF: three bytes *)
        let lo := if (b =? 224)%N then 160%N else 128%N in
        let hi := if (b =? 237)%N then 159%N else 191%N in
        if byte_in lo hi (String.get (i + 1) s) && cont (String.get (i + 2) s)
        then 3 else 1
      else if (b <? 245)%N then                      (* F0..F4: four bytes *)
        let lo := if (b =? 240)%N then 144%N else 128%N in
        let hi := if (b =? 244)%N then 143%N else 191%N in
        if byte_in lo hi (String.get (i + 1) s) && cont (String.get (i + 2) s)
           && cont (String.get (i + 3) s)
        then 4 else 1
      else 1
  end.

(** ** equals *)

(** [for i := range s { if s[i] != node.text[i] { return false } }; return true]:
    [s] is a string, so [i] runs over the first bytes of its code points. *)
Fixpoint equals_own (fuel : nat) (s : string) (text : list ascii) (i : nat) : outcome bool :=
  match fuel with
  | 0 => OutOfFuel
  | S fuel' =>
      if decide (String.length s ≤ i) then Ret true
      else
        match String.get i s, text !! i with
        | Some a, Some b =>
            if decide (a ≠ b) then Ret false
            else equals_own fuel' s text (i + rune_width s i)
        | _, _ => Panic
        end
  end.

(** The inner loop over one fragment, [for _, c := range nodes[i].text]:
    [None] is [return false], [Some si] the counter the loop ends with. *)
Fixpoint equals_text (s : string) (si : nat) (text : list ascii) : outcome (option nat) :=
  match text with
  | [] => Ret (Some si)
  | c :: text' =>
      if decide (String.length s ≤ si) then Ret None
      else
        match String.get si s with
        | None => Panic
        | Some a => if decide (a ≠ c) then Ret None else equals_text s (S si) text'
        end
  end.

Fixpoint equals_range (store : list Node) (node : Node) (s : string) (i count si : nat)
  : outcome bool :=
  match count with
  | 0 => Ret (bool_decide (si = String.length s))
  | S count' =>
      n ← node_at store node i;
      if decide (kind n = TextNode) then
        r ← equals_text s si (text n);
        match r with
        | None => Ret false
        | Some si' => equals_range store node s (S i) count' si'
        end
      else equals_range store node s (S i) count' si
  end.

Definition equals (store : list Node) (node : Node) (s : string) : outcome bool :=
  if decide (kind node = AttrNode) then Ret (bool_decide (s = attr node))
  else if decide (kind node ≠ StartNode) then
    if decide (String.length s ≠ length (text node)) then Ret false
    else equals_own (S (String.length s)) s (text node) 0
  else equals_range store node s (pos node) (end_ node - pos node) 0.

(** ** contains *)

(** How one attempt (one start position) stands. *)
Inductive attempt :=
| Matched            (* return true *)
| NextTry            (* continue NextTry *)
| Going (si : nat).  (* the loop ended; [si] bytes of [s] are matched *)

(** [for ci++; ci < len(text) && si < len(s); ci++]: [rest] is [text[ci:]]. *)
Fixpoint contains_rest (s : string) (si : nat) (rest : list ascii) : outcome attempt :=
  match rest with
  | [] => Ret (Going si)
  | c :: rest' =>
      if decide (si < String.length s) then
        match String.get si s with
        | None => Panic
        | Some a => if decide (a ≠ c) then Ret NextTry else contains_rest s (S si) rest'
        end
      else Ret (Going si)
  end.

(** [for _, c := range node.nodes[j].text] of the continuation. *)
Fixpoint contains_next_text (s : string) (si : nat) (text : list ascii) : outcome attempt :=
  match text with
  | [] => Ret (Going si)
  | c :: text' =>
      match String.get si s with
      | None => Panic
      | Some a =>
          if decide (a ≠ c) then Ret NextTry
          else if decide (S si = String.length s) then Ret Matched
          else contains_next_text s (S si) text'
      end
  end.

(** [for j := i + 1; j < node.end; j++] *)
Fixpoint contains_next (store : list Node) (node : Node) (s : string) (j count si : nat)
  : outcome attempt :=
  match count with
  | 0 => Ret (Going si)
  | S count' =>
      n ← node_at store node j;
      if decide (kind n = TextNode) then
        r ← contains_next_text s si (text n);
        match r with
        | Going si' => contains_next store node s (S j) count' si'
        | _ => Ret r
        end
      else contains_next store node s (S j) count' si
  end.

(** [NextTry: for ci, c := range text], the text of [nodes[i]]; [rest] is
    [text[ci:]].  The result is whether [contains] returned [true]. *)
Fixpoint contains_text (store : list Node) (node : Node) (s : string) (s0 : ascii)
    (i : nat) (rest : list ascii) : outcome bool :=
  match rest with
  | [] => Ret false
  | c :: rest' =>
      if decide (c ≠ s0) then contains_text store node s s0 i rest'
      else
        r ← contains_rest s 1 rest';
        match r with
        | Matched => Ret true
        | NextTry => contains_text store node s s0 i rest'
        | Going si =>
            if decide (si = String.length s) then Ret true
            else
              r' ← contains_next store node s (i + 1) (end_ node - (i + 1)) si;
              match r' with
              | Matched => Ret true
              | _ => contains_text store node s s0 i rest'
              end
        end
  end.

(** [for i := node.pos; i < node.end; i++] *)
Fixpoint contains_range (store : list Node) (node : Node) (s : string) (s0 : ascii)
    (i count : nat) : outcome bool :=
  match count with
  | 0 => Ret false
  | S count' =>
      n ← node_at store node i;
      if decide (kind n = TextNode) then
        b ← contains_text store node s s0 i (text n);
        if b : bool then Ret true else contains_range store node s s0 (S i) count'
      else contains_range store node s s0 (S i) count'
  end.

Definition contains (store : list Node) (node : Node) (s : string) : outcome bool :=
  if decide (String.length s = 0) then Ret true
  else if decide (kind node = AttrNode) then Ret (strings.Contains (attr node) s)
  else
    match String.get 0 s with
    | None => Panic
    | Some s0 => contains_range store node s s0 (pos node) (end_ node - pos node)
    end.

(** ** startsWith *)

(** [for _, c := range node.nodes[i].text]: [None] is [return true],
    [Some si] the counter with which the loop is left (by [break] or at its
    end). *)
Fixpoint startsWith_text (s : string) (si : nat) (text : list ascii) : outcome (option nat) :=
  match text with
  | [] => Ret (Some si)
  | c :: text' =>
      match String.get si s with
      | None => Panic
      | Some a =>
          if decide (c ≠ a) then Ret (Some si)
          else if decide (S si = String.length s) then Ret None
          else startsWith_text s (S si) text'
      end
  end.

Fixpoint startsWith_range (store : list Node) (node : Node) (s : string) (i count si : nat)
  : outcome bool :=
  match count with
  | 0 => Ret false
  | S count' =>
      n ← node_at store node i;
      if decide (kind n ≠ TextNode) then startsWith_range store node s (S i) count' si
      else
        r ← startsWith_text s si (text n);
        match r with
        | None => Ret true
        | Some si' => startsWith_range store node s (S i) count' si'
        end
  end.

Definition startsWith (store : list Node) (node : Node) (s : string) : outcome bool :=
  if decide (String.length s = 0) then Ret true
  else if decide (kind node = AttrNode) then Ret (strings.HasPrefix (attr node) s)
  else startsWith_range store node s (pos node) (end_ node - pos node) 0.

(** ** Linking the node slice

    The second half of [ParseDecoder], which [ParseHTML] repeats verbatim:
    one pass over [nodes] with the stack of open [StartNode]s.  The stack is
    kept with its top first. *)

Record Builder := mkBuilder {
  bnodes : list Node;
  bstack : list nat;
  bdowns : list (option nat);
  bdownCount : nat
}.

(** [append(node.down, x)], where [node.down] may be a window of [downs]. *)
Definition append_down (downs : list (option nat)) (d : DownSlice) (x : option nat)
  : list (option nat) * DownSlice :=
  match d with
  | DownNil => (downs, DownOwn [x])
  | DownPool off len =>
      if decide (off + len < length downs)
      then (<[off + len := x]> downs, DownPool off (S len))
      else (downs, DownOwn (take len (drop off downs) ++ [x]))
  | DownOwn l => (downs, DownOwn (l ++ [x]))
  end.

(** The case [StartNode, AttrNode, TextNode, CommentNode, ProcInstNode], at
    index [here] of the loop; [nd] is [nodes[here]]. *)
Definition open_node (here : nat) (nd : Node) (b : Builder) : Builder :=
  let node := set_pos here (set_nodes SharedNodes nd) in
  let node :=
    match bstack b with
    | [] => node
    | top :: _ => set_up (Some top) node
    end in
  if decide (kind node = StartNode)
  then mkBuilder (<[here := node]> (bnodes b)) (here :: bstack b) (bdowns b) (bdownCount b)
  else mkBuilder (<[here := set_end (here + 1) node]> (bnodes b)) (bstack b) (bdowns b)
         (bdownCount b).

(** [for i := node.pos + 1; i < node.end; i++], where [node] is
    [&nodes[p]]. *)
Fixpoint collect_downs (p i count : nat) (b : Builder) : outcome Builder :=
  match count with
  | 0 => Ret b
  | S count' =>
      match bnodes b !! i with
      | None => Panic
      | Some ni =>
          if decide (up ni = Some p) then
            match kind ni with
            | StartNode | TextNode | CommentNode | ProcInstNode =>
                match bnodes b !! p with
                | None => Panic
                | Some node =>
                    let '(downs', d') := append_down (bdowns b) (down node) (Some i) in
                    collect_downs p (S i) count'
                      (mkBuilder (<[p := set_down d' node]> (bnodes b)) (bstack b) downs'
                         (S (bdownCount b)))
                end
            | _ => collect_downs p (S i) count' b
            end
          else collect_downs p (S i) count' b
      end
  end.

(** The case [EndNode], at index [here] of the loop.  The second component
    is the node to return, when the stack has become empty. *)
Definition close_node (here : nat) (b : Builder) : outcome (Builder * option nat) :=
  match bstack b with
  | [] => Panic
  | p :: stack' =>
      match bnodes b !! p with
      | None => Panic
      | Some node =>
          if decide (bdownCount b ≤ length (bdowns b)) then
            let node := set_down (DownPool (bdownCount b) 0) (set_end here node) in
            b' ← collect_downs p (pos node + 1) (end_ node - (pos node + 1))
                   (mkBuilder (<[p := node]> (bnodes b)) stack' (bdowns b) (bdownCount b));
            Ret (b', match stack' with [] => Some p | _ => None end)
          else Panic
      end
  end.

(** [for pos := range nodes], with [here] for the loop's [pos]; leaving the
    loop is [return nil, io.EOF]. *)
Fixpoint link_loop (here count : nat) (b : Builder) : outcome (nat * Tree) :=
  match count with
  | 0 => Err EOF
  | S count' =>
      match bnodes b !! here with
      | None => Panic
      | Some nd =>
          match kind nd with
          | StartNode | AttrNode | TextNode | CommentNode | ProcInstNode =>
              link_loop (S here) count' (open_node here nd b)
          | EndNode =>
              r ← close_node here b;
              match r.2 with
              | Some root => Ret (root, mkTree (bnodes r.1) (bdowns r.1))
              | None => link_loop (S here) count' r.1
              end
          | AnyNode => link_loop (S here) count' b
          end
      end
  end.

Definition link (nodes : list Node) : outcome (nat * Tree) :=
  link_loop 0 (length nodes)
    (mkBuilder nodes [] (replicate (length nodes) None) 0).

(** ** ParseDecoder *)

(** The decoder as [ParseDecoder] sees it: the tokens [d.Token()] returns,
    then the error that ends them ([io.EOF] at the end of the input). *)
Record Decoder := mkDecoder { Tokens : list xml.Token; Final : error }.

(** [l[lo:hi]] *)
Definition slice {A} (l : list A) (lo hi : nat) : list A := take (hi - lo) (drop lo l).

Definition rootNode : Node := newNode StartNode noName "" [].
Definition endNode : Node := newNode EndNode noName "" [].

(** Appends [t] to [text] and a node of kind [k] that holds the new span. *)
Definition append_text (k : NodeKind) (n : xml.Name) (t : list ascii)
    (st : list Node * list ascii) : list Node * list ascii :=
  let texti := length st.2 in
  let text := st.2 ++ t in
  (st.1 ++ [newNode k n "" (slice text texti (texti + length t))], text).

(** The type switch on one token. *)
Definition read_token (t : xml.Token) (st : list Node * list ascii)
  : list Node * list ascii :=
  match t with
  | xml.EndElement _ => (st.1 ++ [endNode], st.2)
  | xml.StartElement n attrs =>
      (foldl (λ nodes a, nodes ++ [newNode AttrNode (xml.AttrName a) (xml.Value a) []])
         (st.1 ++ [newNode StartNode n "" []]) attrs, st.2)
  | xml.CharData t => append_text TextNode noName t st
  | xml.Comment t => append_text CommentNode noName t st
  | xml.ProcInst target inst => append_text ProcInstNode (xml.mkName "" target) inst st
  | xml.Directive _ => st
  end.

(** The token loop. *)
Fixpoint read_tokens (toks : list xml.Token) (final : error) (st : list Node * list ascii)
  : outcome (list Node * list ascii) :=
  match toks with
  | [] => match final with EOF => Ret st | _ => Err final end
  | t :: toks' => read_tokens toks' final (read_token t st)
  end.

Definition ParseDecoder (d : Decoder) : outcome (nat * Tree) :=
  st ← read_tokens (Tokens d) (Final d) ([rootNode], []);
  link (st.1 ++ [endNode]).

(** ** ParseHTML *)

Module html.

Inductive NodeType :=
| ErrorNode
| TextNode
| DocumentNode
| ElementNode
| CommentNode
| DoctypeNode
| RawNode.

#[global] Instance NodeType_eq_dec : EqDecision NodeType.
Proof. solve_decision. Defined.

Record Attribute := mkAttribute { AttrNamespace : string; Key : string; Val : string }.

(** An [html.Node]; its pointers are indices into the heap of the parsed
    document.  ([PrevSibling] and [LastChild] are not read.) *)
Record Node := mkNode {
  Parent : option nat;
  FirstChild : option nat;
  NextSibling : option nat;
  Type_ : NodeType;
  Data : string;
  Namespace : string;
  Attr : list Attribute
}.

(** What [html.ParseFragment(r, nil)] returned. *)
Record Fragment := mkFragment {
  heap : list Node;
  ns : list nat;
  err : option error
}.

End html.

(** [*n] for a non-nil [n]. *)
Definition html_deref (heap : list html.Node) (p : nat) : outcome html.Node :=
  match heap !! p with
  | Some n => Ret n
  | None => Panic
  end.

(** The switch on [n.Type]. *)
Definition html_open (n : html.Node) (st : list Node * list ascii) : list Node * list ascii :=
  match html.Type_ n with
  | html.ElementNode =>
      (foldl (λ nodes a,
              nodes ++ [newNode AttrNode (xml.mkName (html.AttrNamespace a) (html.Key a))
                          (html.Val a) []])
         (st.1 ++ [newNode StartNode (xml.mkName (html.Namespace n) (html.Data n)) "" []])
         (html.Attr n), st.2)
  | html.TextNode => append_text TextNode noName (list_ascii_of_string (html.Data n)) st
  | html.CommentNode => append_text CommentNode noName (list_ascii_of_string (html.Data n)) st
  | _ => st
  end.

(** The inner loop [for n != nil], which climbs until a next sibling is
    found.  It returns the new [n] and [nodes]. *)
Fixpoint html_climb (fuel : nat) (heap : list html.Node) (n : option nat) (nodes : list Node)
  : outcome (option nat * list Node) :=
  match n with
  | None => Ret (None, nodes)
  | Some p =>
      match fuel with
      | 0 => OutOfFuel
      | S fuel' =>
          hn ← html_deref heap p;
          let nodes :=
            if decide (html.Type_ hn = html.ElementNode) then nodes ++ [endNode] else nodes in
          match html.NextSibling hn with
          | Some sib => Ret (Some sib, nodes)
          | None => html_climb fuel' heap (html.Parent hn) nodes
          end
      end
  end.

(** The outer loop [for n != nil].  The trees that [html.ParseFragment]
    returns are finite, so the two loops of the code end; in the model
    [fuel] bounds their iterations. *)
Fixpoint html_walk (fuel : nat) (heap : list html.Node) (n : option nat)
    (st : list Node * list ascii) : outcome (list Node * list ascii) :=
  match n with
  | None => Ret st
  | Some p =>
      match fuel with
      | 0 => OutOfFuel
      | S fuel' =>
          hn ← html_deref heap p;
          let st := html_open hn st in
          match html.FirstChild hn with
          | Some c => html_walk fuel' heap (Some c) st
          | None =>
              r ← html_climb fuel' heap (Some p) st.1;
              html_walk fuel' heap r.1 (r.2, st.2)
          end
      end
  end.

Definition ParseHTML (fuel : nat) (r : html.Fragment) : outcome (nat * Tree) :=
  match html.err r with
  | Some e => Err e
  | None =>
      match html.ns r !! 0 with
      | None => Panic
      | Some n =>
          st ← html_walk fuel (html.heap r) (Some n) ([rootNode], []);
          link (st.1 ++ [endNode])
      end
  end.

(** ** Reading a tree *)

(** The entries of [node.down]. *)
Definition children (t : Tree) (node : Node) : list (option nat) :=
  match down node with
  | DownNil => []
  | DownPool off len => take len (drop off (downs t))
  | DownOwn l => l
  end.

(** A tree that one of the two constructors returned. *)
Definition constructed (root : nat) (t : Tree) : Prop :=
  (∃ d, ParseDecoder d = Ret (root, t)) ∨ (∃ fuel r, ParseHTML fuel r = Ret (root, t)).

(** * Notions for the statements *)

(** ** Kinds, parents and children *)

Definition live (k : NodeKind) : bool :=
  match k with
  | StartNode | AttrNode | TextNode | CommentNode | ProcInstNode => true
  | _ => false
  end.

(** The kinds that [down] lists. *)
Definition eligible (k : NodeKind) : bool :=
  match k with
  | StartNode | TextNode | CommentNode | ProcInstNode => true
  | _ => false
  end.

(** A node as the first half of a constructor appends it. *)
Definition fresh (n : Node) : Prop :=
  nodes n = NoNodes ∧ pos n = 0 ∧ end_ n = 0 ∧ up n = None ∧ down n = DownNil.

(** [nodes[i].up == &nodes[p]] and [nodes[i]] is of a listed kind. *)
Definition child_of (ns : list Node) (p i : nat) : bool :=
  match ns !! i with
  | Some n => bool_decide (up n = Some p) && eligible (kind n)
  | None => false
  end.

(** The immediate children of [nodes[p]] that [down] is to list, in
    document order. *)
Definition kids (ns : list Node) (p : nat) : list nat :=
  filter (λ i, child_of ns p i) (seq 0 (length ns)).

(** [d] is a descendant of [a]: following [up] from [d] reaches [a]. *)
Inductive descendant (ns : list Node) (a : nat) : nat → Prop :=
| descendant_child d nd :
    ns !! d = Some nd → up nd = Some a → descendant ns a d
| descendant_step d nd p :
    ns !! d = Some nd → up nd = Some p → descendant ns a p → descendant ns a d.

(** ** The state of the linking pass *)

Fixpoint chain (ns : list Node) (st : list nat) : Prop :=
  match st with
  | [] => True
  | s :: st' =>
      (∃ n, ns !! s = Some n ∧ kind n = StartNode ∧ up n = head st') ∧ chain ns st'
  end.

(** The stack, top first, holds decreasing indices. *)
Fixpoint descending (st : list nat) : Prop :=
  match st with
  | [] => True
  | s :: st' => (∀ s', s' ∈ st' → s' < s) ∧ descending st'
  end.

(** [nodes[here]] once its case of the switch has run. *)
Definition opened (here : nat) (nd : Node) (st : list nat) : Node :=
  mkNode (kind nd) (name nd) (attr nd) (text nd) SharedNodes here
    (if decide (kind nd = StartNode) then end_ nd else here + 1)
    (match st with [] => up nd | top :: _ => Some top end) (down nd).

Definition same_static (n n0 : Node) : Prop :=
  kind n = kind n0 ∧ name n = name n0 ∧ attr n = attr n0 ∧ text n = text n0.

(** The builder that [close_node] leaves, given the top [p] of the stack
    and [np], the entry of [p]. *)
Definition closed_children (ns : list Node) (p here : nat) : list nat :=
  filter (λ j, child_of ns p j) (seq (p + 1) (here - (p + 1))).

Definition closed (here : nat) (b : Builder) (p : nat) (np : Node) : Builder :=
  let C := closed_children (bnodes b) p here in
  mkBuilder
    (<[p := set_down (DownPool (bdownCount b) (length C)) (set_end here np)]> (bnodes b))
    (tail (bstack b))
    (take (bdownCount b) (bdowns b) ++ (Some <$> C)
       ++ drop (bdownCount b + length C) (bdowns b))
    (bdownCount b + length C).

(** ** Events, and where the root closes *)

(** The node slice handed to the linking pass: the synthetic root first,
    every entry as [newNode] made it. *)
Definition events_ok (ns : list Node) : Prop :=
  ns !! 0 = Some rootNode ∧ Forall fresh ns.

(** Where the synthetic root closes: the index of the first [EndNode] that
    leaves no [StartNode] open.  [depth] counts the nodes open before
    [here]. *)
Fixpoint closing_index (depth here : nat) (ks : list NodeKind) : option nat :=
  match ks with
  | [] => None
  | k :: ks' =>
      match k with
      | StartNode => closing_index (S depth) (S here) ks'
      | EndNode =>
          match depth with
          | 0 => None
          | 1 => Some here
          | S depth' => closing_index depth' (S here) ks'
          end
      | _ => closing_index depth (S here) ks'
      end
  end.

(** The termination rule in the words of the specification: every event is
    processed; an [EndNode] that arrives with an empty stack is an error; at
    the end of the input the stack must be empty, so that it became empty
    at the last event, the synthetic root's [EndNode]. *)
Fixpoint spec_accepts (depth : nat) (ks : list NodeKind) : bool :=
  match ks with
  | [] => bool_decide (depth = 0)
  | StartNode :: ks' => spec_accepts (S depth) ks'
  | EndNode :: ks' =>
      match depth with
      | 0 => false
      | S depth' => spec_accepts depth' ks'
      end
  | _ :: ks' => spec_accepts depth ks'
  end.

(** The tokens of a document in which every end tag closes an open start
    tag and no start tag is left open, as [Decoder.Token] delivers them. *)
Fixpoint balanced (depth : nat) (toks : list xml.Token) : bool :=
  match toks with
  | [] => bool_decide (depth = 0)
  | xml.StartElement _ _ :: toks' => balanced (S depth) toks'
  | xml.EndElement _ :: toks' =>
      match depth with
      | 0 => false
      | S depth' => balanced depth' toks'
      end
  | _ :: toks' => balanced depth toks'
  end.

(** The kinds of the nodes that [read_token] appends. *)
Definition token_kinds (t : xml.Token) : list NodeKind :=
  match t with
  | xml.StartElement _ attrs => StartNode :: replicate (length attrs) AttrNode
  | xml.EndElement _ => [EndNode]
  | xml.CharData _ => [TextNode]
  | xml.Comment _ => [CommentNode]
  | xml.ProcInst _ _ => [ProcInstNode]
  | xml.Directive _ => []
  end.

(** The character data of a token. *)
Definition token_text (t : xml.Token) : list ascii :=
  match t with
  | xml.CharData b => b
  | _ => []
  end.

(** ** Texts and the textbook search *)

(** The text that [Bytes] is to return for a [StartNode]: the texts of the
    [TextNode]s in its range, in order. *)
Definition range_text (store : list Node) (node : Node) : list ascii :=
  concat (text <$> filter (λ n, kind n = TextNode) (slice store (pos node) (end_ node))).

(** The texts of the [TextNode]s among [count] entries from index [i]. *)
Definition span_text (store : list Node) (i count : nat) : list ascii :=
  concat (text <$> filter (λ n, kind n = TextNode) (take count (drop i store))).

(** Matching [need] against the text at hand: [None] on a mismatch,
    otherwise what remains of [need] when the text, or [need], is used up. *)
Fixpoint match_prefix (need text : list ascii) : option (list ascii) :=
  match need with
  | [] => Some []
  | a :: need' =>
      match text with
      | [] => Some need
      | c :: text' => if decide (a = c) then match_prefix need' text' else None
      end
  end.

(** The textbook search: some suffix of the text begins with [need]. *)
Fixpoint search (need text : list ascii) : bool :=
  match text with
  | [] => false
  | _ :: text' => bool_decide (match_prefix need text = Some []) || search need text'
  end.

(** The search restricted to the start positions in [rest], which is
    followed by [after]. *)
Fixpoint search_in (need rest after : list ascii) : bool :=
  match rest with
  | [] => false
  | _ :: rest' =>
      bool_decide (match_prefix need (rest ++ after) = Some []) || search_in need rest' after
  end.

(** ** The nodes of a token *)

(** The nodes that one token stands for: an element and its attributes, in
    the order of the start tag; the end of an element; a text, a comment or a
    processing instruction with its bytes; nothing for a directive. *)
Definition token_nodes (t : xml.Token) : list Node :=
  match t with
  | xml.StartElement n attrs =>
      newNode StartNode n "" []
        :: ((λ a, newNode AttrNode (xml.AttrName a) (xml.Value a) []) <$> attrs)
  | xml.EndElement _ => [newNode EndNode noName "" []]
  | xml.CharData b => [newNode TextNode noName "" b]
  | xml.Comment b => [newNode CommentNode noName "" b]
  | xml.ProcInst target inst => [newNode ProcInstNode (xml.mkName "" target) "" inst]
  | xml.Directive _ => []
  end.

(** ** Attributes in the node slice *)

(** In a list of kinds, every [AttrNode] comes directly after a [StartNode]
    or another [AttrNode]: both constructors append the attributes of an
    element right after its [StartNode]. *)
Definition attr_led (ks : list NodeKind) : Prop :=
  ∀ i, ks !! i = Some AttrNode →
       ∃ j k, i = S j ∧ ks !! j = Some k ∧ (k = StartNode ∨ k = AttrNode).

(** What the linking pass keeps about attributes when the entries below
    [k] are done: an [AttrNode] with a parent comes directly after its parent
    or after another attribute of its parent; and the entry just done, when
    it is a [StartNode], is the top of the stack, and when it is an
    [AttrNode], has the top of the stack for parent. *)
Definition AttrRuns (k : nat) (b : Builder) : Prop :=
  (∀ i n p, bnodes b !! i = Some n → kind n = AttrNode → up n = Some p →
     ∃ j m, i = S j ∧ bnodes b !! j = Some m ∧
            ((kind m = StartNode ∧ p = j) ∨ (kind m = AttrNode ∧ up m = Some p))) ∧
  (∀ j m, k = S j → bnodes b !! j = Some m →
     (kind m = StartNode → head (bstack b) = Some j) ∧
     (kind m = AttrNode → up m = head (bstack b))).

(** ** Where an element closes *)

(** What the linking pass keeps about the ends of the ranges, [ks] being
    the kinds of the node slice: the range of a [StartNode] that is closed
    ends where [closing_index] finds its end; and for the [StartNode] of the
    stack with [d] nodes above it, the search for its end stands at the
    depth [S d]. *)
Definition Closes (ks : list NodeKind) (k : nat) (b : Builder) : Prop :=
  (∀ i n, bnodes b !! i = Some n → kind n = StartNode → i < k → i ∉ bstack b →
          closing_index 0 i (drop i ks) = Some (end_ n)) ∧
  (∀ d s, bstack b !! d = Some s →
          closing_index 0 s (drop s ks) = closing_index (S d) k (drop k ks)).

(** ** Parsed HTML documents *)

(** A parsed document as a tree: the type, data, namespace and attributes
    of a node, and its children. *)
#[warnings="-register-all"]
Inductive Html :=
| HtmlNode (ty : html.NodeType) (data space : string) (attrs : list html.Attribute)
    (kids : list Html).

(** The tokens that spell a parsed document out: a start tag, the children
    and an end tag for an element; the data and the children for a text or
    a comment; the children alone for a node of another type. *)
Fixpoint html_tokens (h : Html) : list xml.Token :=
  match h with
  | HtmlNode ty data space attrs kids =>
      let inner :=
        (fix go (l : list Html) : list xml.Token :=
           match l with
           | [] => []
           | k :: l' => html_tokens k ++ go l'
           end) kids in
      match ty with
      | html.ElementNode =>
          xml.StartElement (xml.mkName space data)
            ((λ a, xml.mkAttr (xml.mkName (html.AttrNamespace a) (html.Key a)) (html.Val a))
               <$> attrs)
            :: inner ++ [xml.EndElement (xml.mkName space data)]
      | html.TextNode => xml.CharData (list_ascii_of_string data) :: inner
      | html.CommentNode => xml.Comment (list_ascii_of_string data) :: inner
      | _ => inner
      end
  end.

Definition forest_tokens (f : list Html) : list xml.Token :=
  concat (html_tokens <$> f).

(** The text of a parsed document: the data of its text nodes, in document
    order. *)
Fixpoint html_text (h : Html) : list ascii :=
  match h with
  | HtmlNode ty data space attrs kids =>
      (if decide (ty = html.TextNode) then list_ascii_of_string data else [])
      ++ (fix go (l : list Html) : list ascii :=
            match l with
            | [] => []
            | k :: l' => html_text k ++ go l'
            end) kids
  end.

Definition forest_text (f : list Html) : list ascii :=
  concat (html_text <$> f).

(** The heap holds the forest [f]: its first tree is at [first], the
    trees are chained by [NextSibling], their [Parent] is [parent], and the
    children of each hang from its [FirstChild] in the same way. *)
Inductive lays (heap : list html.Node) : option nat → option nat → list Html → Prop :=
| lays_nil parent : lays heap parent None []
| lays_cons parent p hn kids rest :
    heap !! p = Some hn → html.Parent hn = parent →
    lays heap (Some p) (html.FirstChild hn) kids →
    lays heap parent (html.NextSibling hn) rest →
    lays heap parent (Some p)
      (HtmlNode (html.Type_ hn) (html.Data hn) (html.Namespace hn) (html.Attr hn) kids
         :: rest).

(** The token loop of [ParseDecoder] without its end: the state after the
    tokens [toks]. *)
Definition read_all (toks : list xml.Token) (st : list Node * list ascii)
  : list Node * list ascii :=
  foldl (λ st t, read_token t st) st toks.

(** The two loops of [ParseHTML] return, with all the fuel from some amount
    on. *)
Definition climbs (heap : list html.Node) (n : option nat) (nodes : list Node)
    (r : option nat * list Node) : Prop :=
  ∃ f0, ∀ fuel, f0 ≤ fuel → html_climb fuel heap n nodes = Ret r.

Definition walks (heap : list html.Node) (n : option nat) (st st' : list Node * list ascii)
  : Prop :=
  ∃ f0, ∀ fuel, f0 ≤ fuel → html_walk fuel heap n st = Ret st'.

(** What remains to do once the children of [parent] are done: climb from
    [parent], then walk on from where the climb stops. *)
Definition walks_on (heap : list html.Node) (parent : option nat)
    (st st' : list Node * list ascii) : Prop :=
  ∃ r, climbs heap parent st.1 r ∧ walks heap r.1 (r.2, st.2) st'.

(** ** The tree of a parsed document *)

(** The nodes that a parsed document stands for: those of its tokens. *)
Definition html_nodes (h : Html) : list Node :=
  concat (token_nodes <$> html_tokens h).

Definition forest_nodes (f : list Html) : list Node :=
  concat (token_nodes <$> forest_tokens f).

(** The node of an attribute of an element. *)
Definition attr_node (a : html.Attribute) : Node :=
  newNode AttrNode (xml.mkName (html.AttrNamespace a) (html.Key a)) (html.Val a) [].

(** A document of elements, texts and comments in which only the elements
    have children, as an HTML parser delivers below the document node. *)
Fixpoint proper (h : Html) : bool :=
  match h with
  | HtmlNode ty _ _ _ kids =>
      match ty with
      | html.ElementNode =>
          (fix go (l : list Html) : bool :=
             match l with
             | [] => true
             | k :: l' => proper k && go l'
             end) kids
      | html.TextNode | html.CommentNode =>
          match kids with [] => true | _ => false end
      | _ => false
      end
  end.

(** Where the trees of a forest begin in the node slice, the first of them
    at [i]. *)
Fixpoint starts (i : nat) (f : list Html) : list nat :=
  match f with
  | [] => []
  | h :: f' => i :: starts (i + length (html_nodes h)) f'
  end.

Fixpoint ascending (l : list nat) : Prop :=
  match l with
  | [] => True
  | x :: l' => (∀ y, y ∈ l' → x < y) ∧ ascending l'
  end.

(** The entry [i] of the tree [t] shows the document [h] below the parent
    [parent]: an element has the name of [h], its attributes follow it with
    their names and values, and its [down] list shows the children of [h],
    in order; a text or a comment has the data of [h]. *)
#[warnings="-register-all"]
Inductive shows (t : Tree) : option nat → nat → Html → Prop :=
| shows_element parent i n data space attrs kids cs :
    arena t !! i = Some n → kind n = StartNode → up n = parent →
    name n = xml.mkName space data →
    Forall2 (λ m a, kind m = AttrNode ∧
                    name m = xml.mkName (html.AttrNamespace a) (html.Key a) ∧
                    attr m = html.Val a ∧ up m = Some i)
      (take (length attrs) (drop (S i) (arena t))) attrs →
    children t n = Some <$> cs →
    Forall2 (shows t (Some i)) cs kids →
    shows t parent i (HtmlNode html.ElementNode data space attrs kids)
| shows_text parent i n data space attrs :
    arena t !! i = Some n → kind n = TextNode → up n = parent →
    text n = list_ascii_of_string data →
    shows t parent i (HtmlNode html.TextNode data space attrs [])
| shows_comment parent i n data space attrs :
    arena t !! i = Some n → kind n = CommentNode → up n = parent →
    text n = list_ascii_of_string data →
    shows t parent i (HtmlNode html.CommentNode data space attrs []).

(** Wherever the nodes of [h] lie in the node slice [E], after [pre], below
    an element [p] that no later element separates from them, the tree [t]
    shows [h] there, with [p] for parent. *)
Definition shows_at (E : list Node) (t : Tree) (h : Html) : Prop :=
  ∀ pre post p np,
    E = pre ++ html_nodes h ++ post →
    arena t !! p = Some np → kind np = StartNode → p < length pre →
    length pre + length (html_nodes h) ≤ end_ np →
    (∀ q nq, arena t !! q = Some nq → kind nq = StartNode → p < q → q < length pre →
             end_ nq ≤ length pre) →
    shows t (Some p) (length pre) h.

(** ** The value of a child *)

(** What the entry [c] adds to the string value of its parent: its text
    when it is a [TextNode], the texts in its range when it is a
    [StartNode], nothing otherwise. *)
Definition child_value (store : list Node) (c : nat) : list ascii :=
  match store !! c with
  | Some nc =>
      match kind nc with
      | TextNode => text nc
      | StartNode => range_text store nc
      | _ => []
      end
  | None => []
  end.

(** ** Documents to try the theorems on

    Each is the token sequence that the tokenizer delivers for the document
    named in its comment. *)

Definition local_name (l : string) : xml.Name := xml.mkName "" l.

(** The tree of an outcome, and the empty tree when there is none. *)
Definition tree_of (o : outcome (nat * Tree)) : Tree :=
  match o with
  | Ret (_, t) => t
  | _ => mkTree [] []
  end.

(** The entry [i] of a tree, and a zero node when there is none. *)
Definition entry (t : Tree) (i : nat) : Node :=
  default (newNode AnyNode noName "" []) (arena t !! i).

(** [<a x="1"><b>he</b>llo<!--c--></a>] *)
Definition sample : Decoder :=
  mkDecoder
    [xml.StartElement (local_name "a") [xml.mkAttr (local_name "x") "1"];
     xml.StartElement (local_name "b") [];
     xml.CharData (list_ascii_of_string "he");
     xml.EndElement (local_name "b");
     xml.CharData (list_ascii_of_string "llo");
     xml.Comment (list_ascii_of_string "c");
     xml.EndElement (local_name "a")]
    EOF.

Definition sample_tree : Tree := Eval vm_compute in tree_of (ParseDecoder sample).

(** A stray end tag before a text, [</a>x]: what a decoder delivers for
    [<a></a>x] once its first token, the start tag, has been read. *)
Definition stray_end : Decoder :=
  mkDecoder [xml.EndElement (local_name "a"); xml.CharData (list_ascii_of_string "x")] EOF.

(** [<a>ab<!--x-->cd</a>]: the fragments of [a] are ["ab"] and, after the
    comment, ["cd"]; ["bc"] is in neither, and [contains("bc")] is true. *)
Definition straddle : Decoder :=
  mkDecoder
    [xml.StartElement (local_name "a") [];
     xml.CharData (list_ascii_of_string "ab");
     xml.Comment (list_ascii_of_string "x");
     xml.CharData (list_ascii_of_string "cd");
     xml.EndElement (local_name "a")]
    EOF.

Definition straddle_tree : Tree := Eval vm_compute in tree_of (ParseDecoder straddle).

(** [<a><!--xy--></a>] *)
Definition commented : Decoder :=
  mkDecoder
    [xml.StartElement (local_name "a") [];
     xml.Comment (list_ascii_of_string "xy");
     xml.EndElement (local_name "a")]
    EOF.

Definition commented_tree : Tree := Eval vm_compute in tree_of (ParseDecoder commented).

(** [<a>x<b>a</b></a>] *)
Definition late_prefix : Decoder :=
  mkDecoder
    [xml.StartElement (local_name "a") [];
     xml.CharData (list_ascii_of_string "x");
     xml.StartElement (local_name "b") [];
     xml.CharData (list_ascii_of_string "a");
     xml.EndElement (local_name "b");
     xml.EndElement (local_name "a")]
    EOF.

Definition late_prefix_tree : Tree := Eval vm_compute in tree_of (ParseDecoder late_prefix).

(** The two-byte UTF-8 encodings of U+00E9 and U+00EA: C3 A9 and C3 AA. *)
Definition e_acute : string :=
  String (ascii_of_nat 195) (String (ascii_of_nat 169) EmptyString).
Definition e_circumflex : string :=
  String (ascii_of_nat 195) (String (ascii_of_nat 170) EmptyString).

(** [<a>ê</a>] *)
Definition accented : Decoder :=
  mkDecoder
    [xml.StartElement (local_name "a") [];
     xml.CharData (list_ascii_of_string e_circumflex);
     xml.EndElement (local_name "a")]
    EOF.

Definition accented_tree : Tree := Eval vm_compute in tree_of (ParseDecoder accented).

(** The fragment [<p id="x">Hi] as [html.ParseFragment] returns it: an
    [html] element with an empty [head] and a [body] that holds the
    paragraph. *)
Definition hi_fragment : html.Fragment :=
  html.mkFragment
    [html.mkNode None (Some 1) None html.ElementNode "html" "" [];
     html.mkNode (Some 0) None (Some 2) html.ElementNode "head" "" [];
     html.mkNode (Some 0) (Some 3) None html.ElementNode "body" "" [];
     html.mkNode (Some 2) (Some 4) None html.ElementNode "p" ""
       [html.mkAttribute "" "id" "x"];
     html.mkNode (Some 3) None None html.TextNode "Hi" "" []]
    [0] None.

Definition hi_tree : Tree := Eval vm_compute in tree_of (ParseHTML 16 hi_fragment).

(** The document of [hi_fragment]. *)
Definition hi_document : list Html :=
  [HtmlNode html.ElementNode "html" "" []
     [HtmlNode html.ElementNode "head" "" [] [];
      HtmlNode html.ElementNode "body" "" []
        [HtmlNode html.ElementNode "p" "" [html.mkAttribute "" "id" "x"]
           [HtmlNode html.TextNode "Hi" "" [] []]]]].



(** * The linking pass *)

(** ** Lists, filters and the pool *)

Lemma set_down_set_down d d' n : set_down d' (set_down d n) = set_down d' n.
Proof. done. Qed.

Lemma child_of_insert ns p q n' n i :
  ns !! q = Some n → up n' = up n → kind n' = kind n →
  child_of (<[q := n']> ns) p i = child_of ns p i.
Proof.
  intros Hq Hu Hk. unfold child_of.
  destruct (decide (q = i)) as [->|Hne].
  - rewrite list_lookup_insert_eq by (by eapply lookup_lt_Some).
    by rewrite Hq, Hu, Hk.
  - by rewrite list_lookup_insert_ne.
Qed.

Lemma child_of_insert_gen ns p q n' i :
  q < length ns →
  (q = i → child_of ns p i = bool_decide (up n' = Some p) && eligible (kind n')) →
  child_of (<[q := n']> ns) p i = child_of ns p i.
Proof.
  intros Hq Hi. unfold child_of at 1.
  destruct (decide (q = i)) as [->|Hne].
  - rewrite list_lookup_insert_eq by done. by rewrite Hi.
  - by rewrite list_lookup_insert_ne.
Qed.

Lemma kids_ext ns ns' p :
  length ns' = length ns → (∀ i, child_of ns' p i = child_of ns p i) → kids ns' p = kids ns p.
Proof.
  intros Hl Hc. unfold kids. rewrite Hl. apply list_filter_iff. intros i. by rewrite Hc.
Qed.

Lemma kids_spec ns p c :
  c ∈ kids ns p → ∃ nc, ns !! c = Some nc ∧ up nc = Some p ∧ eligible (kind nc) = true.
Proof.
  unfold kids. intros [Hch _]%list_elem_of_filter. unfold child_of in Hch.
  destruct (ns !! c) as [nc|]; [|done].
  apply Is_true_eq_true, andb_true_iff in Hch as [Hu%bool_decide_eq_true He]. eauto.
Qed.

Lemma kids_elem ns p c nc :
  ns !! c = Some nc → up nc = Some p → eligible (kind nc) = true → c ∈ kids ns p.
Proof.
  intros Hnc Hu He. unfold kids. apply list_elem_of_filter. split.
  - unfold child_of. rewrite Hnc, He, bool_decide_eq_true_2 by done. done.
  - apply elem_of_seq. apply lookup_lt_Some in Hnc. lia.
Qed.

Lemma filter_none {A} (P : A → Prop) `{!∀ x, Decision (P x)} (l : list A) :
  (∀ x, x ∈ l → ¬ P x) → filter P l = [].
Proof.
  induction l as [|x l IH]; [done|]. intros HP.
  rewrite filter_cons_False by (apply HP; left).
  apply IH. intros y Hy. apply HP. by right.
Qed.

(** A filter over all indices only sees the window that holds its members. *)
Lemma filter_seq_window (P : nat → Prop) `{!∀ i, Decision (P i)} a c n :
  a + c ≤ n → (∀ i, P i → a ≤ i < a + c) →
  filter P (seq 0 n) = filter P (seq a c).
Proof.
  intros Hn HP.
  replace n with (a + (c + (n - (a + c)))) by lia.
  rewrite !seq_app, !filter_app. simpl.
  rewrite (filter_none P (seq 0 a)), (filter_none P (seq (a + c) _)).
  - by rewrite app_nil_r.
  - intros i Hi%elem_of_seq HPi. apply HP in HPi. lia.
  - intros i Hi%elem_of_seq HPi. apply HP in HPi. lia.
Qed.

Lemma pool_write {A} (ds : list A) d x (C : list A) n :
  d < length ds → n = length C →
  take (S d) (<[d := x]> ds) ++ C ++ drop (S d + n) (<[d := x]> ds)
  = take d ds ++ (x :: C) ++ drop (d + S n) ds.
Proof.
  intros Hd ->.
  rewrite (take_S_r _ _ x) by (by apply list_lookup_insert_eq).
  rewrite take_insert_ge by lia. rewrite drop_insert_lt by lia.
  rewrite <- app_assoc. simpl. by rewrite Nat.add_succ_r.
Qed.

Lemma window_agree {A} (l l' : list A) dc off len :
  take dc l' = take dc l → off + len ≤ dc →
  take len (drop off l') = take len (drop off l).
Proof.
  intros Ht Hle. rewrite !take_drop_commute.
  replace (off + len) with (min (off + len) dc) by lia.
  by rewrite <- !take_take, Ht.
Qed.

Lemma chain_ext ns ns' st :
  (∀ s n, s ∈ st → ns !! s = Some n →
          ∃ n', ns' !! s = Some n' ∧ kind n' = kind n ∧ up n' = up n) →
  chain ns st → chain ns' st.
Proof.
  induction st as [|s st IH]; [done|]. intros Hext [(n & Hn & Hk & Hu) Hc]. split.
  - destruct (Hext s n) as (n' & Hn' & Hk' & Hu'); [left|done|].
    exists n'. by rewrite Hk', Hu'.
  - apply IH; [|done]. intros s' m Hs'. apply Hext. by right.
Qed.

Lemma chain_elem ns st s :
  chain ns st → s ∈ st → ∃ n, ns !! s = Some n ∧ kind n = StartNode.
Proof.
  induction st as [|s' st IH]; intros Hc Hs; [by apply elem_of_nil in Hs|].
  destruct Hc as [(n & Hn & Hk & _) Hc]. apply elem_of_cons in Hs as [->|Hs]; eauto.
Qed.

Lemma descending_head st t :
  descending st → head st = Some t → t ∈ st ∧ ∀ s, s ∈ st → s ≤ t.
Proof.
  destruct st as [|t' st]; [done|]. intros [Hlt _] [= ->]. split; [left|].
  intros s [->|Hs]%elem_of_cons; [done|]. apply Hlt in Hs. lia.
Qed.

Lemma open_node_eq here nd b :
  open_node here nd b
  = mkBuilder (<[here := opened here nd (bstack b)]> (bnodes b))
      (if decide (kind nd = StartNode) then here :: bstack b else bstack b)
      (bdowns b) (bdownCount b).
Proof.
  unfold open_node, opened. destruct (bstack b); simpl; by destruct (decide _).
Qed.

(** ** The loop that fills a [down] window *)

Lemma collect_downs_spec ns np p stack count :
  ns !! p = Some np →
  ∀ i off len ds,
    p < i → i + count ≤ length ns →
    off + len + length (filter (λ j, child_of ns p j) (seq i count)) ≤ length ds →
    collect_downs p i count
      (mkBuilder (<[p := set_down (DownPool off len) np]> ns) stack ds (off + len))
    = Ret (mkBuilder
             (<[p := set_down (DownPool off
                                 (len + length (filter (λ j, child_of ns p j) (seq i count))))
                       np]> ns)
             stack
             (take (off + len) ds
                ++ (Some <$> filter (λ j, child_of ns p j) (seq i count))
                ++ drop (off + len + length (filter (λ j, child_of ns p j) (seq i count))) ds)
             (off + len + length (filter (λ j, child_of ns p j) (seq i count)))).
Proof.
  intros Hp. induction count as [|count IH]; intros i off len ds Hpi Hlen Hds.
  - simpl. rewrite !Nat.add_0_r. by rewrite take_drop.
  - assert (Hp' : p < length ns) by (by eapply lookup_lt_Some).
    destruct (ns !! i) as [ni|] eqn:Hi; last first.
    { apply lookup_ge_None in Hi. lia. }
    assert (Hc : child_of ns p i = bool_decide (up ni = Some p) && eligible (kind ni)).
    { unfold child_of. by rewrite Hi. }
    cbn [seq] in *. rewrite filter_cons in *. cbn [collect_downs bnodes].
    rewrite list_lookup_insert_ne, Hi by lia.
    rewrite list_lookup_insert_eq by done.
    destruct (decide (child_of ns p i)) as [Hch|Hch].
    + apply Is_true_eq_true in Hch. rewrite Hch in Hc. symmetry in Hc.
      apply andb_true_iff in Hc as [Hup He]. apply bool_decide_eq_true in Hup.
      rewrite decide_True by done.
      cbn [length] in Hds.
      assert (Hstep :
        collect_downs p (S i) count
          (mkBuilder
             (<[p := set_down (DownPool off (S len)) (set_down (DownPool off len) np)]>
                (<[p := set_down (DownPool off len) np]> ns))
             stack (<[off + len := Some i]> ds) (S (bdownCount
               (mkBuilder (<[p := set_down (DownPool off len) np]> ns) stack ds (off + len)))))
        = Ret (mkBuilder
            (<[p := set_down (DownPool off
                  (len + length (i :: filter (λ j, child_of ns p j) (seq (S i) count)))) np]> ns)
            stack
            (take (off + len) ds
               ++ (Some <$> i :: filter (λ j, child_of ns p j) (seq (S i) count))
               ++ drop (off + len
                        + length (i :: filter (λ j, child_of ns p j) (seq (S i) count))) ds)
            (off + len + length (i :: filter (λ j, child_of ns p j) (seq (S i) count))))).
      { rewrite list_insert_insert_eq, set_down_set_down. cbn [bdownCount length].
        replace (S (off + len)) with (off + S len) by lia.
        rewrite IH; [|lia|lia|rewrite length_insert; lia].
        replace (off + S len) with (S (off + len)) by lia.
        rewrite fmap_cons.
        rewrite pool_write by (by rewrite ?length_fmap; lia).
        rewrite Nat.add_succ_comm. by rewrite (Nat.add_succ_r (off + len)). }
      unfold append_down. cbn [bdowns bstack bdownCount bnodes] in *.
      change (down (set_down (DownPool off len) np)) with (DownPool off len). cbv iota.
      rewrite decide_True by lia.
      destruct (kind ni); try discriminate He; exact Hstep.
    + assert (Hch' : child_of ns p i = false).
      { destruct (child_of ns p i); [by destruct Hch|done]. }
      rewrite Hch' in Hc. symmetry in Hc. apply andb_false_iff in Hc as [Hup|He].
      * apply bool_decide_eq_false in Hup. rewrite decide_False by done. apply IH; [lia|lia|done].
      * destruct (decide (up ni = Some p)); [|apply IH; [lia|lia|done]].
        destruct (kind ni); try discriminate He; (apply IH; [lia|lia|done]).
Qed.

(** ** The invariant of the pass *)

Section linking.

Variable ns0 : list Node.
Hypothesis ns0_fresh : Forall fresh ns0.

(** The state of the pass when the entries below [k] are done. *)
Record Inv (k : nat) (b : Builder) : Prop := mkInv {
  inv_len : length (bnodes b) = length ns0;
  inv_dlen : length (bdowns b) = length ns0;
  inv_static : ∀ i n, bnodes b !! i = Some n → ∃ n0, ns0 !! i = Some n0 ∧ same_static n n0;
  inv_later : ∀ i n, bnodes b !! i = Some n → k ≤ i → fresh n;
  inv_dead : ∀ i n, bnodes b !! i = Some n → live (kind n) = false → fresh n;
  inv_live : ∀ i n, bnodes b !! i = Some n → i < k → live (kind n) = true →
    nodes n = SharedNodes ∧ pos n = i ∧ (kind n ≠ StartNode → end_ n = i + 1);
  inv_up : ∀ i n p, bnodes b !! i = Some n → up n = Some p →
    p < i ∧ i < k ∧ live (kind n) = true ∧ ∃ np, bnodes b !! p = Some np ∧ kind np = StartNode;
  inv_sorted : descending (bstack b);
  inv_stack_lt : ∀ s, s ∈ bstack b → s < k;
  inv_chain : chain (bnodes b) (bstack b);
  inv_closed : ∀ i n, bnodes b !! i = Some n → i < k → live (kind n) = true →
    i ∉ bstack b → i < end_ n ∧ end_ n ≤ k;
  inv_window : ∀ i n, bnodes b !! i = Some n → i < k → kind n = StartNode →
    i ∉ bstack b →
    ∃ off len, down n = DownPool off len ∧ off + len ≤ bdownCount b ∧
               take len (drop off (bdowns b)) = Some <$> kids (bnodes b) i;
  inv_parent : ∀ i n p np, bnodes b !! i = Some n → up n = Some p →
    bnodes b !! p = Some np → p ∉ bstack b → (i ∉ bstack b) ∧ end_ n ≤ end_ np;
  inv_siblings : ∀ i j ni nj p, bnodes b !! i = Some ni → bnodes b !! j = Some nj →
    i < j → up ni = Some p → up nj = Some p → (i ∉ bstack b) ∧ end_ ni ≤ j;
  inv_pool : ∃ L, take (bdownCount b) (bdowns b) = Some <$> L ∧
    length L = bdownCount b ∧ NoDup L ∧
    ∀ j, j ∈ L → j < k ∧ ∃ nj q, bnodes b !! j = Some nj ∧ up nj = Some q ∧ q ∉ bstack b
}.

Lemma Inv_init :
  Inv 0 (mkBuilder ns0 [] (replicate (length ns0) None) 0).
Proof.
  assert (Hf : ∀ i n, ns0 !! i = Some n → fresh n).
  { intros i n Hi. by eapply (Forall_lookup_1 _ _ _ _ ns0_fresh). }
  split; simpl; try done; try (intros; lia).
  - by rewrite length_replicate.
  - intros i n Hi. by exists n.
  - intros i n Hi _. by eapply Hf.
  - intros i n Hi _. by eapply Hf.
  - intros i n p Hi Hu. destruct (Hf _ _ Hi) as (_ & _ & _ & Hup & _). congruence.
  - intros s Hs. by apply elem_of_nil in Hs.
  - intros i n p np Hi Hu. destruct (Hf _ _ Hi) as (_ & _ & _ & Hup & _). congruence.
  - intros i j ni nj p Hi _ _ Hu. destruct (Hf _ _ Hi) as (_ & _ & _ & Hup & _). congruence.
  - exists []. split; [done|]. split; [done|]. split; [apply NoDup_nil_2|].
    intros j Hj. by apply elem_of_nil in Hj.
Qed.

Lemma Inv_open k b nd :
  Inv k b → bnodes b !! k = Some nd → live (kind nd) = true →
  Inv (S k) (open_node k nd b).
Proof.
  intros HI Hk Hlive. rewrite open_node_eq.
  destruct HI as [Hlen Hdlen Hstat Hlater Hdead Hlv Hup Hsort Hslt Hchain Hclosed Hwin
                    Hpar Hsib Hpool].
  destruct (Hlater k nd Hk) as (Hfn & Hfp & Hfe & Hfu & Hfd); [lia|].
  assert (Hklen : k < length (bnodes b)) by (by eapply lookup_lt_Some).
  set (nd' := opened k nd (bstack b)).
  set (st' := if decide (kind nd = StartNode) then k :: bstack b else bstack b).
  assert (Hst1 : ∀ s, s ∈ st' → s = k ∨ s ∈ bstack b).
  { intros s. unfold st'. destruct (decide _); [|by right]. by intros ?%elem_of_cons. }
  assert (Hst2 : ∀ s, s ∈ bstack b → s ∈ st').
  { intros s Hs. unfold st'. destruct (decide _); [by right|done]. }
  assert (Hstk : k ∈ st' → kind nd = StartNode).
  { intros Hin. unfold st' in Hin. destruct (decide (kind nd = StartNode)); [done|].
    apply Hslt in Hin. lia. }
  assert (Hkst : kind nd = StartNode → k ∈ st').
  { intros Hs. unfold st'. rewrite decide_True by done. left. }
  assert (Hupn : up nd' = head (bstack b)).
  { unfold nd', opened. simpl. by destruct (bstack b). }
  assert (Hne : ∀ i n, i ≠ k → <[k:=nd']> (bnodes b) !! i = Some n → bnodes b !! i = Some n).
  { intros i n Hi. by rewrite list_lookup_insert_ne. }
  assert (Heq : ∀ n, <[k:=nd']> (bnodes b) !! k = Some n → n = nd').
  { intros n. rewrite list_lookup_insert_eq by done. congruence. }
  assert (Hold : ∀ i n, i ≠ k → bnodes b !! i = Some n → <[k:=nd']> (bnodes b) !! i = Some n).
  { intros i n Hi. by rewrite list_lookup_insert_ne. }
  split; cbn [bnodes bstack bdowns bdownCount]; fold nd' st'.
  - by rewrite length_insert.
  - done.
  - intros i n Hi. destruct (decide (i = k)) as [->|Hik].
    + apply Heq in Hi as ->. destruct (Hstat k nd Hk) as (n0 & ? & ?). by exists n0.
    + eauto.
  - intros i n Hi Hle. apply (Hlater i); [apply Hne; [lia|done]|lia].
  - intros i n Hi Hd. destruct (decide (i = k)) as [->|Hik].
    + apply Heq in Hi as ->. simpl in Hd. congruence.
    + eauto.
  - intros i n Hi Hlt Hl. destruct (decide (i = k)) as [->|Hik].
    + apply Heq in Hi as ->. simpl. split_and!; [done..|]. intros Hns. by rewrite decide_False.
    + apply Hlv; [eauto|lia|done].
  - intros i n p Hi Hu. destruct (decide (i = k)) as [->|Hik].
    + apply Heq in Hi as ->. rewrite Hupn in Hu.
      destruct (descending_head _ _ Hsort Hu) as [Hp _].
      pose proof (Hslt _ Hp). destruct (chain_elem _ _ _ Hchain Hp) as (np & Hnp & Hkp).
      split_and!; [lia|lia|done|]. exists np. split; [apply Hold; [lia|done]|done].
    + destruct (Hup i n p) as (? & ? & ? & np & Hnp & Hkp); [eauto|done|].
      split_and!; [lia|lia|done|]. exists np. split; [apply Hold; [lia|done]|done].
  - unfold st'. destruct (decide _); [|done]. split; [|done]. intros s Hs. by apply Hslt.
  - intros s [->|Hs%Hslt]%Hst1; lia.
  - assert (Hc : chain (<[k:=nd']> (bnodes b)) (bstack b)).
    { eapply chain_ext; [|done]. intros s n Hs Hn. exists n. split; [|done].
      apply Hold; [|done]. apply Hslt in Hs. lia. }
    unfold st'. destruct (decide _) as [Hs|]; [|done]. split; [|done].
    exists nd'. split; [by apply list_lookup_insert_eq|]. by split.
  - intros i n Hi Hlt Hl Hnin. destruct (decide (i = k)) as [->|Hik].
    + apply Heq in Hi as ->. simpl.
      rewrite decide_False by (intros ?; by apply Hnin, Hkst). lia.
    + destruct (Hclosed i n); [eauto|lia|done|by intros ?%Hst2|lia].
  - intros i n Hi Hlt Hs Hnin. destruct (decide (i = k)) as [->|Hik].
    + apply Heq in Hi as ->. destruct Hnin. by apply Hkst.
    + destruct (Hwin i n) as (off & len & ? & ? & Hk'); [eauto|lia|done|by intros ?%Hst2|].
      exists off, len. split_and!; [done..|]. rewrite Hk'. f_equal. symmetry.
      apply kids_ext; [by rewrite length_insert|]. intros j.
      apply child_of_insert_gen; [done|]. intros <-. unfold child_of. rewrite Hk, Hfu.
      rewrite Hupn. rewrite !bool_decide_eq_false_2; [done| |done].
      intros Hh. apply Hnin, Hst2. by destruct (descending_head _ _ Hsort Hh).
  - intros i n p np Hi Hu Hp Hnin. destruct (decide (i = k)) as [->|Hik].
    + apply Heq in Hi as ->. rewrite Hupn in Hu. destruct Hnin.
      apply Hst2. by destruct (descending_head _ _ Hsort Hu).
    + apply Hne in Hi; [|done]. destruct (Hup i n p Hi Hu) as (? & ? & _).
      apply Hne in Hp; [|lia].
      destruct (Hpar i n p np) as [? ?]; [done..|by intros ?%Hst2|].
      split; [|done]. intros [?|?]%Hst1; done.
  - intros i j ni nj p Hi Hj Hij Hui Huj. destruct (decide (j = k)) as [->|Hjk].
    + apply Heq in Hj as ->. rewrite Hupn in Huj.
      destruct (descending_head _ _ Hsort Huj) as [Hp Hmax].
      apply Hne in Hi; [|lia]. destruct (Hup i ni p Hi Hui) as (? & ? & ? & _).
      assert (i ∉ bstack b) by (intros ?%Hmax; lia).
      destruct (Hclosed i ni); [done..|].
      split; [|lia]. intros [?|?]%Hst1; [lia|done].
    + apply Hne in Hj; [|done]. destruct (Hup j nj p Hj Huj) as (? & ? & _).
      apply Hne in Hi; [|lia]. destruct (Hsib i j ni nj p) as [? ?]; [done..|].
      split; [|done]. intros [?|?]%Hst1; [lia|done].
  - destruct Hpool as (L & HL & HlenL & Hnd & HLm). exists L. split_and!; [done..|].
    intros j Hj. destruct (HLm j Hj) as (? & nj & q & Hnj & Huq & Hq).
    split; [lia|]. exists nj, q. split; [apply Hold; [lia|done]|]. split; [done|].
    destruct (Hup j nj q Hnj Huq) as (? & ? & _). intros [?|?]%Hst1; [lia|done].
Qed.

Lemma Inv_skip k b nd :
  Inv k b → bnodes b !! k = Some nd → live (kind nd) = false → Inv (S k) b.
Proof.
  intros [Hlen Hdlen Hstat Hlater Hdead Hlv Hup Hsort Hslt Hchain Hclosed Hwin
            Hpar Hsib Hpool] Hk Hd.
  assert (Hkk : ∀ i n, bnodes b !! i = Some n → i < S k → live (kind n) = true → i < k).
  { intros i n Hi Hlt Hl. destruct (decide (i = k)) as [->|]; [|lia]. congruence. }
  split; try done.
  - intros i n Hi Hle. apply (Hlater i); [done|lia].
  - intros i n Hi Hlt Hl. apply Hlv; eauto.
  - intros i n p Hi Hu. destruct (Hup i n p Hi Hu) as (? & ? & ? & ?). split_and!; [lia..|done|done].
  - intros s Hs%Hslt. lia.
  - intros i n Hi Hlt Hl Hnin. destruct (Hclosed i n) as [? ?]; eauto; lia.
  - intros i n Hi Hlt Hs Hnin. apply Hwin; [done| |done..]. apply (Hkk i n); [done..|].
    by rewrite Hs.
  - destruct Hpool as (L & ? & ? & ? & HLm). exists L. split_and!; [done..|].
    intros j Hj. destruct (HLm j Hj) as [? ?]. split; [lia|done].
Qed.

Lemma closed_children_spec ns p here j :
  j ∈ closed_children ns p here ↔
  p < j < here ∧ ∃ nj, ns !! j = Some nj ∧ up nj = Some p ∧ eligible (kind nj) = true.
Proof.
  unfold closed_children. rewrite list_elem_of_filter, elem_of_seq. unfold child_of.
  split.
  - intros [Hc ?]. split; [lia|]. destruct (ns !! j) as [nj|]; [|done].
    apply Is_true_eq_true, andb_true_iff in Hc as [Hu%bool_decide_eq_true ?]. eauto.
  - intros [? (nj & -> & Hu & He)]. split; [|lia].
    rewrite He, bool_decide_eq_true_2 by done. done.
Qed.

Lemma pool_room k b p st' :
  Inv k b → bstack b = p :: st' → k < length ns0 →
  bdownCount b + length (closed_children (bnodes b) p k) ≤ k ∧
  ∃ L, take (bdownCount b) (bdowns b) = Some <$> L ∧ length L = bdownCount b ∧
       NoDup (L ++ closed_children (bnodes b) p k) ∧
       ∀ j, j ∈ L → j < k ∧ ∃ nj q, bnodes b !! j = Some nj ∧ up nj = Some q ∧ q ∉ bstack b.
Proof.
  intros HI Hst Hk. destruct (inv_pool _ _ HI) as (L & HL & HlenL & Hnd & HLm).
  assert (Hnd' : NoDup (L ++ closed_children (bnodes b) p k)).
  { apply NoDup_app. split; [done|]. split; [|apply NoDup_filter, NoDup_seq].
    intros j Hj [_ (nj & Hnj & Hu & _)]%closed_children_spec.
    destruct (HLm j Hj) as (_ & nj' & q & Hnj' & Hq & Hnin).
    apply Hnin. rewrite Hst. assert (q = p) as -> by congruence. left. }
  split; [|by exists L].
  rewrite <- HlenL, <- length_app.
  transitivity (length (seq 0 k)); [|by rewrite length_seq].
  apply submseteq_length, NoDup_submseteq; [done|].
  intros j [Hj|Hj]%elem_of_app; apply elem_of_seq.
  - destruct (HLm j Hj). lia.
  - apply closed_children_spec in Hj. lia.
Qed.

Lemma close_node_spec k b p st' np :
  Inv k b → bstack b = p :: st' → bnodes b !! p = Some np → k < length ns0 →
  close_node k b = Ret (closed k b p np, match st' with [] => Some p | _ => None end).
Proof.
  intros HI Hst Hp Hk. destruct (pool_room k b p st' HI Hst Hk) as [Hroom _].
  assert (Hpk : p < k) by (apply (inv_stack_lt _ _ HI); rewrite Hst; left).
  assert (Hpos : pos np = p).
  { eapply (inv_live _ _ HI); [done..|].
    destruct (chain_elem _ _ p (inv_chain _ _ HI)) as (n & Hn & Hkn); [rewrite Hst; left|].
    assert (n = np) as -> by congruence. by rewrite Hkn. }
  unfold close_node. rewrite Hst, Hp.
  rewrite decide_True by (rewrite (inv_dlen _ _ HI); lia).
  cbn [pos end_ set_down set_end]. rewrite Hpos.
  pose proof (collect_downs_spec (<[p := set_end k np]> (bnodes b)) (set_end k np) p st'
                (k - (p + 1))) as Hc.
  assert (Hplen : p < length (bnodes b)) by (by eapply lookup_lt_Some).
  specialize (Hc (list_lookup_insert_eq _ _ _ Hplen) (p + 1) (bdownCount b) 0 (bdowns b)).
  rewrite list_insert_insert_eq, !Nat.add_0_r in Hc. simpl in Hc.
  assert (Hfil : filter (λ j, child_of (<[p:=set_end k np]> (bnodes b)) p j)
                   (seq (p + 1) (k - (p + 1)))
                 = closed_children (bnodes b) p k).
  { apply list_filter_iff. intros j. by erewrite child_of_insert. }
  rewrite Hfil in Hc. rewrite list_insert_insert_eq in Hc.
  rewrite Hc.
  - unfold closed. by rewrite Hst.
  - lia.
  - rewrite length_insert, (inv_len _ _ HI). lia.
  - rewrite (inv_dlen _ _ HI). lia.
Qed.

Lemma Inv_close k b nd p st' np :
  Inv k b → bnodes b !! k = Some nd → kind nd = EndNode →
  bstack b = p :: st' → bnodes b !! p = Some np →
  Inv (S k) (closed k b p np).
Proof.
  intros HI Hk Hend Hst Hp.
  assert (Hklen : k < length ns0).
  { rewrite <- (inv_len _ _ HI). by eapply lookup_lt_Some. }
  destruct (pool_room k b p st' HI Hst Hklen) as (Hroom & L & HL & HlenL & HndL & HLm).
  destruct HI as [Hlen Hdlen Hstat Hlater Hdead Hlv Hup Hsort Hslt Hchain Hclosed Hwin
                    Hpar Hsib _].
  rewrite Hst in *. destruct Hsort as [Hbelow Hsort]. destruct Hchain as [Hcp Hchain].
  assert (Hpk : p < k) by (apply Hslt; left).
  assert (Hpst : p ∉ st') by (intros ?%Hbelow; lia).
  assert (Hsub : ∀ s, s ∈ st' → s ∈ p :: st') by (intros s ?; by right).
  assert (Hkp : kind np = StartNode).
  { destruct Hcp as (n & Hn & ? & _). congruence. }
  assert (Hplen : p < length (bnodes b)) by (by eapply lookup_lt_Some).
  unfold closed. rewrite Hst. cbn [tail].
  set (C := closed_children (bnodes b) p k) in *.
  set (np' := set_down (DownPool (bdownCount b) (length C)) (set_end k np)).
  set (ns' := <[p := np']> (bnodes b)).
  set (ds' := take (bdownCount b) (bdowns b) ++ (Some <$> C)
                ++ drop (bdownCount b + length C) (bdowns b)).
  assert (Hne : ∀ i n, i ≠ p → ns' !! i = Some n → bnodes b !! i = Some n).
  { intros i n Hi. unfold ns'. by rewrite list_lookup_insert_ne. }
  assert (Heq : ∀ n, ns' !! p = Some n → n = np').
  { intros n. unfold ns'. rewrite list_lookup_insert_eq by done. congruence. }
  assert (Hnew : ∀ i n, i ≠ p → bnodes b !! i = Some n → ns' !! i = Some n).
  { intros i n Hi. unfold ns'. by rewrite list_lookup_insert_ne. }
  assert (Hnewp : ns' !! p = Some np').
  { unfold ns'. by apply list_lookup_insert_eq. }
  assert (Hold : ∀ i n, ns' !! i = Some n →
            ∃ m, bnodes b !! i = Some m ∧ up m = up n ∧ kind m = kind n ∧ (i ≠ p → m = n)).
  { intros i n Hi. destruct (decide (i = p)) as [->|Hip].
    - apply Heq in Hi as ->. by exists np.
    - exists n. split; [by apply Hne|done]. }
  assert (Hkids : ∀ q, kids ns' q = kids (bnodes b) q).
  { intros q. apply kids_ext; [apply length_insert|]. intros j.
    by apply (child_of_insert _ _ _ _ np). }
  assert (Hds : take (bdownCount b) ds' = take (bdownCount b) (bdowns b)).
  { unfold ds'. rewrite take_app_length'; [done|]. rewrite length_take_le; lia. }
  split; cbn [bnodes bstack bdowns bdownCount].
  - unfold ns'. by rewrite length_insert.
  - unfold ds'. rewrite !length_app, length_take_le, length_fmap, length_drop by lia. lia.
  - intros i n Hi. destruct (decide (i = p)) as [->|Hip].
    + apply Heq in Hi as ->. destruct (Hstat p np Hp) as (n0 & ? & ?). by exists n0.
    + eauto.
  - intros i n Hi Hle. apply (Hlater i); [apply Hne; [lia|done]|lia].
  - intros i n Hi Hd. destruct (decide (i = p)) as [->|Hip].
    + apply Heq in Hi as ->. simpl in Hd. rewrite Hkp in Hd. done.
    + eauto.
  - intros i n Hi Hlt Hl. destruct (decide (i = p)) as [->|Hip].
    + apply Heq in Hi as ->. simpl. destruct (Hlv p np) as (? & ? & _); [done|lia| |].
      { by rewrite Hkp. }
      split_and!; [done..|]. intros Hns. by destruct Hns.
    + apply Hne in Hi; [|done]. apply Hlv; [done| |done].
      destruct (decide (i = k)) as [->|]; [|lia].
      assert (n = nd) as -> by congruence. by rewrite Hend in Hl.
  - intros i n q Hi Hu. destruct (Hold i n Hi) as (m & Hm & Hum & Hkm & _).
    rewrite Hu in Hum. destruct (Hup i m q Hm Hum) as (? & ? & ? & nq & Hnq & Hkq).
    split_and!; [lia|lia|congruence|].
    destruct (decide (q = p)) as [->|Hqp]; [by exists np'|].
    exists nq. split; [by apply Hnew|done].
  - done.
  - intros s Hs. apply Hsub, Hslt in Hs. lia.
  - eapply chain_ext; [|done]. intros s n Hs Hn. exists n. split; [|done].
    apply Hnew; [|done]. intros ->. done.
  - intros i n Hi Hlt Hl Hnin. destruct (decide (i = p)) as [->|Hip].
    + apply Heq in Hi as ->. simpl. lia.
    + apply Hne in Hi; [|done].
      assert (i < k).
      { destruct (decide (i = k)) as [->|]; [|lia].
        assert (n = nd) as -> by congruence. by rewrite Hend in Hl. }
      destruct (Hclosed i n) as [? ?]; [done..| |lia].
      intros [?|?]%elem_of_cons; done.
  - intros i n Hi Hlt Hs Hnin. destruct (decide (i = p)) as [->|Hip].
    + apply Heq in Hi as ->. exists (bdownCount b), (length C). split_and!; [done..|].
      unfold ds'. rewrite drop_app_length' by (rewrite length_take_le; lia).
      rewrite take_app_length' by (by rewrite length_fmap).
      f_equal. rewrite Hkids. unfold kids, C, closed_children.
      symmetry. apply filter_seq_window; [lia|].
      intros j Hj. unfold child_of in Hj.
      destruct (bnodes b !! j) as [nj|] eqn:Hnj; [|done].
      apply Is_true_eq_true, andb_true_iff in Hj as [Hu%bool_decide_eq_true _].
      destruct (Hup j nj p Hnj Hu) as (? & ? & _). lia.
    + apply Hne in Hi; [|done].
      assert (i < k).
      { destruct (decide (i = k)) as [->|]; [|lia].
        assert (n = nd) as -> by congruence. congruence. }
      destruct (Hwin i n) as (off & len & ? & ? & Hw); [done..| |].
      { intros [?|?]%elem_of_cons; done. }
      exists off, len. split_and!; [done|lia|].
      rewrite Hkids, <- Hw. by apply (window_agree _ _ (bdownCount b)).
  - intros i n q nq Hi Hu Hq Hnin.
    destruct (Hold i n Hi) as (m & Hm & Hum & Hkm & Hmn).
    rewrite Hu in Hum. destruct (Hup i m q Hm Hum) as (? & ? & ? & _).
    destruct (decide (q = p)) as [->|Hqp].
    + apply Heq in Hq as ->. simpl.
      assert (Hip : i ∉ p :: st').
      { intros [?|?%Hbelow]%elem_of_cons; lia. }
      rewrite <- (Hmn ltac:(lia)).
      destruct (Hclosed i m) as [? ?]; [done..|]. split; [|lia].
      intros ?. by apply Hip, Hsub.
    + apply Hne in Hq; [|done].
      destruct (Hpar i m q nq) as [Hi' ?]; [done..| |].
      { intros [?|?]%elem_of_cons; done. }
      rewrite <- Hmn by (intros ->; apply Hi'; left).
      split; [|done]. intros ?. by apply Hi', Hsub.
  - intros i j ni nj q Hi Hj Hij Hui Huj.
    destruct (Hold i ni Hi) as (mi & Hmi & Humi & _ & Hmni).
    destruct (Hold j nj Hj) as (mj & Hmj & Humj & _).
    rewrite Hui in Humi. rewrite Huj in Humj.
    destruct (Hsib i j mi mj q) as [Hi' ?]; [done..|].
    rewrite <- Hmni by (intros ->; apply Hi'; left).
    split; [|done]. intros ?. by apply Hi', Hsub.
  - exists (L ++ C). split_and!.
    + unfold ds'. rewrite app_assoc, take_app_length'.
      * by rewrite fmap_app, HL.
      * rewrite length_app, length_take_le, length_fmap; lia.
    + rewrite length_app. lia.
    + done.
    + intros j [Hj|Hj]%elem_of_app.
      * destruct (HLm j Hj) as (? & nj & q & Hnj & Hq & Hnin). split; [lia|].
        destruct (decide (j = p)) as [->|Hjp].
        -- exists np', q. split; [done|]. split; [|by intros ?%Hsub].
           simpl. congruence.
        -- exists nj, q. split; [by apply Hnew|]. split; [done|by intros ?%Hsub].
      * apply closed_children_spec in Hj as [? (nj & Hnj & Hu & _)]. split; [lia|].
        exists nj, p. split; [apply Hnew; [lia|done]|done].
Qed.

(** Every entry that is done, the first apart, has a parent. *)
Definition Parented (k : nat) (b : Builder) : Prop :=
  ∀ i n, bnodes b !! i = Some n → 0 < i → i < k → live (kind n) = true → is_Some (up n).

Lemma Parented_open k b nd :
  Parented k b → bnodes b !! k = Some nd → (0 < k → bstack b ≠ []) →
  Parented (S k) (open_node k nd b).
Proof.
  intros HP Hk Hst i n Hi Hpos Hlt Hl. rewrite open_node_eq in Hi.
  assert (Hi' : <[k:=opened k nd (bstack b)]> (bnodes b) !! i = Some n).
  { by destruct (decide (kind nd = StartNode)). }
  clear Hi. destruct (decide (i = k)) as [->|Hik].
  - rewrite list_lookup_insert_eq in Hi' by (by eapply lookup_lt_Some).
    injection Hi' as <-. simpl. specialize (Hst Hpos). by destruct (bstack b).
  - rewrite list_lookup_insert_ne in Hi' by done. apply (HP i n); [done..|lia|done].
Qed.

Lemma Parented_skip k b nd :
  Parented k b → bnodes b !! k = Some nd → live (kind nd) = false → Parented (S k) b.
Proof.
  intros HP Hk Hd i n Hi Hpos Hlt Hl. apply (HP i n); [done..| |done].
  destruct (decide (i = k)) as [->|]; [congruence|lia].
Qed.

Lemma Parented_close k b nd p np :
  Parented k b → bnodes b !! k = Some nd → kind nd = EndNode →
  bnodes b !! p = Some np → Parented (S k) (closed k b p np).
Proof.
  intros HP Hk Hend Hp i n Hi Hpos Hlt Hl. unfold closed in Hi. cbn [bnodes] in Hi.
  destruct (decide (i = p)) as [->|Hip].
  - rewrite list_lookup_insert_eq in Hi by (by eapply lookup_lt_Some).
    injection Hi as <-. apply (HP p np); [done..| |done].
    destruct (decide (p = k)) as [->|]; [|lia].
    assert (np = nd) as -> by congruence. simpl in Hl. by rewrite Hend in Hl.
  - rewrite list_lookup_insert_ne in Hi by done. apply (HP i n); [done..| |done].
    destruct (decide (i = k)) as [->|]; [|lia].
    assert (n = nd) as -> by congruence. by rewrite Hend in Hl.
Qed.

Hypothesis ns0_root : ns0 !! 0 = Some rootNode.

(** The pass has returned at the [EndNode] of index [e]. *)
Definition Finished (e : nat) (t : Tree) : Prop :=
  ∃ b, Inv (S e) b ∧ bstack b = [] ∧ t = mkTree (bnodes b) (bdowns b) ∧
       e < length ns0 ∧ (∃ n0, bnodes b !! 0 = Some n0 ∧ end_ n0 = e) ∧
       Parented (S e) b ∧ ∃ ne, bnodes b !! e = Some ne ∧ kind ne = EndNode.

Lemma link_loop_spec count : ∀ k b,
  Inv k b → Parented k b → (0 < k → 0 ∈ bstack b) → k + count = length ns0 →
  match closing_index (length (bstack b)) k (kind <$> drop k ns0) with
  | Some e => ∃ t, link_loop k count b = Ret (0, t) ∧ Finished e t
  | None => link_loop k count b = Err EOF
  end.
Proof.
  induction count as [|count IH]; intros k b HI HP Hrun Hk.
  { rewrite drop_ge by lia. done. }
  destruct (bnodes b !! k) as [nd|] eqn:Hnd; last first.
  { apply lookup_ge_None in Hnd. rewrite (inv_len _ _ HI) in Hnd. lia. }
  destruct (inv_static _ _ HI k nd Hnd) as (n0 & Hn0 & Hkind & _).
  rewrite (drop_S _ n0 k Hn0), fmap_cons, <- Hkind.
  assert (Hk0 : k = 0 → kind nd = StartNode).
  { intros ->. rewrite Hkind. rewrite ns0_root in Hn0. by injection Hn0 as <-. }
  cbn [link_loop closing_index]. rewrite Hnd.
  assert (Hopen : live (kind nd) = true →
    match closing_index (length (bstack (open_node k nd b))) (S k)
            (kind <$> drop (S k) ns0) with
    | Some e => ∃ t, link_loop (S k) count (open_node k nd b) = Ret (0, t) ∧ Finished e t
    | None => link_loop (S k) count (open_node k nd b) = Err EOF
    end).
  { intros Hl. apply IH; [by apply Inv_open| | |lia].
    { apply Parented_open; [done..|]. intros Hpos Hnil. specialize (Hrun Hpos).
      rewrite Hnil in Hrun. by apply elem_of_nil in Hrun. }
    intros _. rewrite open_node_eq. cbn [bstack]. destruct (decide (kind nd = StartNode)) as [Hs|Hs].
    - destruct (decide (k = 0)) as [->|]; [left|]. right. apply Hrun. lia.
    - apply Hrun. destruct (decide (k = 0)) as [?%Hk0|]; [congruence|lia]. }
  assert (Hst : ∀ Hl : kind nd ≠ StartNode,
            bstack (open_node k nd b) = bstack b).
  { intros Hl. rewrite open_node_eq. cbn [bstack]. by rewrite decide_False. }
  destruct (kind nd) eqn:Hkd.
  - (* AnyNode *)
    apply IH; [by eapply Inv_skip; [done..|by rewrite Hkd]| | |lia].
    { eapply Parented_skip; [done..|by rewrite Hkd]. }
    intros _. apply Hrun. destruct (decide (k = 0)) as [?%Hk0|]; [congruence|lia].
  - (* StartNode *)
    specialize (Hopen eq_refl). rewrite open_node_eq in Hopen. cbn [bstack] in Hopen.
    rewrite Hkd in Hopen. rewrite decide_True in Hopen by done. cbn [length] in Hopen.
    rewrite open_node_eq. rewrite Hkd, decide_True by done. exact Hopen.
  - (* EndNode *)
    assert (Hkpos : 0 < k).
    { destruct (decide (k = 0)) as [?%Hk0|]; [congruence|lia]. }
    destruct (bstack b) as [|p st'] eqn:Hstack.
    { specialize (Hrun Hkpos). by apply elem_of_nil in Hrun. }
    destruct (chain_elem _ _ p (inv_chain _ _ HI)) as (np & Hnp & _);
      [rewrite Hstack; left|].
    rewrite (close_node_spec k b p st' np) by (done || lia).
    cbn [mbind outcome_mbind outcome_bind fst snd].
    assert (HI' : Inv (S k) (closed k b p np)).
    { eapply Inv_close; [done..|by rewrite Hkd|done|done]. }
    assert (HP' : Parented (S k) (closed k b p np)).
    { eapply Parented_close; [done..|by rewrite Hkd|done]. }
    destruct st' as [|p' st'']; cbn [length].
    + assert (p = 0) as ->.
      { specialize (Hrun Hkpos). apply elem_of_cons in Hrun as [?|?%elem_of_nil]; done. }
      eexists. split; [done|]. exists (closed k b 0 np).
      split_and!; [done| |done|lia| |done|].
      * unfold closed. cbn [bstack]. by rewrite Hstack.
      * eexists. split; [|shelve]. unfold closed. cbn [bnodes].
        apply list_lookup_insert_eq. by eapply lookup_lt_Some.
        Unshelve. done.
      * exists nd. split; [|by rewrite Hkd]. unfold closed. cbn [bnodes].
        rewrite list_lookup_insert_ne by lia. done.
    + assert (Hb : bstack (closed k b p np) = p' :: st'').
      { unfold closed. cbn [bstack]. by rewrite Hstack. }
      specialize (IH (S k) (closed k b p np) HI' HP'). rewrite Hb in IH. cbn [length] in IH.
      apply IH; [|lia]. intros _. specialize (Hrun Hkpos).
      apply elem_of_cons in Hrun as [Hp0|Hrun]; [|done].
      pose proof (inv_sorted _ _ HI) as Hsorted. rewrite Hstack in Hsorted.
      destruct Hsorted as [Hbelow _]. specialize (Hbelow p' ltac:(left)). lia.
  - specialize (Hopen eq_refl). by rewrite Hst in Hopen.
  - specialize (Hopen eq_refl). by rewrite Hst in Hopen.
  - specialize (Hopen eq_refl). by rewrite Hst in Hopen.
  - specialize (Hopen eq_refl). by rewrite Hst in Hopen.
Qed.

Theorem link_spec :
  match closing_index 0 0 (kind <$> ns0) with
  | Some e => ∃ t, link ns0 = Ret (0, t) ∧ Finished e t
  | None => link ns0 = Err EOF
  end.
Proof.
  pose proof (link_loop_spec (length ns0) 0 _ Inv_init) as H. cbn [bstack length] in H.
  rewrite drop_0 in H. apply H; [|lia|done]. intros i n _ ? ?. lia.
Qed.

End linking.

(** * The two constructors *)

(** ** What the first half of a constructor appends *)

Lemma events_ok_root : events_ok [rootNode].
Proof. split; [done|]. by apply Forall_singleton. Qed.

Lemma events_ok_snoc ns n : events_ok ns → fresh n → events_ok (ns ++ [n]).
Proof.
  intros [H0 Hf] Hn. split.
  - by apply lookup_app_l_Some.
  - apply Forall_app. split; [done|]. by apply Forall_singleton.
Qed.

Lemma append_text_ok k n t st : events_ok st.1 → events_ok (append_text k n t st).1.
Proof. intros H. by apply events_ok_snoc. Qed.

Lemma append_attrs_ok {A} (f : A → Node) (attrs : list A) : ∀ ns,
  (∀ a, fresh (f a)) → events_ok ns →
  events_ok (foldl (λ nodes a, nodes ++ [f a]) ns attrs).
Proof.
  induction attrs as [|a attrs IH]; intros ns Hf Hns; [done|].
  simpl. apply IH; [done|]. by apply events_ok_snoc.
Qed.

Lemma read_token_ok t st : events_ok st.1 → events_ok (read_token t st).1.
Proof.
  intros H. destruct t; simpl; try done; try by apply append_text_ok.
  - apply (append_attrs_ok (λ a, newNode AttrNode (xml.AttrName a) (xml.Value a) []));
      [done|]. by apply events_ok_snoc.
  - by apply events_ok_snoc.
Qed.

Lemma read_tokens_ok toks final : ∀ st st',
  read_tokens toks final st = Ret st' → events_ok st.1 → events_ok st'.1.
Proof.
  induction toks as [|t toks IH]; intros st st' Hr Hst; simpl in Hr.
  - destruct final; [|done]. by injection Hr as <-.
  - eapply IH; [done|]. by apply read_token_ok.
Qed.

Lemma html_open_ok n st : events_ok st.1 → events_ok (html_open n st).1.
Proof.
  intros H. unfold html_open. destruct (html.Type_ n); try done; try by apply append_text_ok.
  simpl.
  apply (append_attrs_ok
           (λ a, newNode AttrNode (xml.mkName (html.AttrNamespace a) (html.Key a))
                   (html.Val a) [])); [done|].
  by apply events_ok_snoc.
Qed.

Lemma html_climb_ok fuel heap : ∀ n ns r,
  html_climb fuel heap n ns = Ret r → events_ok ns → events_ok r.2.
Proof.
  induction fuel as [|fuel IH]; intros n ns r Hr Hns; destruct n as [p|]; simpl in Hr;
    try done; try (by injection Hr as <-).
  unfold html_deref in Hr. destruct (heap !! p) as [hn|]; [|done]. simpl in Hr.
  assert (Hns' : events_ok (if decide (html.Type_ hn = html.ElementNode)
                            then ns ++ [endNode] else ns)).
  { destruct (decide _); [by apply events_ok_snoc|done]. }
  destruct (html.NextSibling hn).
  - by injection Hr as <-.
  - by eapply IH.
Qed.

Lemma html_walk_ok fuel heap : ∀ n st st',
  html_walk fuel heap n st = Ret st' → events_ok st.1 → events_ok st'.1.
Proof.
  induction fuel as [|fuel IH]; intros n st st' Hr Hst; destruct n as [p|]; simpl in Hr;
    try done; try (by injection Hr as <-).
  unfold html_deref in Hr. destruct (heap !! p) as [hn|]; [|done]. simpl in Hr.
  pose proof (html_open_ok hn st Hst) as Hopen.
  destruct (html.FirstChild hn).
  - by eapply IH.
  - destruct (html_climb fuel heap (Some p) (html_open hn st).1) as [r| | |] eqn:Hc;
      try done.
    simpl in Hr. eapply IH; [done|]. simpl. by eapply html_climb_ok.
Qed.

(** Both constructors end in [link] on such a slice. *)
Lemma constructed_link root t :
  constructed root t → ∃ ns, events_ok ns ∧ link ns = Ret (root, t).
Proof.
  intros [[d Hd]|(fuel & r & Hr)].
  - unfold ParseDecoder in Hd.
    destruct (read_tokens _ _ _) as [st| | |] eqn:Hst; try done. simpl in Hd.
    exists (st.1 ++ [endNode]). split; [|done].
    apply events_ok_snoc; [|done]. eapply read_tokens_ok; [done|apply events_ok_root].
  - unfold ParseHTML in Hr. destruct (html.err r); [done|].
    destruct (html.ns r !! 0) as [n|]; [|done].
    destruct (html_walk _ _ _ _) as [st| | |] eqn:Hst; try done. simpl in Hr.
    exists (st.1 ++ [endNode]). split; [|done].
    apply events_ok_snoc; [|done]. eapply html_walk_ok; [done|apply events_ok_root].
Qed.

Lemma link_finished ns root t :
  events_ok ns → link ns = Ret (root, t) →
  root = 0 ∧ ∃ e, closing_index 0 0 (kind <$> ns) = Some e ∧ Finished ns e t.
Proof.
  intros [H0 Hf] Hl. pose proof (link_spec ns Hf H0) as Hs.
  destruct (closing_index 0 0 (kind <$> ns)) as [e|].
  - destruct Hs as (t' & Hl' & Hfin). rewrite Hl' in Hl. injection Hl as <- <-. eauto.
  - by rewrite Hs in Hl.
Qed.

Lemma constructed_finished root t :
  constructed root t → root = 0 ∧ ∃ ns e, events_ok ns ∧ Finished ns e t.
Proof.
  intros (ns & Hns & Hl)%constructed_link.
  destruct (link_finished ns root t Hns Hl) as (-> & e & _ & Hfin). eauto.
Qed.

(** ** The tokens and the nodes made of them *)

Lemma slice_app_length {A} (l t : list A) :
  slice (l ++ t) (length l) (length l + length t) = t.
Proof.
  unfold slice. rewrite drop_app_length.
  replace (length l + length t - length l) with (length t) by lia. apply firstn_all.
Qed.

Lemma append_attrs_kinds {A} (f : A → Node) (attrs : list A) : ∀ ns,
  (∀ a, kind (f a) = AttrNode) →
  kind <$> foldl (λ nodes a, nodes ++ [f a]) ns attrs
  = (kind <$> ns) ++ replicate (length attrs) AttrNode.
Proof.
  induction attrs as [|a attrs IH]; intros ns Hf; simpl.
  - by rewrite app_nil_r.
  - rewrite IH by done. rewrite fmap_app, <- app_assoc. simpl. by rewrite Hf.
Qed.

Lemma append_attrs_texts {A} (f : A → Node) (attrs : list A) : ∀ ns,
  (∀ a, kind (f a) = AttrNode) →
  filter (λ n, kind n = TextNode) (foldl (λ nodes a, nodes ++ [f a]) ns attrs)
  = filter (λ n, kind n = TextNode) ns.
Proof.
  induction attrs as [|a attrs IH]; intros ns Hf; simpl; [done|].
  rewrite IH by done. rewrite filter_app, filter_cons_False, filter_nil.
  - by rewrite app_nil_r.
  - by rewrite Hf.
Qed.

Lemma read_token_kinds t st :
  kind <$> (read_token t st).1 = (kind <$> st.1) ++ token_kinds t.
Proof.
  destruct t; simpl; rewrite ?fmap_app; try done.
  - rewrite append_attrs_kinds by done. rewrite fmap_app, <- app_assoc. done.
  - by rewrite app_nil_r.
Qed.

Lemma read_token_texts t st :
  concat (text <$> filter (λ n, kind n = TextNode) (read_token t st).1)
  = concat (text <$> filter (λ n, kind n = TextNode) st.1) ++ token_text t.
Proof.
  destruct t; simpl; rewrite ?app_nil_r; try done.
  - rewrite append_attrs_texts by done.
    rewrite filter_app, filter_cons_False, filter_nil by done. by rewrite app_nil_r.
  - rewrite filter_app, filter_cons_False, filter_nil by done. by rewrite app_nil_r.
  - rewrite filter_app, filter_cons_True, filter_nil by done.
    rewrite fmap_app, concat_app. simpl. by rewrite slice_app_length, app_nil_r.
  - rewrite filter_app, filter_cons_False, filter_nil by done. by rewrite app_nil_r.
  - rewrite filter_app, filter_cons_False, filter_nil by done. by rewrite app_nil_r.
Qed.

Lemma read_tokens_kinds toks final : ∀ st st',
  read_tokens toks final st = Ret st' →
  kind <$> st'.1 = (kind <$> st.1) ++ concat (token_kinds <$> toks) ∧
  concat (text <$> filter (λ n, kind n = TextNode) st'.1)
  = concat (text <$> filter (λ n, kind n = TextNode) st.1) ++ concat (token_text <$> toks).
Proof.
  induction toks as [|t toks IH]; intros st st' Hr; simpl in Hr.
  - destruct final; [|done]. injection Hr as <-. simpl. by rewrite !app_nil_r.
  - destruct (IH _ _ Hr) as [Hk Ht]. rewrite Hk, Ht, read_token_kinds, read_token_texts.
    simpl. by rewrite <- !app_assoc.
Qed.

Lemma read_tokens_EOF toks : ∀ st, ∃ st', read_tokens toks EOF st = Ret st'.
Proof. induction toks as [|t toks IH]; intros st; simpl; eauto. Qed.

Lemma closing_index_skip ks : ∀ depth here rest,
  Forall (λ k, k ≠ StartNode ∧ k ≠ EndNode) ks →
  closing_index depth here (ks ++ rest) = closing_index depth (here + length ks) rest.
Proof.
  induction ks as [|k ks IH]; intros depth here rest Hks; simpl.
  - by rewrite Nat.add_0_r.
  - apply Forall_cons in Hks as [[? ?] Hks].
    replace (here + S (length ks)) with (S here + length ks) by lia.
    destruct k; try done; by apply IH.
Qed.

(** With well-nested tokens the root closes at its own [EndNode]. *)
Lemma closing_index_balanced toks : ∀ depth here,
  balanced depth toks = true →
  closing_index (S depth) here (concat (token_kinds <$> toks) ++ [EndNode])
  = Some (here + length (concat (token_kinds <$> toks))).
Proof.
  induction toks as [|t toks IH]; intros depth here Hb; simpl in Hb.
  - apply bool_decide_eq_true in Hb as ->. simpl. by rewrite Nat.add_0_r.
  - rewrite fmap_cons, concat_cons, <- app_assoc, length_app.
    destruct t as [n attrs|n|b|b|tg b|b]; simpl token_kinds.
    + simpl app at 1. cbn [closing_index].
      rewrite closing_index_skip by (apply Forall_replicate; by split).
      rewrite IH by done. f_equal. simpl. lia.
    + simpl. destruct depth as [|depth]; [done|]. rewrite IH by done. f_equal. lia.
    + simpl. rewrite IH by done. f_equal. lia.
    + simpl. rewrite IH by done. f_equal. lia.
    + simpl. rewrite IH by done. f_equal. lia.
    + simpl. rewrite IH by done. f_equal.
Qed.

Lemma spec_accepts_closing ks : ∀ depth here,
  spec_accepts (S depth) ks = true → ∃ e, closing_index (S depth) here ks = Some e.
Proof.
  induction ks as [|k ks IH]; intros depth here Hs; [done|].
  destruct k; simpl in *; try by apply IH.
  destruct depth as [|depth]; [by eexists|]. by apply IH.
Qed.

(** ** The finished tree *)

Section finished.

Variables (ns : list Node) (e : nat) (t : Tree).
Hypothesis ns_ok : events_ok ns.
Hypothesis t_finished : Finished ns e t.

Lemma fin_length : length (arena t) = length ns ∧ e < length ns.
Proof.
  destruct t_finished as (b & HI & _ & -> & He & _). split; [|done]. apply (inv_len _ _ _ HI).
Qed.

Lemma fin_live i n :
  arena t !! i = Some n → live (kind n) = true → i < S e →
  nodes n = SharedNodes ∧ pos n = i ∧ (kind n ≠ StartNode → end_ n = i + 1) ∧
  i < end_ n ∧ end_ n ≤ S e.
Proof.
  destruct t_finished as (b & HI & Hst & -> & _). simpl. intros Hi Hl Hlt.
  destruct (inv_live _ _ _ HI i n) as (? & ? & ?); [done..|].
  destruct (inv_closed _ _ _ HI i n) as [? ?]; [done..| |done].
  rewrite Hst. by intros ?%elem_of_nil.
Qed.

Lemma fin_fresh i n :
  arena t !! i = Some n → S e ≤ i ∨ live (kind n) = false → fresh n.
Proof.
  destruct t_finished as (b & HI & Hst & -> & _). simpl. intros Hi [?|?].
  - by eapply (inv_later _ _ _ HI).
  - by eapply (inv_dead _ _ _ HI).
Qed.

Lemma fin_up i n p :
  arena t !! i = Some n → up n = Some p →
  p < i ∧ i < S e ∧ live (kind n) = true ∧
  ∃ np, arena t !! p = Some np ∧ kind np = StartNode ∧ pos np = p ∧ pos n = i ∧
        end_ n ≤ end_ np.
Proof.
  intros Hi Hu. pose proof fin_live as Hlive.
  destruct t_finished as (b & HI & Hst & -> & _). simpl in *.
  destruct (inv_up _ _ _ HI i n p) as (? & ? & ? & np & Hnp & Hk); [done..|].
  split_and!; [done..|]. exists np.
  destruct (Hlive i n) as (_ & ? & _); [done..|].
  destruct (Hlive p np) as (_ & ? & _); [done|by rewrite Hk|lia|].
  destruct (inv_parent _ _ _ HI i n p np) as [_ ?]; [done..| |done].
  rewrite Hst. by intros ?%elem_of_nil.
Qed.

Lemma fin_root :
  ∃ n0, arena t !! 0 = Some n0 ∧ kind n0 = StartNode ∧ name n0 = noName ∧
        up n0 = None ∧ pos n0 = 0 ∧ end_ n0 = e ∧ nodes n0 = SharedNodes.
Proof.
  pose proof fin_live as Hlive. pose proof fin_up as Hup.
  destruct t_finished as (b & HI & Hst & -> & _ & (n0 & Hn0 & He) & _). simpl in *.
  exists n0. destruct (inv_static _ _ _ HI 0 n0 Hn0) as (r & Hr & Hk & Hn & _).
  destruct ns_ok as [Hroot _]. rewrite Hroot in Hr. injection Hr as <-.
  destruct (Hlive 0 n0) as (? & ? & _); [done|by rewrite Hk|lia|].
  split_and!; try done.
  destruct (up n0) as [p|] eqn:Hu; [|done]. destruct (Hup 0 n0 p); [done..|lia].
Qed.

Lemma fin_siblings i j ni nj p :
  arena t !! i = Some ni → arena t !! j = Some nj → i < j →
  up ni = Some p → up nj = Some p → end_ ni ≤ pos nj.
Proof.
  intros Hi Hj Hij Hui Huj.
  destruct (fin_up j nj p Hj Huj) as (_ & _ & _ & _ & _ & _ & _ & -> & _).
  destruct t_finished as (b & HI & Hst & -> & _). simpl in *.
  by destruct (inv_siblings _ _ _ HI i j ni nj p).
Qed.

Lemma fin_children p nd :
  arena t !! p = Some nd → kind nd = StartNode →
  children t nd = Some <$> kids (arena t) p.
Proof.
  intros Hp Hk. pose proof fin_up as Hup. pose proof fin_fresh as Hfresh.
  destruct t_finished as (b & HI & Hst & -> & _). simpl in *. unfold children. simpl.
  destruct (decide (p < S e)) as [Hlt|Hge].
  - destruct (inv_window _ _ _ HI p nd) as (off & len & -> & _ & Hw); [done..| |done].
    rewrite Hst. by intros ?%elem_of_nil.
  - destruct (Hfresh p nd) as (_ & _ & _ & _ & ->); [done|left; lia|].
    unfold kids. rewrite filter_none; [done|]. intros j _ Hj. unfold child_of in Hj.
    destruct (bnodes b !! j) as [nj|] eqn:Hnj; [|done].
    apply Is_true_eq_true, andb_true_iff in Hj as [Hu%bool_decide_eq_true _].
    destruct (Hup j nj p); [done..|lia].
Qed.

End finished.

Lemma link_outcome ns :
  events_ok ns →
  match closing_index 0 0 (kind <$> ns) with
  | Some e => ∃ t nr, link ns = Ret (0, t) ∧ arena t !! 0 = Some nr ∧
                      pos nr = 0 ∧ end_ nr = e ∧ e < length (arena t) ∧
                      ∀ i n, arena t !! i = Some n → e < i → fresh n
  | None => link ns = Err EOF
  end.
Proof.
  intros Hns. pose proof (link_spec ns (proj2 Hns) (proj1 Hns)) as Hs.
  destruct (closing_index 0 0 (kind <$> ns)) as [e|]; [|done].
  destruct Hs as (t & Hl & Hfin).
  destruct (fin_root ns e t Hns Hfin) as (n0 & ? & _ & _ & _ & ? & ? & _).
  destruct (fin_length ns e t Hfin) as [Hlen ?].
  exists t, n0. split_and!; try done; [by rewrite Hlen|].
  intros i n Hi Hlt. apply (fin_fresh ns e t Hfin i n Hi). left. lia.
Qed.

Lemma fin_static ns e t :
  Finished ns e t → Forall2 same_static (arena t) ns.
Proof.
  intros (b & HI & _ & -> & _). simpl. apply Forall2_same_length_lookup. split.
  - apply (inv_len _ _ _ HI).
  - intros i n n0 Hn Hn0. destruct (inv_static _ _ _ HI i n Hn) as (n0' & Hn0' & Hs).
    congruence.
Qed.

Lemma same_static_texts l l' :
  Forall2 same_static l l' →
  text <$> filter (λ n, kind n = TextNode) l = text <$> filter (λ n, kind n = TextNode) l'.
Proof.
  induction 1 as [|n n' l l' (Hk & _ & _ & Ht) _ IH]; [done|].
  rewrite !filter_cons, Hk. destruct (decide (kind n' = TextNode)); [|done].
  by rewrite !fmap_cons, Ht, IH.
Qed.

Lemma fin_tree_node ns e t i nd :
  events_ok ns → Finished ns e t → arena t !! i = Some nd →
  i = 0 ∨ descendant (arena t) 0 i →
  live (kind nd) = true ∧
  nodes nd = SharedNodes ∧ pos nd = i ∧ (kind nd ≠ StartNode → end_ nd = i + 1) ∧
  end_ nd ≤ length (arena t).
Proof.
  intros Hns Hfin Hi Hin.
  assert (Hl : live (kind nd) = true ∧ i < S e).
  { destruct Hin as [->|Hd].
    - destruct (fin_root ns e t Hns Hfin) as (n0 & Hn0 & Hk0 & _).
      assert (n0 = nd) as -> by congruence. rewrite Hk0. split; [done|lia].
    - assert (∃ p, up nd = Some p) as [p Hu].
      { destruct Hd as [d nd' Hd Hu|d nd' p Hd Hu _];
          assert (nd' = nd) as -> by congruence; eauto. }
      destruct (fin_up ns e t Hfin i nd p Hi Hu) as (_ & ? & ? & _). done. }
  destruct Hl as [Hl Hlt].
  destruct (fin_live ns e t Hfin i nd Hi Hl Hlt) as (? & ? & ? & _ & ?).
  destruct (fin_length ns e t Hfin). split_and!; try done. lia.
Qed.

(** The nodes of the tree are the entries of a kind other than [EndNode]
    before the [EndNode] on which the pass returned. *)
Lemma fin_in_tree ns e t i nd :
  events_ok ns → Finished ns e t → arena t !! i = Some nd →
  (i = 0 ∨ descendant (arena t) 0 i) ↔ (live (kind nd) = true ∧ i < e).
Proof.
  intros Hns Hfin Hi. split.
  - intros Hin. destruct (fin_tree_node ns e t i nd Hns Hfin Hi Hin) as (Hl & _).
    split; [done|].
    assert (i < S e).
    { destruct Hin as [->|Hd]; [lia|].
      assert (∃ p, up nd = Some p) as [p Hu].
      { destruct Hd as [d nd' Hd Hu|d nd' p Hd Hu _];
          assert (nd' = nd) as -> by congruence; eauto. }
      by destruct (fin_up ns e t Hfin i nd p Hi Hu) as (_ & ? & _). }
    destruct Hfin as (b & _ & _ & -> & _ & _ & _ & ne & Hne & Hke). simpl in *.
    destruct (decide (i = e)) as [->|]; [|lia].
    assert (ne = nd) as -> by congruence. by rewrite Hke in Hl.
  - revert nd Hi. induction (lt_wf i) as [i _ IH]. intros nd Hi [Hl Hlt].
    destruct (decide (i = 0)) as [->|Hpos]; [by left|]. right.
    assert (Hu : is_Some (up nd)).
    { destruct Hfin as (b & _ & _ & -> & _ & _ & HP & _). simpl in *.
      apply (HP i nd); [done|lia|lia|done]. }
    destruct Hu as [p Hu].
    destruct (fin_up ns e t Hfin i nd p Hi Hu) as (? & _ & _ & np & Hnp & Hkp & _).
    destruct (IH p ltac:(lia) np Hnp) as [->|Hd].
    + rewrite Hkp. split; [done|lia].
    + by eapply descendant_child.
    + by eapply descendant_step.
Qed.

Lemma descendant_range ns e t a d :
  events_ok ns → Finished ns e t → descendant (arena t) a d →
  ∀ na nd, arena t !! a = Some na → arena t !! d = Some nd →
    kind na = StartNode ∧ pos na < pos nd ∧ pos nd < end_ nd ∧ end_ nd ≤ end_ na.
Proof.
  intros Hns Hfin. induction 1 as [d nd' Hd Hu|d nd' p Hd Hu _ IH]; intros na nd Ha Hnd.
  - assert (nd' = nd) as -> by congruence.
    destruct (fin_up ns e t Hfin d nd a Hd Hu) as (? & ? & ? & np & Hnp & ? & ? & ? & ?).
    assert (np = na) as -> by congruence.
    destruct (fin_live ns e t Hfin d nd) as (_ & ? & _ & ? & _); [done..|].
    split_and!; [done|lia..].
  - assert (nd' = nd) as -> by congruence.
    destruct (fin_up ns e t Hfin d nd p Hd Hu) as (? & ? & ? & np & Hnp & ? & ? & ? & ?).
    destruct (IH na np Ha Hnp) as (? & ? & ? & ?).
    destruct (fin_live ns e t Hfin d nd) as (_ & ? & _ & ? & _); [done..|].
    split_and!; [done|lia..].
Qed.

Lemma sample_constructed : constructed 0 sample_tree.
Proof. left. exists sample. vm_compute. reflexivity. Defined.

Lemma straddle_constructed : constructed 0 straddle_tree.
Proof. left. exists straddle. vm_compute. reflexivity. Defined.

Lemma hi_constructed : constructed 0 hi_tree.
Proof. right. exists 16, hi_fragment. vm_compute. reflexivity. Defined.

(** * The queries *)

(** ** Bytes *)

Lemma Bytes_size_ret store node : nodes node = SharedNodes → ∀ count i size,
  i + count ≤ length store → ∃ sz, Bytes_size store node i count size = Ret sz.
Proof.
  intros Hn. induction count as [|count IH]; intros i size Hlen; [by eexists|].
  simpl. unfold node_at. rewrite Hn.
  destruct (store !! i) as [n|] eqn:Hi; last first.
  { apply lookup_ge_None in Hi. lia. }
  simpl. apply IH. lia.
Qed.

Lemma Bytes_copy_spec store node : nodes node = SharedNodes → ∀ count i acc,
  i + count ≤ length store →
  Bytes_copy store node i count acc
  = Ret (acc ++ concat (text <$> filter (λ n, kind n = TextNode) (take count (drop i store)))).
Proof.
  intros Hn. induction count as [|count IH]; intros i acc Hlen.
  { simpl. by rewrite app_nil_r. }
  simpl. unfold node_at. rewrite Hn.
  destruct (store !! i) as [n|] eqn:Hi; last first.
  { apply lookup_ge_None in Hi. lia. }
  simpl. rewrite IH by lia. rewrite (drop_S _ _ _ Hi). simpl. rewrite filter_cons.
  destruct (decide (kind n = TextNode)); [|done].
  by rewrite fmap_cons, concat_cons, app_assoc.
Qed.

Lemma Bytes_start store node :
  kind node = StartNode →
  (nodes node = SharedNodes ∧ end_ node ≤ length store) ∨ end_ node ≤ pos node →
  Bytes store node = Ret (range_text store node).
Proof.
  intros Hk Hr. unfold Bytes, range_text, slice. rewrite Hk.
  rewrite decide_False by done. rewrite decide_False by (by intros []).
  destruct (decide (end_ node ≤ pos node)) as [Hempty|Hlt].
  { replace (end_ node - pos node) with 0 by lia. done. }
  destruct Hr as [[Hn Hlen]|?]; [|lia].
  destruct (Bytes_size_ret store node Hn (end_ node - pos node) (pos node) 0) as [sz ->];
    [lia|].
  simpl. by rewrite (Bytes_copy_spec store node Hn) by lia.
Qed.

Lemma fin_Bytes_start ns e t i nd :
  events_ok ns → Finished ns e t → arena t !! i = Some nd → kind nd = StartNode →
  Bytes (arena t) nd = Ret (range_text (arena t) nd).
Proof.
  intros Hns Hfin Hi Hk. apply Bytes_start; [done|].
  destruct (decide (i < S e)) as [Hlt|Hge].
  - left. destruct (fin_live ns e t Hfin i nd) as (? & _ & _ & _ & ?); [done|by rewrite Hk|done|].
    destruct (fin_length ns e t Hfin). split; [done|lia].
  - right. destruct (fin_fresh ns e t Hfin i nd) as (_ & -> & -> & _); [done|left; lia|done].
Qed.

(** ** contains *)

Lemma get_lookup s : ∀ i, String.get i s = list_ascii_of_string s !! i.
Proof. induction s as [|a s IH]; intros [|i]; simpl; auto. Qed.

Lemma length_list_ascii s : String.length s = length (list_ascii_of_string s).
Proof. induction s as [|a s IH]; simpl; auto. Qed.

Lemma span_text_0 store i : span_text store i 0 = [].
Proof. done. Qed.

Lemma span_text_S store i count n :
  store !! i = Some n →
  span_text store i (S count)
  = (if decide (kind n = TextNode) then text n else []) ++ span_text store (S i) count.
Proof.
  intros Hi. unfold span_text. rewrite (drop_S _ _ _ Hi). simpl. rewrite filter_cons.
  by destruct (decide (kind n = TextNode)).
Qed.

Lemma span_text_range store node :
  span_text store (pos node) (end_ node - pos node) = range_text store node.
Proof. done. Qed.

Lemma span_text_1 store i n :
  store !! i = Some n →
  span_text store i 1 = if decide (kind n = TextNode) then text n else [].
Proof. intros Hi. rewrite (span_text_S _ _ _ _ Hi), span_text_0. by rewrite app_nil_r. Qed.

Lemma match_prefix_nil_r need : need ≠ [] → match_prefix need [] = Some need.
Proof. by destruct need. Qed.

Lemma match_prefix_app need : ∀ t1 t2,
  match_prefix need (t1 ++ t2)
  = match match_prefix need t1 with
    | None => None
    | Some [] => Some []
    | Some rem => match_prefix rem t2
    end.
Proof.
  induction need as [|a need IH]; intros t1 t2; [done|].
  destruct t1 as [|c t1]; [done|]. simpl. destruct (decide (a = c)); [apply IH|done].
Qed.

Lemma match_prefix_suffix need : ∀ text rem,
  match_prefix need text = Some rem → rem = drop (length need - length rem) need.
Proof.
  induction need as [|a need IH]; intros text rem Hm; simpl in Hm.
  - by injection Hm as <-.
  - destruct text as [|c text].
    + injection Hm as <-. by rewrite Nat.sub_diag.
    + destruct (decide (a = c)); [|done]. pose proof (IH _ _ Hm) as Hr.
      assert (length rem ≤ length need).
      { rewrite Hr, length_drop. lia. }
      simpl length. replace (S (length need) - length rem)
        with (S (length need - length rem)) by lia. done.
Qed.

Lemma search_app need rest after :
  search need (rest ++ after) = search_in need rest after || search need after.
Proof.
  induction rest as [|c rest IH]; [done|]. simpl. by rewrite IH, orb_assoc.
Qed.

Section contains_spec.

Variables (store : list Node) (node : Node) (s : string).
Hypothesis node_linked : nodes node = SharedNodes.

Let sl := list_ascii_of_string s.

Lemma drop_need si a : sl !! si = Some a → drop si sl = a :: drop (S si) sl.
Proof. intros H. by rewrite (drop_S _ _ _ H). Qed.

Lemma need_suffix si text rem :
  si ≤ length sl → match_prefix (drop si sl) text = Some rem →
  rem = drop (length sl - length rem) sl ∧ length rem ≤ length sl - si.
Proof.
  intros Hsi Hm. pose proof (match_prefix_suffix _ _ _ Hm) as Hr.
  rewrite length_drop in Hr.
  assert (length rem ≤ length sl - si).
  { rewrite Hr, length_drop, length_drop. lia. }
  split; [|done]. rewrite Hr at 1. rewrite drop_drop. f_equal. lia.
Qed.

Lemma contains_rest_spec rest : ∀ si,
  si ≤ length sl →
  contains_rest s si rest
  = Ret (match match_prefix (drop si sl) rest with
         | None => NextTry
         | Some rem => Going (length sl - length rem)
         end).
Proof.
  induction rest as [|c rest IH]; intros si Hsi.
  - simpl. destruct (drop si sl) as [|a need] eqn:Hd.
    + apply (f_equal length) in Hd. rewrite length_drop in Hd. simpl in *.
      do 2 f_equal. lia.
    + simpl. apply (f_equal length) in Hd. rewrite length_drop in Hd. simpl in *.
      do 2 f_equal. lia.
  - simpl. rewrite length_list_ascii. fold sl.
    destruct (decide (si < length sl)) as [Hlt|Hge].
    + rewrite get_lookup. fold sl.
      destruct (sl !! si) as [a|] eqn:Ha; last first.
      { apply lookup_ge_None in Ha. lia. }
      rewrite (drop_need _ _ Ha). simpl.
      destruct (decide (a ≠ c)) as [Hne|Heq].
      * by rewrite decide_False.
      * apply dec_stable in Heq as ->. rewrite decide_True by done. apply IH. lia.
    + rewrite drop_ge by lia. simpl. do 2 f_equal. lia.
Qed.

Lemma contains_next_text_spec text : ∀ si,
  si < length sl →
  contains_next_text s si text
  = Ret (match match_prefix (drop si sl) text with
         | None => NextTry
         | Some [] => Matched
         | Some rem => Going (length sl - length rem)
         end).
Proof.
  induction text as [|c text IH]; intros si Hsi.
  - simpl. destruct (drop si sl) as [|a need] eqn:Hd.
    + apply (f_equal length) in Hd. rewrite length_drop in Hd. simpl in *. lia.
    + simpl. apply (f_equal length) in Hd. rewrite length_drop in Hd. simpl in *.
      do 2 f_equal. lia.
  - simpl. rewrite get_lookup, length_list_ascii. fold sl.
    destruct (sl !! si) as [a|] eqn:Ha; last first.
    { apply lookup_ge_None in Ha. lia. }
    rewrite (drop_need _ _ Ha). simpl.
    destruct (decide (a ≠ c)) as [Hne|Heq].
    + by rewrite decide_False.
    + apply dec_stable in Heq as ->. destruct (decide (c = c)); [|done].
      destruct (decide (S si = length sl)) as [Hend|Hmore].
      * rewrite drop_ge by lia. done.
      * apply IH. lia.
Qed.

Lemma contains_next_spec count : ∀ j si,
  j + count ≤ length store → si < length sl →
  contains_next store node s j count si
  = Ret (match match_prefix (drop si sl) (span_text store j count) with
         | None => NextTry
         | Some [] => Matched
         | Some rem => Going (length sl - length rem)
         end).
Proof.
  induction count as [|count IH]; intros j si Hj Hsi.
  - simpl. rewrite span_text_0.
    destruct (drop si sl) as [|a need] eqn:Hd.
    + apply (f_equal length) in Hd. rewrite length_drop in Hd. simpl in *. lia.
    + simpl. apply (f_equal length) in Hd. rewrite length_drop in Hd. simpl in *.
      do 2 f_equal. lia.
  - simpl. unfold node_at. rewrite node_linked.
    destruct (store !! j) as [n|] eqn:Hn; last first.
    { apply lookup_ge_None in Hn. lia. }
    simpl. rewrite (span_text_S _ _ _ _ Hn).
    destruct (decide (kind n = TextNode)); [|apply IH; lia].
    rewrite contains_next_text_spec by done. simpl. rewrite match_prefix_app.
    destruct (match_prefix (drop si sl) (text n)) as [[|a rem]|] eqn:Hm; [done| |done].
    destruct (need_suffix si _ _ ltac:(lia) Hm) as [Hrem Hlen]. simpl length in *.
    rewrite IH by lia. by rewrite <- Hrem.
Qed.

Variables (s0 : ascii) (sl' : list ascii).
Hypothesis s_cons : sl = s0 :: sl'.

Lemma contains_text_spec i rest :
  end_ node ≤ length store →
  contains_text store node s s0 i rest
  = Ret (search_in sl rest (span_text store (i + 1) (end_ node - (i + 1)))).
Proof.
  intros Hend. induction rest as [|c rest IH]; [done|].
  simpl. rewrite s_cons. simpl.
  destruct (decide (c ≠ s0)) as [Hne|Heq].
  { rewrite decide_False by (by intros ->). rewrite IH. by rewrite s_cons. }
  apply dec_stable in Heq as ->. rewrite decide_True by done.
  rewrite contains_rest_spec by (rewrite s_cons; simpl; lia).
  rewrite s_cons at 1. simpl drop. rewrite drop_0. simpl.
  rewrite match_prefix_app.
  destruct (match_prefix sl' rest) as [rem|] eqn:Hm; last first.
  { simpl. rewrite IH. by rewrite s_cons. }
  assert (Hm' : match_prefix (drop 1 sl) rest = Some rem) by (by rewrite s_cons).
  destruct (need_suffix 1 _ _ ltac:(rewrite s_cons; simpl; lia) Hm') as [Hrem Hlen].
  rewrite length_list_ascii. fold sl.
  destruct rem as [|a rem].
  { simpl. rewrite decide_True by lia. done. }
  simpl length in *. rewrite decide_False by (rewrite s_cons in *; simpl in *; lia).
  destruct (decide (i + 1 ≤ end_ node)) as [Hle|Hgt].
  - rewrite contains_next_spec by (rewrite ?s_cons in *; simpl in *; lia).
    rewrite <- Hrem.
    destruct (match_prefix (a :: rem) (span_text store (i + 1) (end_ node - (i + 1))))
      as [[|? ?]|]; cbn [mbind outcome_mbind outcome_bind bool_decide orb]; try done.
    + rewrite IH. by rewrite s_cons.
    + rewrite IH. by rewrite s_cons.
  - replace (end_ node - (i + 1)) with 0 by lia. simpl. rewrite span_text_0.
    simpl. rewrite IH. replace (end_ node - (i + 1)) with 0 by lia.
    rewrite span_text_0. by rewrite s_cons.
Qed.

Lemma contains_range_spec count : ∀ i,
  i + count = end_ node → end_ node ≤ length store →
  contains_range store node s s0 i count = Ret (search sl (span_text store i count)).
Proof.
  induction count as [|count IH]; intros i Hi Hend; [done|].
  simpl. unfold node_at. rewrite node_linked.
  destruct (store !! i) as [n|] eqn:Hn; last first.
  { apply lookup_ge_None in Hn. lia. }
  simpl. rewrite (span_text_S _ _ _ _ Hn).
  destruct (decide (kind n = TextNode)); [|apply IH; lia].
  rewrite contains_text_spec by done. simpl.
  replace (end_ node - (i + 1)) with count by lia. replace (i + 1) with (S i) by lia.
  rewrite search_app.
  destruct (search_in sl (text n) (span_text store (S i) count)); [done|].
  apply IH; lia.
Qed.

End contains_spec.

Lemma prefix_match s : ∀ T,
  String.prefix s (string_of_list_ascii T)
  = bool_decide (match_prefix (list_ascii_of_string s) T = Some []).
Proof.
  induction s as [|a s IH]; intros [|c T]; simpl; try done.
  destruct (ascii_dec a c) as [->|Hne].
  - rewrite decide_True by done. apply IH.
  - by rewrite decide_False.
Qed.

Lemma Contains_cons c v s :
  strings.Contains (String c v) s = String.prefix s (String c v) || strings.Contains v s.
Proof. done. Qed.

Lemma Contains_search s T :
  s ≠ "" →
  strings.Contains (string_of_list_ascii T) s = search (list_ascii_of_string s) T.
Proof.
  intros Hs. induction T as [|c T IH].
  - simpl. destruct s; [done|]. done.
  - change (string_of_list_ascii (c :: T)) with (String c (string_of_list_ascii T)).
    rewrite Contains_cons, IH.
    change (String c (string_of_list_ascii T)) with (string_of_list_ascii (c :: T)).
    by rewrite prefix_match.
Qed.

Lemma Contains_empty v : strings.Contains v "" = true.
Proof. by destruct v. Qed.

Lemma Contains_nil s : strings.Contains "" s = bool_decide (s = "").
Proof. by destruct s. Qed.

(** For a node that is not an [AttrNode], [contains] is the textbook test on
    the texts of the [TextNode]s in the node's range. *)
Lemma contains_spec store node s :
  kind node ≠ AttrNode →
  (nodes node = SharedNodes ∧ end_ node ≤ length store) ∨ end_ node ≤ pos node →
  contains store node s
  = Ret (strings.Contains
           (string_of_list_ascii (span_text store (pos node) (end_ node - pos node))) s).
Proof.
  intros Hk Hr. unfold contains.
  destruct s as [|s0 s'] eqn:Hs; [rewrite !Contains_empty; reflexivity|]. rewrite <- Hs.
  assert (Hne : s ≠ "") by (by rewrite Hs).
  rewrite decide_False by (by rewrite Hs). rewrite decide_False by done.
  rewrite Contains_search by done.
  assert (Hg : String.get 0 s = Some s0) by (by rewrite Hs). rewrite Hg.
  destruct (decide (end_ node ≤ pos node)) as [Hempty|Hlt].
  { replace (end_ node - pos node) with 0 by lia. done. }
  destruct Hr as [[Hn Hlen]|?]; [|lia].
  apply (contains_range_spec store node s Hn s0 (list_ascii_of_string s')); [|lia|done].
  by rewrite Hs.
Qed.

(** ** equals *)

Lemma rune_width_pos s i c : String.get i s = Some c → 1 ≤ rune_width s i.
Proof.
  intros Hc. unfold rune_width. rewrite Hc.
  repeat match goal with
         | |- context [if ?b then _ else _] => destruct b
         end; lia.
Qed.

(** The fuel that [equals] hands to the loop over the code points is
    enough, and the loop does not index out of range: it returns. *)
Lemma equals_own_returns s text fuel : ∀ i,
  length text = String.length s → String.length s - i < fuel →
  ∃ b, equals_own fuel s text i = Ret b.
Proof.
  intros i Hlen. revert i. induction fuel as [|fuel IH]; intros i Hf; [lia|].
  simpl. destruct (decide (String.length s ≤ i)); [by eexists|].
  destruct (String.get i s) as [a|] eqn:Ha; last first.
  { rewrite get_lookup in Ha. apply lookup_ge_None in Ha.
    rewrite <- length_list_ascii in Ha. lia. }
  destruct (text !! i) as [b|] eqn:Hb; last first.
  { apply lookup_ge_None in Hb. lia. }
  destruct (decide (a ≠ b)); [by eexists|].
  apply IH. pose proof (rune_width_pos s i a Ha). lia.
Qed.

Section equals_spec.

Variables (store : list Node) (node : Node) (s : string).

Let sl := list_ascii_of_string s.

Lemma equals_text_spec text : ∀ si,
  equals_text s si text
  = Ret (if decide (take (length text) (drop si sl) = text)
         then Some (si + length text) else None).
Proof.
  induction text as [|c text IH]; intros si.
  { simpl. by rewrite Nat.add_0_r. }
  simpl equals_text. rewrite length_list_ascii, get_lookup. fold sl.
  destruct (decide (length sl ≤ si)) as [Hge|Hlt].
  { rewrite drop_ge by done. by rewrite decide_False. }
  destruct (sl !! si) as [a|] eqn:Ha; last first.
  { apply lookup_ge_None in Ha. lia. }
  rewrite (drop_S _ _ _ Ha). simpl take. simpl length.
  destruct (decide (a ≠ c)) as [Hne|Heq].
  { rewrite decide_False; [done|]. by intros [= ? _]. }
  apply dec_stable in Heq as ->. rewrite IH.
  destruct (decide (take (length text) (drop (S si) sl) = text)) as [Ht|Ht].
  - rewrite decide_True by (by rewrite Ht). do 2 f_equal. lia.
  - rewrite decide_False; [done|]. by intros [= ?].
Qed.

Lemma equals_range_spec count :
  nodes node = SharedNodes → ∀ i si,
  i + count ≤ length store → si ≤ length sl →
  equals_range store node s i count si
  = Ret (bool_decide (drop si sl = span_text store i count)).
Proof.
  intros Hn. induction count as [|count IH]; intros i si Hi Hsi.
  { simpl. rewrite span_text_0, length_list_ascii. fold sl. f_equal.
    apply bool_decide_ext. split.
    - intros ->. by rewrite drop_all.
    - intros Hd. apply (f_equal length) in Hd. rewrite length_drop in Hd. simpl in Hd. lia. }
  simpl. unfold node_at. rewrite Hn.
  destruct (store !! i) as [n|] eqn:Hni; last first.
  { apply lookup_ge_None in Hni. lia. }
  simpl. rewrite (span_text_S _ _ _ _ Hni).
  destruct (decide (kind n = TextNode)); [|apply IH; lia].
  rewrite equals_text_spec. simpl.
  destruct (decide (take (length (text n)) (drop si sl) = text n)) as [Ht|Ht].
  - assert (Hlen : length (text n) ≤ length sl - si).
    { rewrite <- Ht at 1. rewrite length_take, length_drop. lia. }
    assert (Hsplit : drop si sl = text n ++ drop (si + length (text n)) sl).
    { rewrite <- (take_drop (length (text n)) (drop si sl)) at 1.
      by rewrite Ht, drop_drop. }
    rewrite IH by lia. f_equal. apply bool_decide_ext. rewrite Hsplit.
    split; [by intros ->|]. by intros ?%app_inv_head.
  - f_equal. symmetry. apply bool_decide_eq_false. intros Hd. apply Ht.
    rewrite Hd. by rewrite take_app_length.
Qed.

(** Every byte of [s] is below 0x80, so every code point of [s] is one
    byte. *)
Definition ascii_only : Prop :=
  Forall (λ c, (N_of_ascii c < 128)%N) sl.

Lemma rune_width_ascii i : ascii_only → i < length sl → rune_width s i = 1.
Proof.
  intros Ha Hi. unfold rune_width. rewrite get_lookup. fold sl.
  destruct (sl !! i) as [c|] eqn:Hc; last first.
  { apply lookup_ge_None in Hc. lia. }
  pose proof (Forall_lookup_1 _ _ _ _ Ha Hc) as Hlt. simpl in Hlt.
  assert (Hb : (N_of_ascii c <? 194)%N = true) by (apply N.ltb_lt; lia).
  by rewrite Hb.
Qed.

Lemma equals_own_spec text fuel :
  ascii_only → length text = length sl → ∀ i,
  length sl - i < fuel →
  equals_own fuel s text i = Ret (bool_decide (drop i sl = drop i text)).
Proof.
  intros Ha Hlen. induction fuel as [|fuel IH]; intros i Hf; [lia|].
  simpl. rewrite length_list_ascii, get_lookup. fold sl.
  destruct (decide (length sl ≤ i)) as [Hge|Hlt].
  { rewrite !drop_ge by lia. done. }
  destruct (sl !! i) as [a|] eqn:Has; last first.
  { apply lookup_ge_None in Has. lia. }
  destruct (text !! i) as [b|] eqn:Hbt; last first.
  { apply lookup_ge_None in Hbt. lia. }
  rewrite (drop_S _ _ _ Has), (drop_S _ _ _ Hbt).
  destruct (decide (a ≠ b)) as [Hne|Heq].
  { f_equal. symmetry. apply bool_decide_eq_false. by intros [= ? _]. }
  apply dec_stable in Heq as ->. rewrite rune_width_ascii by (done || lia).
  rewrite IH by lia. replace (i + 1) with (S i) by lia. f_equal.
  apply bool_decide_ext. split; [by intros ->|]. by intros [= ?].
Qed.

End equals_spec.

Lemma string_of_list_ascii_eq v s :
  string_of_list_ascii v = s ↔ list_ascii_of_string s = v.
Proof.
  split; intros <-.
  - apply list_ascii_of_string_of_list_ascii.
  - apply string_of_list_ascii_of_string.
Qed.

(** ** startsWith *)

Section startsWith_spec.

Variables (store : list Node) (node : Node) (s : string).

Let sl := list_ascii_of_string s.

(** The inner loop returns [true] exactly when the rest of [s] is matched
    within the fragment; when the fragment is used up first, it leaves the
    number of bytes matched. *)
Lemma startsWith_text_spec text : ∀ si,
  si < length sl →
  ∃ r, startsWith_text s si text = Ret r ∧
       (r = None ↔ match_prefix (drop si sl) text = Some []) ∧
       (∀ a rem, match_prefix (drop si sl) text = Some (a :: rem) →
                 r = Some (length sl - length (a :: rem))).
Proof.
  induction text as [|c text IH]; intros si Hsi.
  - exists (Some si). split; [done|].
    destruct (drop si sl) as [|a need] eqn:Hd.
    { apply (f_equal length) in Hd. rewrite length_drop in Hd. simpl in Hd. lia. }
    split; [done|]. simpl. intros ? ? [= <- <-]. f_equal.
    apply (f_equal length) in Hd. rewrite length_drop in Hd. simpl in *. lia.
  - simpl. rewrite get_lookup, length_list_ascii. fold sl.
    destruct (sl !! si) as [a|] eqn:Ha; last first.
    { apply lookup_ge_None in Ha. lia. }
    rewrite (drop_S _ _ _ Ha). simpl.
    destruct (decide (c ≠ a)) as [Hne|Heq].
    { exists (Some si). rewrite decide_False by (by intros ->).
      split; [done|]. split; [by split|done]. }
    apply dec_stable in Heq as ->. destruct (decide (a = a)); [|done].
    destruct (decide (S si = length sl)) as [Hend|Hmore].
    + exists None. rewrite drop_ge by lia. simpl. split; [done|]. split; [by split|done].
    + apply IH. lia.
Qed.

Lemma startsWith_range_complete count :
  nodes node = SharedNodes → ∀ i si,
  i + count ≤ length store → si < length sl →
  match_prefix (drop si sl) (span_text store i count) = Some [] →
  startsWith_range store node s i count si = Ret true.
Proof.
  intros Hn. induction count as [|count IH]; intros i si Hi Hsi Hm.
  { rewrite span_text_0 in Hm. destruct (drop si sl) as [|a need] eqn:Hd; [|done].
    apply (f_equal length) in Hd. rewrite length_drop in Hd. simpl in Hd. lia. }
  simpl. unfold node_at. rewrite Hn.
  destruct (store !! i) as [n|] eqn:Hni; last first.
  { apply lookup_ge_None in Hni. lia. }
  simpl. rewrite (span_text_S _ _ _ _ Hni) in Hm.
  destruct (decide (kind n = TextNode)) as [Ht|Ht].
  - rewrite decide_False by (by intros []).
    destruct (startsWith_text_spec (text n) si Hsi) as (r & -> & Hnone & Hsome). simpl.
    rewrite match_prefix_app in Hm.
    destruct (match_prefix (drop si sl) (text n)) as [[|a rem]|] eqn:Hmt; [| |done].
    + by rewrite (proj2 Hnone eq_refl).
    + rewrite (Hsome a rem eq_refl).
      pose proof (match_prefix_suffix _ _ _ Hmt) as Hrem.
      rewrite length_drop in Hrem.
      assert (length (a :: rem) ≤ length sl - si).
      { rewrite Hrem, !length_drop. lia. }
      rewrite drop_drop in Hrem. simpl length in *.
      apply IH; [lia|lia|].
      replace (length sl - S (length rem)) with (si + (length sl - si - S (length rem)))
        by lia.
      by rewrite <- Hrem.
  - rewrite decide_True by done. apply IH; [lia|done|done].
Qed.

End startsWith_spec.

(** * The claims *)

(** ** C1: contains against the string value *)

(** C1 at a [CommentNode]: its string value is ["xy"], which contains ["x"],
    and [contains("x")] is false.  For a [CommentNode] or a [ProcInstNode]
    the loop of [contains] runs over the node itself, which is not a
    [TextNode], and ends with [false] for every non-empty candidate. *)
Theorem contains_misses_comment :
  ParseDecoder commented = Ret (0, commented_tree) ∧
  kind (entry commented_tree 2) = CommentNode ∧
  String_ (arena commented_tree) (entry commented_tree 2) = Ret "xy" ∧
  strings.Contains "xy" "x" = true ∧
  contains (arena commented_tree) (entry commented_tree 2) "x" = Ret false.
Proof. vm_compute. split_and!; reflexivity. Qed.

(** ** C2: startsWith against the string value *)

(** C2 at the element [a]: its string value is ["xa"], which does not begin
    with ["a"], and [startsWith("a")] is true.  On a mismatch the inner loop
    is left by [break], which goes on with the next fragment and the same
    [si]; here the second fragment supplies the ["a"]. *)
Theorem startsWith_resumes_after_mismatch :
  ParseDecoder late_prefix = Ret (0, late_prefix_tree) ∧
  kind (entry late_prefix_tree 1) = StartNode ∧
  String_ (arena late_prefix_tree) (entry late_prefix_tree 1) = Ret "xa" ∧
  strings.HasPrefix "xa" "a" = false ∧
  startsWith (arena late_prefix_tree) (entry late_prefix_tree 1) "a" = Ret true.
Proof. vm_compute. split_and!; reflexivity. Qed.

(** ** C3: a match across fragments *)

(** C3. In a constructed tree, [contains] on a [StartNode] is the substring
    test on the node's string value, the concatenation of the texts of the
    [TextNode]s in its range: a candidate that begins in one fragment and
    ends in a later one is found, whatever lies between the fragments. *)
Theorem contains_across_fragments root t i nd s :
  constructed root t → arena t !! i = Some nd → kind nd = StartNode →
  ∃ v, Bytes (arena t) nd = Ret v ∧
       v = concat (text <$> filter (λ n, kind n = TextNode)
                              (slice (arena t) (pos nd) (end_ nd))) ∧
       contains (arena t) nd s = Ret (strings.Contains (string_of_list_ascii v) s).
Proof.
  intros (-> & ns & e & Hns & Hfin)%constructed_finished Hi Hk.
  exists (range_text (arena t) nd). split; [by eapply fin_Bytes_start|]. split; [done|].
  rewrite <- span_text_range. apply contains_spec; [by rewrite Hk|].
  destruct (decide (i < S e)) as [Hlt|Hge].
  - left. destruct (fin_live ns e t Hfin i nd) as (? & _ & _ & _ & ?); [done|by rewrite Hk|done|].
    destruct (fin_length ns e t Hfin). split; [done|lia].
  - right. destruct (fin_fresh ns e t Hfin i nd) as (_ & -> & -> & _); [done|left; lia|done].
Qed.

Lemma contains_across_fragments_witness :
  (λ n, (kind n, string_of_list_ascii (text n)))
    <$> slice (arena straddle_tree) (pos (entry straddle_tree 1))
          (end_ (entry straddle_tree 1))
  = [(StartNode, ""); (TextNode, "ab"); (CommentNode, "x"); (TextNode, "cd")] ∧
  strings.Contains "ab" "bc" = false ∧ strings.Contains "cd" "bc" = false ∧
  contains (arena straddle_tree) (entry straddle_tree 1) "bc" = Ret true.
Proof.
  split_and!; [reflexivity..|].
  destruct (contains_across_fragments 0 straddle_tree 1 (entry straddle_tree 1) "bc"
              straddle_constructed eq_refl eq_refl) as (v & _ & -> & ->).
  reflexivity.
Defined.

(** ** C4: equals against the string value *)

(** C4 at a [TextNode]: its string value is the two bytes C3 AA, the
    candidate is the two bytes C3 A9, and [equals] is true.  The loop
    [for i := range s] of the branch for the kinds other than [StartNode] and
    [AttrNode] ranges over a string, so [i] visits the first byte of each
    code point only, and the second byte is never compared.  For the element
    [a], which takes the other branch, [equals] is false. *)
Theorem equals_skips_continuation_bytes :
  ParseDecoder accented = Ret (0, accented_tree) ∧
  kind (entry accented_tree 2) = TextNode ∧
  String_ (arena accented_tree) (entry accented_tree 2) = Ret e_circumflex ∧
  e_circumflex ≠ e_acute ∧
  rune_width e_acute 0 = 2 ∧
  equals (arena accented_tree) (entry accented_tree 2) e_acute = Ret true ∧
  equals (arena accented_tree) (entry accented_tree 1) e_acute = Ret false.
Proof. vm_compute. split_and!; (reflexivity || discriminate). Qed.

(** ** C5: the children list *)

(** C5. In a constructed tree the [down] list of every [StartNode] is exactly
    the list of the entries whose [up] is that node and whose kind is
    [StartNode], [TextNode], [CommentNode] or [ProcInstNode], in the order of
    the node slice; so it holds no [AttrNode], and [up] of each of its
    entries is the node. *)
Theorem children_exact root t p nd :
  constructed root t → arena t !! p = Some nd → kind nd = StartNode →
  children t nd = Some <$> kids (arena t) p ∧
  (∀ c nc, arena t !! c = Some nc → up nc = Some p → eligible (kind nc) = true →
           Some c ∈ children t nd) ∧
  (∀ x, x ∈ children t nd →
        ∃ c nc, x = Some c ∧ arena t !! c = Some nc ∧ up nc = Some p ∧
                kind nc ≠ AttrNode ∧ eligible (kind nc) = true).
Proof.
  intros (_ & ns & e & Hns & Hfin)%constructed_finished Hp Hk.
  pose proof (fin_children ns e t Hfin p nd Hp Hk) as Hc. split; [done|].
  rewrite Hc. split.
  - intros c nc Hnc Hu He. by apply list_elem_of_fmap_2, (kids_elem _ _ _ nc).
  - intros x (c & -> & Hcin)%list_elem_of_fmap.
    apply kids_spec in Hcin as (nc & Hnc & Hu & He).
    exists c, nc. split_and!; try done. intros Ha. by rewrite Ha in He.
Qed.

Lemma children_exact_witness :
  (children sample_tree (entry sample_tree 1) = [Some 3; Some 6; Some 7] ∧
   children sample_tree (entry sample_tree 1) = Some <$> kids (arena sample_tree) 1) ∧
  (children hi_tree (entry hi_tree 5) = [Some 7] ∧
   children hi_tree (entry hi_tree 5) = Some <$> kids (arena hi_tree) 5).
Proof.
  split; (split; [reflexivity|]).
  - apply (children_exact 0 sample_tree 1 (entry sample_tree 1) sample_constructed);
      reflexivity.
  - apply (children_exact 0 hi_tree 5 (entry hi_tree 5) hi_constructed); reflexivity.
Defined.

(** ** C6: when construction succeeds *)

(** C6, as the code has it.  [ParseDecoder] succeeds exactly when some
    [EndNode] leaves no [StartNode] open: it returns the synthetic root at the
    first such [EndNode], whose index becomes the end of the root's range,
    and leaves the entries after it as they were appended.  When no
    [EndNode] does, the result is the error [io.EOF]; there is no panic, so
    no [EndNode] meets an empty stack.  Whenever the rule of the
    specification accepts the events the construction succeeds, and for
    well-nested tokens the root closes at its own [EndNode], the last entry
    of the node slice. *)
Theorem construction_outcome d st :
  read_tokens (Tokens d) (Final d) ([rootNode], []) = Ret st →
  match closing_index 0 0 (kind <$> st.1 ++ [endNode]) with
  | Some e => ∃ t nr, ParseDecoder d = Ret (0, t) ∧ arena t !! 0 = Some nr ∧
                      pos nr = 0 ∧ end_ nr = e ∧ e < length (arena t) ∧
                      ∀ i n, arena t !! i = Some n → e < i → fresh n
  | None => ParseDecoder d = Err EOF
  end ∧
  (spec_accepts 0 (kind <$> st.1 ++ [endNode]) = true →
   ∃ e, closing_index 0 0 (kind <$> st.1 ++ [endNode]) = Some e) ∧
  (balanced 0 (Tokens d) = true →
   closing_index 0 0 (kind <$> st.1 ++ [endNode]) = Some (length st.1)).
Proof.
  intros Hst.
  assert (Hns : events_ok (st.1 ++ [endNode])).
  { apply events_ok_snoc; [|done]. eapply read_tokens_ok; [done|apply events_ok_root]. }
  split_and!.
  - unfold ParseDecoder. rewrite Hst. simpl. by apply link_outcome.
  - destruct Hns as [H0 _]. destruct (st.1 ++ [endNode]) as [|n ns]; [done|].
    injection H0 as ->. simpl. apply spec_accepts_closing.
  - intros Hbal. destruct (read_tokens_kinds _ _ _ _ Hst) as [Hk _]. simpl in Hk.
    rewrite fmap_app, Hk. simpl. rewrite (closing_index_balanced _ 0 1 Hbal).
    f_equal. rewrite <- (length_fmap kind st.1), Hk. done.
Qed.

Lemma construction_outcome_witness :
  ∃ t nr, ParseDecoder sample = Ret (0, t) ∧ arena t !! 0 = Some nr ∧
          pos nr = 0 ∧ end_ nr = 9 ∧ 9 < length (arena t) ∧
          ∀ i n, arena t !! i = Some n → 9 < i → fresh n.
Proof.
  exact (proj1 (construction_outcome sample _ eq_refl)).
Defined.

(** C6, as stated, fails: the first [EndNode] (index 1) empties the stack
    and [ParseDecoder] returns there with success, although the stack is
    then empty when the synthetic root's [EndNode] (index 3) would arrive,
    which the rule of the specification reports as an error; the tree
    returned is truncated, the text at index 2 lying outside the root's
    range. *)
Lemma stray_end_is_accepted :
  ∃ t nr, ParseDecoder stray_end = Ret (0, t) ∧
          length (arena t) = 4 ∧ spec_accepts 0 (kind <$> arena t) = false ∧
          arena t !! 0 = Some nr ∧ end_ nr = 1 ∧ String_ (arena t) nr = Ret "" ∧
          text <$> arena t !! 2 = Some (list_ascii_of_string "x").
Proof. do 2 eexists. vm_compute. split_and!; reflexivity. Qed.

(** ** C7: the string value of a StartNode *)

(** C7. The root that a constructor returns is a [StartNode], and [Bytes]
    (and so [String]) of every [StartNode] of the tree is the concatenation
    of the texts of the [TextNode]s in its range [[pos, end)], in the order of
    the node slice; the text of a [CommentNode] or [ProcInstNode] and the
    value of an [AttrNode] are left out. *)
Theorem start_value root t :
  constructed root t →
  (∃ nr, arena t !! root = Some nr ∧ kind nr = StartNode) ∧
  ∀ i nd, arena t !! i = Some nd → kind nd = StartNode →
    Bytes (arena t) nd
    = Ret (concat (text <$> filter (λ n, kind n = TextNode)
                               (slice (arena t) (pos nd) (end_ nd)))) ∧
    String_ (arena t) nd
    = Ret (string_of_list_ascii
             (concat (text <$> filter (λ n, kind n = TextNode)
                                 (slice (arena t) (pos nd) (end_ nd))))).
Proof.
  intros (-> & ns & e & Hns & Hfin)%constructed_finished. split.
  - destruct (fin_root ns e t Hns Hfin) as (n0 & ? & ? & _). eauto.
  - intros i nd Hi Hk. pose proof (fin_Bytes_start ns e t i nd Hns Hfin Hi Hk) as Hb.
    split; [done|]. unfold String_. rewrite Hk, decide_False by done. by rewrite Hb.
Qed.

Lemma start_value_witness :
  String_ (arena sample_tree) (entry sample_tree 0) = Ret "hello".
Proof.
  destruct (start_value 0 sample_tree sample_constructed) as [_ Hv].
  destruct (Hv 0 (entry sample_tree 0)) as [_ ->]; reflexivity.
Defined.

(** ** C8: ranges *)

(** C8. In a constructed tree every node of the tree that is not a
    [StartNode] has the range [[pos, pos+1)], [pos] being its index; the
    range of a [StartNode] contains the range of each of its descendants and
    begins before it; the ranges of two nodes with the same parent do not
    overlap; and the nodes of the tree are the entries of the root's range
    [[pos, end)] of a kind that the pass links (none is an [EndNode]). *)
Theorem ranges_nested root t :
  constructed root t →
  (∀ i nd, arena t !! i = Some nd → i = root ∨ descendant (arena t) root i →
           kind nd ≠ StartNode → pos nd = i ∧ end_ nd = pos nd + 1) ∧
  (∀ a d na nd, arena t !! a = Some na → arena t !! d = Some nd →
                descendant (arena t) a d →
                kind na = StartNode ∧ pos na < pos nd ∧ pos nd < end_ nd ∧
                end_ nd ≤ end_ na) ∧
  (∀ i j ni nj p, arena t !! i = Some ni → arena t !! j = Some nj → i ≠ j →
                  up ni = Some p → up nj = Some p →
                  end_ ni ≤ pos nj ∨ end_ nj ≤ pos ni) ∧
  (∃ nr, arena t !! root = Some nr ∧
         ∀ i nd, arena t !! i = Some nd →
                 i = root ∨ descendant (arena t) root i ↔
                 live (kind nd) = true ∧ i < end_ nr).
Proof.
  intros (-> & ns & e & Hns & Hfin)%constructed_finished. split_and!.
  - intros i nd Hi Hin Hk.
    assert (Hup : ∃ p, up nd = Some p).
    { destruct Hin as [->|Hd].
      - destruct (fin_root ns e t Hns Hfin) as (n0 & Hn0 & Hk0 & _). congruence.
      - destruct Hd as [d nd' Hd Hu|d nd' p Hd Hu _];
          assert (nd' = nd) as -> by congruence; eauto. }
    destruct Hup as [p Hu].
    destruct (fin_up ns e t Hfin i nd p Hi Hu) as (_ & ? & ? & _).
    destruct (fin_live ns e t Hfin i nd) as (_ & -> & He & _); [done..|].
    by rewrite He.
  - intros a d na nd Ha Hd Hdesc. by eapply descendant_range.
  - intros i j ni nj p Hi Hj Hij Hui Huj.
    destruct (decide (i < j)).
    + left. by eapply (fin_siblings ns e t Hfin i j).
    + right. eapply (fin_siblings ns e t Hfin j i); [done..|lia|done|done].
  - destruct (fin_root ns e t Hns Hfin) as (n0 & Hn0 & _ & _ & _ & _ & He & _).
    exists n0. split; [done|]. intros i nd Hi.
    by rewrite (fin_in_tree ns e t i nd Hns Hfin Hi), He.
Qed.

Lemma ranges_nested_witness :
  (pos (entry sample_tree 4) = 4 ∧ end_ (entry sample_tree 4) = 5) ∧
  (pos (entry sample_tree 1) < pos (entry sample_tree 4) ∧
   end_ (entry sample_tree 4) ≤ end_ (entry sample_tree 1)).
Proof.
  destruct (ranges_nested 0 sample_tree sample_constructed) as (Hleaf & Hdesc & _ & _).
  assert (Hd : descendant (arena sample_tree) 1 4).
  { eapply (descendant_step _ _ 4 (entry sample_tree 4) 3); [reflexivity..|].
    by eapply (descendant_child _ _ 3 (entry sample_tree 3)). }
  split.
  - apply (Hleaf 4 (entry sample_tree 4)); [reflexivity| |discriminate].
    right. eapply (descendant_step _ _ 4 (entry sample_tree 4) 3); [reflexivity..|].
    eapply (descendant_step _ _ 3 (entry sample_tree 3) 1); [reflexivity..|].
    by eapply (descendant_child _ _ 1 (entry sample_tree 1)).
  - destruct (Hdesc 1 4 (entry sample_tree 1) (entry sample_tree 4))
      as (_ & ? & _ & ?); [reflexivity..|done|done].
Defined.

(** ** C9: the empty candidate *)

(** C9. [contains("")] and [startsWith("")] are true for every node, of
    every kind, of every node slice. *)
Theorem empty_candidate store node :
  contains store node "" = Ret true ∧ startsWith store node "" = Ret true.
Proof. split; reflexivity. Qed.

(** * Further properties *)

(** ** The queries, kind by kind *)

(** What [contains] computes on each kind of node of a constructed tree:
    the substring test on the string value for a [StartNode], a [TextNode]
    and an [AttrNode]; for a [CommentNode] and a [ProcInstNode], whether the
    candidate is empty. *)
Theorem contains_by_kind root t i nd s :
  constructed root t → arena t !! i = Some nd →
  i = root ∨ descendant (arena t) root i →
  ∃ v, String_ (arena t) nd = Ret v ∧
       contains (arena t) nd s
       = Ret (match kind nd with
              | CommentNode | ProcInstNode => bool_decide (s = "")
              | _ => strings.Contains v s
              end).
Proof.
  intros (-> & ns & e & Hns & Hfin)%constructed_finished Hi Hin.
  destruct (fin_tree_node ns e t i nd Hns Hfin Hi Hin) as (Hl & Hn & Hp & He & Hlen).
  destruct (decide (kind nd = AttrNode)) as [Ha|Ha].
  { exists (attr nd). unfold String_, contains. rewrite Ha, !decide_True by done.
    split; [done|]. destruct (decide (String.length s = 0)) as [H0|]; [|done].
    destruct s; [|done]. by rewrite Contains_empty. }
  assert (Hc := contains_spec (arena t) nd s Ha (or_introl (conj Hn Hlen))).
  destruct (decide (kind nd = StartNode)) as [Hs|Hs].
  { exists (string_of_list_ascii (range_text (arena t) nd)).
    unfold String_. rewrite decide_False by done.
    rewrite (fin_Bytes_start ns e t i nd Hns Hfin Hi Hs). split; [done|].
    rewrite Hc, span_text_range. by rewrite Hs. }
  exists (string_of_list_ascii (text nd)).
  unfold String_, Bytes. rewrite decide_False by done. rewrite decide_False by done.
  rewrite decide_True by done. split; [done|].
  rewrite Hc, He, Hp by done. replace (i + 1 - i) with 1 by lia.
  rewrite (span_text_1 _ _ _ Hi).
  destruct (decide (kind nd = TextNode)) as [Ht|Ht]; [by rewrite Ht|].
  change (string_of_list_ascii []) with "". rewrite Contains_nil.
  by destruct (kind nd).
Qed.

Lemma contains_by_kind_witness :
  contains (arena sample_tree) (entry sample_tree 6) "lo" = Ret true ∧
  contains (arena sample_tree) (entry sample_tree 7) "c" = Ret false.
Proof.
  assert (H6 : descendant (arena sample_tree) 0 6).
  { eapply (descendant_step _ _ 6 (entry sample_tree 6) 1); [reflexivity..|].
    by eapply (descendant_child _ _ 1 (entry sample_tree 1)). }
  assert (H7 : descendant (arena sample_tree) 0 7).
  { eapply (descendant_step _ _ 7 (entry sample_tree 7) 1); [reflexivity..|].
    by eapply (descendant_child _ _ 1 (entry sample_tree 1)). }
  split.
  - destruct (contains_by_kind 0 sample_tree 6 (entry sample_tree 6) "lo"
                sample_constructed eq_refl (or_intror H6)) as (v & Hv & ->).
    injection Hv as <-. reflexivity.
  - destruct (contains_by_kind 0 sample_tree 7 (entry sample_tree 7) "c"
                sample_constructed eq_refl (or_intror H7)) as (v & Hv & ->).
    reflexivity.
Defined.

(** What [equals] computes on the nodes of a constructed tree: equality with
    the string value, for a [StartNode] and an [AttrNode] whatever the
    candidate, and for the other kinds when the candidate has no multi-byte
    character. *)
Theorem equals_by_kind root t i nd s :
  constructed root t → arena t !! i = Some nd →
  i = root ∨ descendant (arena t) root i →
  kind nd = StartNode ∨ kind nd = AttrNode ∨ ascii_only s →
  ∃ v, String_ (arena t) nd = Ret v ∧
       equals (arena t) nd s = Ret (bool_decide (v = s)).
Proof.
  intros (-> & ns & e & Hns & Hfin)%constructed_finished Hi Hin Hcase.
  destruct (fin_tree_node ns e t i nd Hns Hfin Hi Hin) as (Hl & Hn & Hp & He & Hlen).
  destruct (decide (kind nd = AttrNode)) as [Ha|Ha].
  { exists (attr nd). unfold String_, equals. rewrite !decide_True by done.
    split; [done|]. f_equal. by apply bool_decide_ext. }
  destruct (decide (kind nd = StartNode)) as [Hs|Hs].
  { exists (string_of_list_ascii (range_text (arena t) nd)).
    unfold String_, equals. rewrite !(decide_False (P := kind nd = AttrNode)) by done.
    rewrite (fin_Bytes_start ns e t i nd Hns Hfin Hi Hs). split; [done|].
    rewrite decide_False by (by intros []).
    destruct (decide (end_ nd ≤ pos nd)) as [Hempty|Hlt].
    - replace (end_ nd - pos nd) with 0 by lia. simpl. f_equal.
      unfold range_text, slice. replace (end_ nd - pos nd) with 0 by lia. simpl.
      rewrite length_list_ascii. apply bool_decide_ext. split.
      + intros H0. destruct s; [done|]. done.
      + by intros <-.
    - rewrite equals_range_spec by (done || lia). rewrite drop_0, span_text_range.
      f_equal. apply bool_decide_ext. rewrite string_of_list_ascii_eq. done. }
  destruct Hcase as [?|[?|Hascii]]; [done..|].
  exists (string_of_list_ascii (text nd)).
  unfold String_, Bytes, equals. rewrite !(decide_False (P := kind nd = AttrNode)) by done.
  rewrite !decide_True by done. split; [done|].
  rewrite length_list_ascii.
  destruct (decide (length (list_ascii_of_string s) ≠ length (text nd))) as [Hne|Heq].
  { f_equal. symmetry. apply bool_decide_eq_false. intros <-.
    by rewrite list_ascii_of_string_of_list_ascii in Hne. }
  apply dec_stable in Heq.
  rewrite equals_own_spec by (done || lia). rewrite !drop_0. f_equal.
  apply bool_decide_ext. by rewrite string_of_list_ascii_eq.
Qed.

Lemma equals_by_kind_witness :
  equals (arena sample_tree) (entry sample_tree 1) "hello" = Ret true ∧
  equals (arena sample_tree) (entry sample_tree 7) "c" = Ret true.
Proof.
  assert (H1 : descendant (arena sample_tree) 0 1).
  { by eapply (descendant_child _ _ 1 (entry sample_tree 1)). }
  assert (H7 : descendant (arena sample_tree) 0 7).
  { eapply (descendant_step _ _ 7 (entry sample_tree 7) 1); [reflexivity..|done]. }
  split.
  - destruct (equals_by_kind 0 sample_tree 1 (entry sample_tree 1) "hello"
                sample_constructed eq_refl (or_intror H1) (or_introl eq_refl))
      as (v & Hv & ->).
    injection Hv as <-. reflexivity.
  - assert (Ha : ascii_only "c").
    { apply Forall_singleton. reflexivity. }
    destruct (equals_by_kind 0 sample_tree 7 (entry sample_tree 7) "c"
                sample_constructed eq_refl (or_intror H7) (or_intror (or_intror Ha)))
      as (v & Hv & ->).
    injection Hv as <-. reflexivity.
Defined.

(** What [startsWith] computes on the nodes of a constructed tree: the
    prefix test on the string value for a [TextNode] and an [AttrNode];
    whether the candidate is empty for a [CommentNode] and a [ProcInstNode];
    on a [StartNode] it returns [true] for every prefix of the string
    value (and for other candidates too, as C2 shows). *)
Theorem startsWith_by_kind root t i nd s :
  constructed root t → arena t !! i = Some nd →
  i = root ∨ descendant (arena t) root i →
  ∃ v, String_ (arena t) nd = Ret v ∧
       match kind nd with
       | StartNode =>
           strings.HasPrefix v s = true → startsWith (arena t) nd s = Ret true
       | CommentNode | ProcInstNode =>
           startsWith (arena t) nd s = Ret (bool_decide (s = ""))
       | _ => startsWith (arena t) nd s = Ret (strings.HasPrefix v s)
       end.
Proof.
  intros (-> & ns & e & Hns & Hfin)%constructed_finished Hi Hin.
  destruct (fin_tree_node ns e t i nd Hns Hfin Hi Hin) as (Hl & Hn & Hp & He & Hlen).
  destruct (decide (kind nd = AttrNode)) as [Ha|Ha].
  { exists (attr nd). unfold String_, startsWith. rewrite Ha, !decide_True by done.
    split; [done|]. destruct (decide (String.length s = 0)) as [H0|]; [|done].
    destruct s; [|done]. unfold strings.HasPrefix. by destruct (attr nd). }
  destruct (decide (kind nd = StartNode)) as [Hs|Hs].
  { exists (string_of_list_ascii (range_text (arena t) nd)).
    unfold String_. rewrite decide_False by done.
    rewrite (fin_Bytes_start ns e t i nd Hns Hfin Hi Hs). split; [done|].
    rewrite Hs. unfold strings.HasPrefix. rewrite prefix_match. intros Hm%bool_decide_eq_true.
    unfold startsWith.
    destruct (decide (String.length s = 0)) as [H0|H0]; [done|].
    rewrite decide_False by done.
    rewrite length_list_ascii in H0.
    destruct (decide (end_ nd ≤ pos nd)) as [Hempty|Hlt].
    - unfold range_text, slice in Hm. replace (end_ nd - pos nd) with 0 in Hm by lia.
      simpl in Hm. destruct (list_ascii_of_string s); done.
    - apply startsWith_range_complete; [done|lia|lia|]. by rewrite drop_0. }
  exists (string_of_list_ascii (text nd)).
  unfold String_, Bytes. rewrite decide_False by done. rewrite decide_False by done.
  rewrite decide_True by done. split; [done|].
  assert (Hsw : startsWith (arena t) nd s
                = Ret (if decide (kind nd = TextNode)
                       then strings.HasPrefix (string_of_list_ascii (text nd)) s
                       else bool_decide (s = ""))).
  { unfold startsWith.
    destruct (decide (String.length s = 0)) as [H0|H0].
    { destruct s; [|done]. unfold strings.HasPrefix.
      destruct (decide _); [by destruct (string_of_list_ascii (text nd))|done]. }
    rewrite decide_False by done. rewrite He, Hp by done.
    replace (i + 1 - i) with 1 by lia. simpl. unfold node_at. rewrite Hn, Hi. simpl.
    destruct (decide (kind nd = TextNode)) as [Ht|Ht].
    - rewrite decide_False by (by intros []).
      rewrite length_list_ascii in H0.
      destruct (startsWith_text_spec s (text nd) 0 ltac:(lia)) as (r & -> & Hnone & _).
      simpl. unfold strings.HasPrefix. rewrite prefix_match. rewrite drop_0 in Hnone.
      destruct r as [si|].
      + f_equal. symmetry. apply bool_decide_eq_false. intros Hm%Hnone. done.
      + f_equal. symmetry. apply bool_decide_eq_true. by apply Hnone.
    - rewrite decide_True by done. f_equal. symmetry. apply bool_decide_eq_false.
      intros ->. done. }
  rewrite Hsw.
  destruct (kind nd) eqn:Hk; try done.
Qed.

Lemma startsWith_by_kind_witness :
  startsWith (arena sample_tree) (entry sample_tree 6) "ll" = Ret true ∧
  startsWith (arena sample_tree) (entry sample_tree 0) "hell" = Ret true.
Proof.
  assert (H6 : descendant (arena sample_tree) 0 6).
  { eapply (descendant_step _ _ 6 (entry sample_tree 6) 1); [reflexivity..|].
    by eapply (descendant_child _ _ 1 (entry sample_tree 1)). }
  split.
  - destruct (startsWith_by_kind 0 sample_tree 6 (entry sample_tree 6) "ll"
                sample_constructed eq_refl (or_intror H6)) as (v & Hv & Hs).
    injection Hv as <-. exact Hs.
  - destruct (startsWith_by_kind 0 sample_tree 0 (entry sample_tree 0) "hell"
                sample_constructed eq_refl (or_introl eq_refl)) as (v & Hv & Hs).
    injection Hv as <-. apply Hs. reflexivity.
Defined.

(** ** Well-nested documents *)

(** For well-nested tokens read to the end of the input, [ParseDecoder]
    succeeds; the root's range ends at the last entry of the node slice, the
    synthetic [EndNode]; and the root's string value is the character data
    of the tokens, in order. *)
Theorem well_nested_document d :
  Final d = EOF → balanced 0 (Tokens d) = true →
  ∃ t nr, ParseDecoder d = Ret (0, t) ∧ arena t !! 0 = Some nr ∧
          pos nr = 0 ∧ S (end_ nr) = length (arena t) ∧
          String_ (arena t) nr
          = Ret (string_of_list_ascii (concat (token_text <$> Tokens d))).
Proof.
  intros Hfinal Hbal. unfold ParseDecoder. rewrite Hfinal.
  destruct (read_tokens_EOF (Tokens d) ([rootNode], [])) as [st Hst]. rewrite Hst.
  simpl.
  assert (Hns : events_ok (st.1 ++ [endNode])).
  { apply events_ok_snoc; [|done]. eapply read_tokens_ok; [done|apply events_ok_root]. }
  destruct (read_tokens_kinds _ _ _ _ Hst) as [Hk Ht]. simpl in Hk, Ht.
  pose proof (link_spec _ (proj2 Hns) (proj1 Hns)) as Hl.
  rewrite fmap_app, Hk in Hl. simpl in Hl.
  rewrite (closing_index_balanced _ 0 1 Hbal) in Hl.
  destruct Hl as (t & Hl & Hfin). exists t.
  destruct (fin_root _ _ t Hns Hfin) as (nr & Hnr & Hkr & _ & _ & Hp & He & Hn).
  destruct (fin_length _ _ t Hfin) as [Hlen _].
  assert (Hlst : length st.1 = S (length (concat (token_kinds <$> Tokens d)))).
  { rewrite <- (length_fmap kind), Hk. done. }
  exists nr. split_and!; try done.
  { rewrite Hlen, length_app, Hlst, He. simpl. lia. }
  unfold String_. rewrite decide_False by (by rewrite Hkr).
  rewrite (fin_Bytes_start _ _ t 0 nr Hns Hfin Hnr Hkr). do 2 f_equal.
  unfold range_text, slice. rewrite Hp, He, drop_0, Nat.sub_0_r.
  rewrite (same_static_texts _ (take (1 + length (concat (token_kinds <$> Tokens d)))
                                  (st.1 ++ [endNode]))).
  - rewrite take_app_length' by (by rewrite Hlst). by rewrite Ht.
  - apply Forall2_take. by eapply fin_static.
Qed.

Lemma well_nested_document_witness :
  ∃ t nr, ParseDecoder sample = Ret (0, t) ∧ arena t !! 0 = Some nr ∧
          pos nr = 0 ∧ S (end_ nr) = length (arena t) ∧
          String_ (arena t) nr = Ret "hello".
Proof. exact (well_nested_document sample eq_refl eq_refl). Defined.

(** ** What a constructor returns when its source fails *)

Lemma read_tokens_final toks final : ∀ st,
  final ≠ EOF → read_tokens toks final st = Err final.
Proof.
  induction toks as [|t toks IH]; intros st Hf; simpl; [|by apply IH].
  by destruct final.
Qed.

(** [ParseDecoder] returns a tree whose root is the first entry of the node
    slice, or an error, and never panics: when the decoder ends on an error
    other than [io.EOF], that error is returned whatever tokens came before
    it; otherwise the only error is [io.EOF]. *)
Theorem ParseDecoder_outcomes d :
  match Final d with
  | EOF => (∃ t, ParseDecoder d = Ret (0, t)) ∨ ParseDecoder d = Err EOF
  | e => ParseDecoder d = Err e
  end.
Proof.
  destruct (Final d) as [|msg] eqn:Hf.
  - unfold ParseDecoder. rewrite Hf.
    destruct (read_tokens_EOF (Tokens d) ([rootNode], [])) as [st Hst]. rewrite Hst. simpl.
    assert (Hns : events_ok (st.1 ++ [endNode])).
    { apply events_ok_snoc; [|done]. eapply read_tokens_ok; [done|apply events_ok_root]. }
    pose proof (link_outcome _ Hns) as Hl.
    destruct (closing_index 0 0 (kind <$> st.1 ++ [endNode])); [|by right].
    destruct Hl as (t & _ & -> & _). left. by exists t.
  - unfold ParseDecoder. rewrite Hf. by rewrite read_tokens_final.
Qed.

(** ** The queries return *)

(** Every entry of a finished node slice either has its range inside the
    slice, or has an empty range. *)
Lemma fin_bounds ns e t i nd :
  events_ok ns → Finished ns e t → arena t !! i = Some nd →
  (nodes nd = SharedNodes ∧ end_ nd ≤ length (arena t)) ∨ end_ nd ≤ pos nd.
Proof.
  intros Hns Hfin Hi.
  destruct (decide (i < S e ∧ live (kind nd) = true)) as [[Hlt Hl]|Hno].
  - left. destruct (fin_live ns e t Hfin i nd) as (? & _ & _ & _ & ?); [done..|].
    destruct (fin_length ns e t Hfin). split; [done|lia].
  - right. destruct (fin_fresh ns e t Hfin i nd) as (_ & -> & -> & _); [done| |done].
    destruct (decide (i < S e)); [right|left; lia].
    destruct (live (kind nd)); [|done]. destruct Hno. done.
Qed.

Lemma startsWith_text_returns s text : ∀ si,
  si < String.length s →
  ∃ r, startsWith_text s si text = Ret r ∧ ∀ si', r = Some si' → si' < String.length s.
Proof.
  induction text as [|c text IH]; intros si Hsi.
  - exists (Some si). split; [done|]. by intros ? [= <-].
  - simpl. destruct (String.get si s) as [a|] eqn:Ha; last first.
    { rewrite get_lookup in Ha. apply lookup_ge_None in Ha.
      rewrite <- length_list_ascii in Ha. lia. }
    destruct (decide (c ≠ a)).
    { exists (Some si). split; [done|]. by intros ? [= <-]. }
    destruct (decide (S si = String.length s)).
    { exists None. split; [done|]. done. }
    apply IH. lia.
Qed.

Lemma startsWith_range_returns store node s :
  nodes node = SharedNodes → ∀ count i si,
  i + count ≤ length store → si < String.length s →
  ∃ b, startsWith_range store node s i count si = Ret b.
Proof.
  intros Hn. induction count as [|count IH]; intros i si Hi Hsi; [by eexists|].
  simpl. unfold node_at. rewrite Hn.
  destruct (store !! i) as [n|] eqn:Hni; last first.
  { apply lookup_ge_None in Hni. lia. }
  simpl. destruct (decide (kind n ≠ TextNode)); [apply IH; lia|].
  destruct (startsWith_text_returns s (text n) si Hsi) as (r & -> & Hr). simpl.
  destruct r as [si'|]; [|by eexists]. apply IH; [lia|]. by apply Hr.
Qed.

(** On every entry of the node slice of a constructed tree, whatever its
    kind and whether or not the pass reached it, [Bytes], [String], [equals],
    [contains] and [startsWith] return a value: no index is out of range. *)
Theorem queries_return root t i nd s :
  constructed root t → arena t !! i = Some nd →
  (∃ v, Bytes (arena t) nd = Ret v) ∧ (∃ v, String_ (arena t) nd = Ret v) ∧
  (∃ b, equals (arena t) nd s = Ret b) ∧ (∃ b, contains (arena t) nd s = Ret b) ∧
  (∃ b, startsWith (arena t) nd s = Ret b).
Proof.
  intros (-> & ns & e & Hns & Hfin)%constructed_finished Hi.
  pose proof (fin_bounds ns e t i nd Hns Hfin Hi) as Hb.
  assert (HB : ∃ v, Bytes (arena t) nd = Ret v).
  { destruct (decide (kind nd = StartNode)) as [Hs|Hs].
    - eexists. by eapply fin_Bytes_start.
    - unfold Bytes. destruct (decide (kind nd = AttrNode)); [by eexists|].
      rewrite decide_True by done. by eexists. }
  split_and!.
  - done.
  - unfold String_. destruct (decide (kind nd = AttrNode)); [by eexists|].
    destruct HB as [v ->]. by eexists.
  - unfold equals. destruct (decide (kind nd = AttrNode)); [by eexists|].
    destruct (decide (kind nd ≠ StartNode)).
    + destruct (decide (String.length s ≠ length (text nd))) as [|Heq]; [by eexists|].
      apply dec_stable in Heq. apply equals_own_returns; [done|lia].
    + destruct (decide (end_ nd ≤ pos nd)) as [Hempty|Hlt].
      { replace (end_ nd - pos nd) with 0 by lia. by eexists. }
      destruct Hb as [[Hn Hlen]|?]; [|lia].
      rewrite equals_range_spec by (done || lia). by eexists.
  - destruct (decide (kind nd = AttrNode)) as [Ha|Ha].
    + unfold contains. destruct (decide (String.length s = 0)); [by eexists|].
      rewrite decide_True by done. by eexists.
    + rewrite (contains_spec _ _ s Ha Hb). by eexists.
  - unfold startsWith. destruct (decide (String.length s = 0)); [by eexists|].
    destruct (decide (kind nd = AttrNode)); [by eexists|].
    destruct (decide (end_ nd ≤ pos nd)) as [Hempty|Hlt].
    { replace (end_ nd - pos nd) with 0 by lia. by eexists. }
    destruct Hb as [[Hn Hlen]|?]; [|lia].
    apply startsWith_range_returns; [done|lia|lia].
Qed.

Lemma queries_return_witness :
  (∃ b, equals (arena accented_tree) (entry accented_tree 2) e_acute = Ret b) ∧
  (∃ b, startsWith (arena late_prefix_tree) (entry late_prefix_tree 6) "a" = Ret b).
Proof.
  assert (Ha : constructed 0 accented_tree).
  { left. exists accented. vm_compute. reflexivity. }
  assert (Hl : constructed 0 late_prefix_tree).
  { left. exists late_prefix. vm_compute. reflexivity. }
  split.
  - exact (proj1 (proj2 (proj2 (queries_return 0 accented_tree 2 (entry accented_tree 2)
                                   e_acute Ha eq_refl)))).
  - exact (proj2 (proj2 (proj2 (proj2 (queries_return 0 late_prefix_tree 6
                                   (entry late_prefix_tree 6) "a" Hl eq_refl))))).
Defined.

(** ** A node and its own string value *)

Lemma prefix_refl s : String.prefix s s = true.
Proof. induction s as [|a s IH]; [done|]. simpl. by destruct (ascii_dec a a). Qed.

Lemma Contains_refl v : strings.Contains v v = true.
Proof. destruct v; [done|]. rewrite Contains_cons, prefix_refl. done. Qed.

Lemma match_prefix_refl T : match_prefix T T = Some [].
Proof.
  pose proof (prefix_match (string_of_list_ascii T) T) as H.
  rewrite prefix_refl, list_ascii_of_string_of_list_ascii in H.
  symmetry in H. by apply bool_decide_eq_true in H.
Qed.

Lemma equals_own_self s fuel : ∀ i,
  String.length s - i < fuel → equals_own fuel s (list_ascii_of_string s) i = Ret true.
Proof.
  induction fuel as [|fuel IH]; intros i Hf; [lia|].
  simpl. destruct (decide (String.length s ≤ i)); [done|].
  rewrite <- get_lookup.
  destruct (String.get i s) as [a|] eqn:Ha; last first.
  { rewrite get_lookup in Ha. apply lookup_ge_None in Ha.
    rewrite <- length_list_ascii in Ha. lia. }
  rewrite decide_False by (by intros []).
  apply IH. pose proof (rune_width_pos s i a Ha). lia.
Qed.

(** Every node of a constructed tree equals its own string value:
    [equals(node.String())] is true, whatever the kind and the bytes; and
    for a node that is no comment and no processing instruction,
    [contains(node.String())] and [startsWith(node.String())] are true as
    well. *)
Theorem node_matches_its_value root t i nd v :
  constructed root t → arena t !! i = Some nd →
  i = root ∨ descendant (arena t) root i →
  String_ (arena t) nd = Ret v →
  equals (arena t) nd v = Ret true ∧
  (kind nd ≠ CommentNode → kind nd ≠ ProcInstNode →
   contains (arena t) nd v = Ret true ∧ startsWith (arena t) nd v = Ret true).
Proof.
  intros (-> & ns & e & Hns & Hfin)%constructed_finished Hi Hin Hv.
  destruct (fin_tree_node ns e t i nd Hns Hfin Hi Hin) as (Hl & Hn & Hp & He & Hlen).
  destruct (decide (kind nd = AttrNode)) as [Ha|Ha].
  { unfold String_ in Hv. rewrite decide_True in Hv by done. injection Hv as <-.
    unfold equals, contains, startsWith. rewrite !(decide_True (P := kind nd = AttrNode)) by done.
    split; [by rewrite bool_decide_eq_true_2|]. intros _ _.
    unfold strings.HasPrefix. rewrite Contains_refl, prefix_refl.
    by destruct (decide _). }
  unfold String_ in Hv. rewrite decide_False in Hv by done.
  destruct (decide (kind nd = StartNode)) as [Hs|Hs].
  { rewrite (fin_Bytes_start ns e t i nd Hns Hfin Hi Hs) in Hv. simpl in Hv.
    injection Hv as <-.
    assert (Hb := or_introl (conj Hn Hlen)
              : (nodes nd = SharedNodes ∧ end_ nd ≤ length (arena t)) ∨ end_ nd ≤ pos nd).
    set (v := string_of_list_ascii (range_text (arena t) nd)).
    assert (Hvl : list_ascii_of_string v = range_text (arena t) nd).
    { apply list_ascii_of_string_of_list_ascii. }
    split.
    - unfold equals. rewrite decide_False by done. rewrite decide_False by (by intros []).
      destruct (decide (end_ nd ≤ pos nd)) as [Hempty|Hlt].
      + replace (end_ nd - pos nd) with 0 by lia. simpl. f_equal.
        apply bool_decide_eq_true. rewrite length_list_ascii, Hvl.
        unfold range_text, slice. by replace (end_ nd - pos nd) with 0 by lia.
      + rewrite equals_range_spec by (done || lia).
        rewrite drop_0, span_text_range, Hvl. by rewrite bool_decide_eq_true_2.
    - intros _ _. split.
      + rewrite (contains_spec _ _ v Ha Hb), span_text_range. fold v.
        by rewrite Contains_refl.
      + unfold startsWith. destruct (decide (String.length v = 0)) as [|Hne]; [done|].
        rewrite decide_False by done.
        rewrite length_list_ascii in Hne.
        destruct (decide (end_ nd ≤ pos nd)) as [Hempty|Hlt].
        { rewrite Hvl in Hne. unfold range_text, slice in Hne.
          replace (end_ nd - pos nd) with 0 in Hne by lia. done. }
        apply startsWith_range_complete; [done|lia|lia|].
        rewrite drop_0, span_text_range, Hvl. apply match_prefix_refl. }
  unfold Bytes in Hv. rewrite decide_False in Hv by done.
  rewrite decide_True in Hv by done. simpl in Hv. injection Hv as <-.
  set (v := string_of_list_ascii (text nd)).
  assert (Hvl : list_ascii_of_string v = text nd).
  { apply list_ascii_of_string_of_list_ascii. }
  split.
  - unfold equals. rewrite decide_False by done. rewrite decide_True by done.
    rewrite decide_False by (by rewrite length_list_ascii, Hvl; intros []).
    rewrite <- Hvl. apply equals_own_self. lia.
  - intros Hc Hpi.
    assert (Ht : kind nd = TextNode) by (by destruct (kind nd)).
    split.
    + rewrite (contains_spec _ _ v Ha (or_introl (conj Hn Hlen))).
      rewrite He, Hp by done. replace (i + 1 - i) with 1 by lia.
      rewrite (span_text_1 _ _ _ Hi), decide_True by done. fold v.
      by rewrite Contains_refl.
    + unfold startsWith. destruct (decide (String.length v = 0)) as [|Hne]; [done|].
      rewrite decide_False by done. rewrite He, Hp by done.
      replace (i + 1 - i) with 1 by lia. simpl. unfold node_at. rewrite Hn, Hi. simpl.
      rewrite decide_False by (by intros []).
      rewrite length_list_ascii in Hne.
      destruct (startsWith_text_spec v (text nd) 0 ltac:(lia)) as (r & -> & Hnone & _).
      rewrite drop_0, Hvl in Hnone. rewrite (proj2 Hnone (match_prefix_refl _)). done.
Qed.

Lemma node_matches_its_value_witness :
  equals (arena accented_tree) (entry accented_tree 2) e_circumflex = Ret true ∧
  contains (arena accented_tree) (entry accented_tree 2) e_circumflex = Ret true ∧
  startsWith (arena accented_tree) (entry accented_tree 2) e_circumflex = Ret true.
Proof.
  assert (Ha : constructed 0 accented_tree).
  { left. exists accented. vm_compute. reflexivity. }
  assert (Hd : descendant (arena accented_tree) 0 2).
  { eapply (descendant_step _ _ 2 (entry accented_tree 2) 1); [reflexivity..|].
    by eapply (descendant_child _ _ 1 (entry accented_tree 1)). }
  destruct (node_matches_its_value 0 accented_tree 2 (entry accented_tree 2) e_circumflex
              Ha eq_refl (or_intror Hd) eq_refl) as [He Hcs].
  split; [done|]. by apply Hcs.
Defined.

(** ** Ranges and descendants *)

(** A descendant of [a] is a child of [a] or lies below one. *)
Lemma descendant_top ns a d :
  descendant ns a d →
  ∃ c nc, ns !! c = Some nc ∧ up nc = Some a ∧ (c = d ∨ descendant ns c d).
Proof.
  induction 1 as [d nd Hd Hu|d nd p Hd Hu _ (c & nc & Hc & Hcu & Hcd)].
  - exists d, nd. auto.
  - exists c, nc. split_and!; [done..|]. right. destruct Hcd as [->|Hcd].
    + by eapply descendant_child.
    + by eapply descendant_step.
Qed.

(** Every entry of a linked kind inside the range of a [StartNode] descends
    from it. *)
Lemma fin_range_descendant ns e t :
  events_ok ns → Finished ns e t →
  ∀ j p np nj, arena t !! p = Some np → arena t !! j = Some nj →
    kind np = StartNode → live (kind nj) = true → p < j → j < end_ np →
    descendant (arena t) p j.
Proof.
  intros Hns Hfin j. induction (lt_wf j) as [j _ IH]. intros p np nj Hp Hj Hkp Hlj Hpj Hje.
  assert (Hpe : p < S e).
  { destruct (decide (p < S e)); [done|].
    destruct (fin_fresh ns e t Hfin p np) as (_ & _ & He & _); [done|left; lia|]. lia. }
  destruct (fin_live ns e t Hfin p np Hp) as (_ & _ & _ & _ & Hend); [by rewrite Hkp|done|].
  assert (Hj_lt : j < e).
  { destruct (decide (j = e)) as [->|]; [|lia].
    destruct Hfin as (b & _ & _ & -> & _ & _ & _ & ne & Hne & Hke). simpl in *.
    assert (ne = nj) as -> by congruence. by rewrite Hke in Hlj. }
  assert (Hu : is_Some (up nj)).
  { destruct Hfin as (b & _ & _ & -> & _ & _ & HP & _). simpl in *.
    apply (HP j nj); [done|lia|lia|done]. }
  destruct Hu as [q Hu].
  destruct (fin_up ns e t Hfin j nj q Hj Hu) as (Hqj & _ & _ & nq & Hq & Hkq & _ & _ & Hjq).
  destruct (fin_live ns e t Hfin j nj Hj Hlj) as (_ & _ & _ & Hjend & _); [lia|].
  destruct (decide (q = p)) as [->|Hqp]; [by eapply descendant_child|].
  destruct (decide (p < q)) as [Hlt|Hge].
  { eapply descendant_step; [done..|].
    apply (IH q Hqj p np nq); [done..|by rewrite Hkq|done|lia]. }
  exfalso. assert (Hqp' : q < p) by lia.
  assert (Hd : descendant (arena t) q p).
  { apply (IH p Hpj q nq np); [done..|by rewrite Hkp|done|lia]. }
  destruct (descendant_top _ _ _ Hd) as (c & nc & Hc & Hcu & Hcp).
  assert (Hcle : c ≤ p ∧ end_ np ≤ end_ nc).
  { destruct Hcp as [->|Hcp].
    - assert (nc = np) as -> by congruence. done.
    - destruct (descendant_range ns e t c p Hns Hfin Hcp nc np Hc Hp) as (_ & ? & _ & ?).
      destruct (fin_up ns e t Hfin c nc q Hc Hcu) as (_ & ? & ? & _ & _ & _ & _ & ? & _).
      destruct (fin_live ns e t Hfin p np Hp) as (_ & ? & _); [by rewrite Hkp|done|].
      split; [lia|done]. }
  destruct Hcle as [Hcle Hce].
  pose proof (fin_siblings ns e t Hfin c j nc nj q Hc Hj ltac:(lia) Hcu Hu) as Hs.
  destruct (fin_up ns e t Hfin j nj q Hj Hu) as (_ & _ & _ & _ & _ & _ & _ & Hposj & _).
  lia.
Qed.

(** In a constructed tree the descendants of a [StartNode] are exactly the
    entries of a linked kind (element, attribute, text, comment, processing
    instruction) inside its range, after the node itself: following [up] from
    an entry reaches the node exactly when the entry's index lies in
    [(pos, end)]. *)
Theorem descendants_are_range root t p np j nj :
  constructed root t → arena t !! p = Some np → kind np = StartNode →
  arena t !! j = Some nj →
  descendant (arena t) p j ↔ live (kind nj) = true ∧ p < j ∧ j < end_ np.
Proof.
  intros (-> & ns & e & Hns & Hfin)%constructed_finished Hp Hkp Hj. split.
  - intros Hd.
    destruct (descendant_range ns e t p j Hns Hfin Hd np nj Hp Hj) as (_ & Hlt & Hne & Hle).
    destruct (descendant_top _ _ _ Hd) as (c & nc & Hc & Hcu & _).
    destruct (fin_up ns e t Hfin c nc p Hc Hcu) as (_ & _ & _ & np' & Hp' & _ & Hpos & _).
    assert (np' = np) as -> by congruence.
    assert (Hu : ∃ q, up nj = Some q).
    { destruct Hd as [d nd' Hd Hu|d nd' q Hd Hu _];
        assert (nd' = nj) as -> by congruence; eauto. }
    destruct Hu as [q Hu].
    destruct (fin_up ns e t Hfin j nj q Hj Hu) as (_ & _ & Hl & _ & _ & _ & _ & Hposj & _).
    split; [done|]. lia.
  - intros (Hl & Hlt & Hend). by eapply (fin_range_descendant ns e t Hns Hfin j p np nj).
Qed.

Lemma descendants_are_range_witness :
  descendant (arena sample_tree) 1 4 ∧ ¬ descendant (arena sample_tree) 3 6.
Proof.
  split.
  - apply (descendants_are_range 0 sample_tree 1 (entry sample_tree 1) 4 (entry sample_tree 4)
             sample_constructed eq_refl eq_refl eq_refl).
    vm_compute. split_and!; [reflexivity|lia..].
  - intros Hd.
    apply (descendants_are_range 0 sample_tree 3 (entry sample_tree 3) 6 (entry sample_tree 6)
             sample_constructed eq_refl eq_refl eq_refl) in Hd.
    vm_compute in Hd. lia.
Defined.

(** No [StartNode] after the parent of a node holds the node in its
    range. *)
Lemma fin_innermost ns e t j nj p :
  events_ok ns → Finished ns e t → arena t !! j = Some nj → up nj = Some p →
  ∀ q nq, arena t !! q = Some nq → kind nq = StartNode → q < j → j < end_ nq → q ≤ p.
Proof.
  intros Hns Hfin Hj Hu.
  destruct (fin_up ns e t Hfin j nj p Hj Hu) as (Hpj & Hje & Hl & np & Hp & Hkp & _ & _ & Hle).
  destruct (fin_live ns e t Hfin j nj Hj Hl Hje) as (_ & _ & _ & Hjend & _).
  - intros q nq Hq Hkq Hqj Hjq.
    pose proof (fin_range_descendant ns e t Hns Hfin j q nq nj Hq Hj Hkq Hl Hqj Hjq) as Hd.
    inversion Hd as [d nd Hd' Hu'|d nd p' Hd' Hu' Hdq]; subst;
      assert (nd = nj) as -> by congruence.
    + assert (q = p) by congruence. lia.
    + assert (p' = p) as -> by congruence.
      destruct (descendant_range ns e t q p Hns Hfin Hdq nq np Hq Hp) as (_ & Hlt & _).
      destruct (descendant_top _ _ _ Hdq) as (c & nc & Hc & Hcu & _).
      destruct (fin_up ns e t Hfin c nc q Hc Hcu) as (_ & _ & _ & nq' & Hq' & _ & Hposq & _).
      assert (nq' = nq) as -> by congruence.
      destruct (fin_live ns e t Hfin p np Hp) as (_ & Hposp & _); [by rewrite Hkp|lia|].
      lia.
Qed.

(** In a constructed tree the parent of a node is the innermost element
    around it: [up] is a [StartNode] whose range holds the node, and every
    other [StartNode] whose range holds the node comes before it in the node
    slice (and so holds the parent as well). *)
Theorem parent_is_innermost root t j nj p :
  constructed root t → arena t !! j = Some nj → up nj = Some p →
  (∃ np, arena t !! p = Some np ∧ kind np = StartNode ∧ p < j ∧ j < end_ np) ∧
  ∀ q nq, arena t !! q = Some nq → kind nq = StartNode → q < j → j < end_ nq → q ≤ p.
Proof.
  intros (-> & ns & e & Hns & Hfin)%constructed_finished Hj Hu.
  destruct (fin_up ns e t Hfin j nj p Hj Hu) as (Hpj & Hje & Hl & np & Hp & Hkp & _ & _ & Hle).
  destruct (fin_live ns e t Hfin j nj Hj Hl Hje) as (_ & _ & _ & Hjend & _).
  split.
  - exists np. split_and!; [done..|lia].
  - by eapply fin_innermost.
Qed.

Lemma parent_is_innermost_witness :
  (∃ np, arena sample_tree !! 3 = Some np ∧ kind np = StartNode ∧ 3 < 4 ∧ 4 < end_ np) ∧
  ∀ q nq, arena sample_tree !! q = Some nq → kind nq = StartNode → q < 4 → 4 < end_ nq →
          q ≤ 3.
Proof.
  exact (parent_is_innermost 0 sample_tree 4 (entry sample_tree 4) 3 sample_constructed
           eq_refl eq_refl).
Defined.

(** ** The block of children *)

Lemma fin_window ns e t p np :
  Finished ns e t → arena t !! p = Some np → kind np = StartNode → p < S e →
  length (downs t) = length (arena t) ∧
  ∃ off len, down np = DownPool off len ∧ off + len ≤ length (downs t) ∧
             take len (drop off (downs t)) = Some <$> kids (arena t) p.
Proof.
  intros (b & HI & Hst & -> & _) Hp Hk Hlt. simpl in *.
  split; [by rewrite (inv_len _ _ _ HI), (inv_dlen _ _ _ HI)|].
  destruct (inv_window _ _ _ HI p np) as (off & len & Hd & Hle & Hw); [done..| |].
  { rewrite Hst. by intros ?%elem_of_nil. }
  exists off, len. split_and!; [done| |done].
  destruct (inv_pool _ _ _ HI) as (L & HL & HlenL & _).
  apply (f_equal length) in HL. rewrite length_take, length_fmap, HlenL in HL. lia.
Qed.

(** The [down] lists of a constructed tree are windows of the one block
    [downs] that the constructor allocated: the window of every [StartNode] of
    the tree lies inside the block, so that no [append] has allocated a new
    array, and the windows of two nodes share no entry, so that no [append]
    has written into the list of another node. *)
Theorem down_windows root t :
  constructed root t →
  length (downs t) = length (arena t) ∧
  (∀ p np, arena t !! p = Some np → kind np = StartNode →
           p = root ∨ descendant (arena t) root p →
           ∃ off len, down np = DownPool off len ∧ off + len ≤ length (downs t)) ∧
  (∀ p q np nq offp lenp offq lenq x,
     arena t !! p = Some np → arena t !! q = Some nq → p ≠ q →
     kind np = StartNode → kind nq = StartNode →
     down np = DownPool offp lenp → down nq = DownPool offq lenq →
     offp ≤ x < offp + lenp → ¬ (offq ≤ x < offq + lenq)).
Proof.
  intros (-> & ns & e & Hns & Hfin)%constructed_finished.
  assert (Hwin : ∀ p np off len x, arena t !! p = Some np → kind np = StartNode →
            down np = DownPool off len → off ≤ x < off + len →
            ∃ c nc, arena t !! c = Some nc ∧ up nc = Some p ∧ downs t !! x = Some (Some c)).
  { intros p np off len x Hp Hk Hd Hx.
    destruct (decide (p < S e)) as [Hlt|Hge]; last first.
    { destruct (fin_fresh ns e t Hfin p np) as (_ & _ & _ & _ & Hdn); [done|left; lia|].
      congruence. }
    destruct (fin_window ns e t p np Hfin Hp Hk Hlt) as (_ & off' & len' & Hd' & _ & Hw).
    rewrite Hd in Hd'. injection Hd' as <- <-.
    assert (Hlk : take len (drop off (downs t)) !! (x - off) = downs t !! x).
    { rewrite lookup_take_lt by lia. rewrite lookup_drop. f_equal. lia. }
    rewrite Hw, list_lookup_fmap in Hlk.
    destruct (kids (arena t) p !! (x - off)) as [c|] eqn:Hc; last first.
    { apply lookup_ge_None in Hc. apply (f_equal length) in Hw.
      rewrite length_fmap, length_take, length_drop in Hw.
      destruct (fin_window ns e t p np Hfin Hp Hk Hlt) as (_ & o & l & Hd'' & Hle & _).
      rewrite Hd in Hd''. injection Hd'' as <- <-. lia. }
    apply list_elem_of_lookup_2, kids_spec in Hc as (nc & Hnc & Hu & _).
    exists c, nc. split_and!; [done..|]. by rewrite <- Hlk. }
  split_and!.
  - destruct (fin_root ns e t Hns Hfin) as (n0 & Hn0 & Hk0 & _).
    by destruct (fin_window ns e t 0 n0 Hfin Hn0 Hk0 ltac:(lia)).
  - intros p np Hp Hk Hin.
    apply (fin_in_tree ns e t p np Hns Hfin Hp) in Hin as [_ Hlt].
    destruct (fin_window ns e t p np Hfin Hp Hk ltac:(lia)) as (_ & off & len & ? & ? & _).
    eauto.
  - intros p q np nq offp lenp offq lenq x Hp Hq Hpq Hkp Hkq Hdp Hdq Hxp Hxq.
    destruct (Hwin p np offp lenp x Hp Hkp Hdp Hxp) as (c & nc & Hc & Hcu & Hcx).
    destruct (Hwin q nq offq lenq x Hq Hkq Hdq Hxq) as (c' & nc' & Hc' & Hcu' & Hcx').
    congruence.
Qed.

Lemma down_windows_witness :
  ∃ off len, down (entry sample_tree 1) = DownPool off len ∧
             off + len ≤ length (downs sample_tree).
Proof.
  destruct (down_windows 0 sample_tree sample_constructed) as (_ & Hw & _).
  apply (Hw 1 (entry sample_tree 1)); [reflexivity..|].
  right. by eapply (descendant_child _ _ 1 (entry sample_tree 1)).
Defined.

(** ** The node slice, entry by entry *)

Lemma foldl_snoc_fmap {A B} (f : A → B) (l : list A) : ∀ acc,
  foldl (λ nodes a, nodes ++ [f a]) acc l = acc ++ (f <$> l).
Proof.
  induction l as [|a l IH]; intros acc; simpl; [by rewrite app_nil_r|].
  by rewrite IH, <- app_assoc.
Qed.

Lemma read_token_nodes t st : (read_token t st).1 = st.1 ++ token_nodes t.
Proof.
  destruct t; simpl; rewrite ?slice_app_length, ?app_nil_r; try done.
  by rewrite foldl_snoc_fmap, <- app_assoc.
Qed.

Lemma read_tokens_nodes toks final : ∀ st st',
  read_tokens toks final st = Ret st' → st'.1 = st.1 ++ concat (token_nodes <$> toks).
Proof.
  induction toks as [|t toks IH]; intros st st' Hr; simpl in Hr.
  - destruct final; [|done]. injection Hr as <-. simpl. by rewrite app_nil_r.
  - rewrite (IH _ _ Hr), read_token_nodes. simpl. by rewrite <- app_assoc.
Qed.

(** The node slice that [ParseDecoder] returns holds, entry by entry, the
    synthetic root, the nodes of the tokens in the order read (each element
    followed by its attributes with their names and values, each text,
    comment and processing instruction with its own bytes, nothing for a
    directive) and the synthetic end: the text spans cut from the shared
    buffer are the bytes of their tokens, and the pass that links the nodes
    changes no kind, name, attribute value or text. *)
Theorem store_of_tokens d root t :
  ParseDecoder d = Ret (root, t) →
  Forall2 same_static (arena t)
    (rootNode :: concat (token_nodes <$> Tokens d) ++ [endNode]).
Proof.
  intros Hd. unfold ParseDecoder in Hd.
  destruct (read_tokens _ _ _) as [st| | |] eqn:Hst; try done. simpl in Hd.
  assert (Hns : events_ok (st.1 ++ [endNode])).
  { apply events_ok_snoc; [|done]. eapply read_tokens_ok; [done|apply events_ok_root]. }
  destruct (link_finished _ root t Hns Hd) as (_ & e & _ & Hfin).
  pose proof (fin_static _ _ _ Hfin) as Hs.
  by rewrite (read_tokens_nodes _ _ _ _ Hst) in Hs.
Qed.

Lemma store_of_tokens_witness :
  (λ n, (kind n, xml.Local (name n), attr n, string_of_list_ascii (text n)))
    <$> arena sample_tree
  = [(StartNode, "", "", ""); (StartNode, "a", "", ""); (AttrNode, "x", "1", "");
     (StartNode, "b", "", ""); (TextNode, "", "", "he"); (EndNode, "", "", "");
     (TextNode, "", "", "llo"); (CommentNode, "", "", "c"); (EndNode, "", "", "");
     (EndNode, "", "", "")] ∧
  Forall2 same_static (arena sample_tree)
    (rootNode :: concat (token_nodes <$> Tokens sample) ++ [endNode]).
Proof.
  split; [reflexivity|]. apply (store_of_tokens sample 0). reflexivity.
Defined.

(** ** Invariants carried along the linking pass *)

Section link_also.

Variable ns0 : list Node.
Hypothesis ns0_fresh : Forall fresh ns0.
Hypothesis ns0_root : ns0 !! 0 = Some rootNode.

Variable Q : nat → Builder → Prop.

Hypothesis Q_open : ∀ k b nd,
  Inv ns0 k b → (0 < k → bstack b ≠ []) → Q k b → bnodes b !! k = Some nd →
  live (kind nd) = true → Q (S k) (open_node k nd b).
Hypothesis Q_skip : ∀ k b nd,
  Inv ns0 k b → Q k b → bnodes b !! k = Some nd → kind nd = AnyNode → Q (S k) b.
Hypothesis Q_close : ∀ k b nd p st' np,
  Inv ns0 k b → Q k b → bnodes b !! k = Some nd → kind nd = EndNode →
  bstack b = p :: st' → bnodes b !! p = Some np → Q (S k) (closed k b p np).

Lemma link_loop_also count : ∀ k b root t,
  Inv ns0 k b → Q k b → (0 < k → 0 ∈ bstack b) → k + count = length ns0 →
  link_loop k count b = Ret (root, t) →
  ∃ e b', Inv ns0 (S e) b' ∧ bstack b' = [] ∧ Q (S e) b' ∧
          t = mkTree (bnodes b') (bdowns b').
Proof.
  induction count as [|count IH]; intros k b root t HI HQ Hrun Hk Hl; [done|].
  cbn [link_loop] in Hl.
  destruct (bnodes b !! k) as [nd|] eqn:Hnd; [|done].
  destruct (inv_static _ _ _ HI k nd Hnd) as (n0 & Hn0 & Hkind & _).
  assert (Hk0 : k = 0 → kind nd = StartNode).
  { intros ->. rewrite Hkind. rewrite ns0_root in Hn0. by injection Hn0 as <-. }
  assert (Hne : 0 < k → bstack b ≠ []).
  { intros Hpos Hnil. specialize (Hrun Hpos). rewrite Hnil in Hrun.
    by apply elem_of_nil in Hrun. }
  assert (Hopen : live (kind nd) = true →
            link_loop (S k) count (open_node k nd b) = Ret (root, t) →
            ∃ e b', Inv ns0 (S e) b' ∧ bstack b' = [] ∧ Q (S e) b' ∧
                    t = mkTree (bnodes b') (bdowns b')).
  { intros Hlv Hl'. eapply (IH (S k)); [by eapply Inv_open|by eapply Q_open| |lia|done].
    intros _. rewrite open_node_eq. cbn [bstack].
    destruct (decide (kind nd = StartNode)) as [Hs|Hs].
    - destruct (decide (k = 0)) as [->|]; [left|]. right. apply Hrun. lia.
    - apply Hrun. destruct (decide (k = 0)) as [?%Hk0|]; [congruence|lia]. }
  destruct (kind nd) eqn:Hkd; try (by apply Hopen).
  - eapply (IH (S k)); [by eapply Inv_skip; [done..|by rewrite Hkd]|by eapply Q_skip| |lia|done].
    intros _. apply Hrun. destruct (decide (k = 0)) as [?%Hk0|]; [congruence|lia].
  - assert (Hkpos : 0 < k).
    { destruct (decide (k = 0)) as [?%Hk0|]; [congruence|lia]. }
    destruct (bstack b) as [|p st'] eqn:Hstack.
    { specialize (Hrun Hkpos). by apply elem_of_nil in Hrun. }
    destruct (chain_elem _ _ p (inv_chain _ _ _ HI)) as (np & Hnp & _);
      [rewrite Hstack; left|].
    rewrite (close_node_spec ns0 k b p st' np) in Hl by (done || lia).
    cbn [mbind outcome_mbind outcome_bind fst snd] in Hl.
    assert (HI' : Inv ns0 (S k) (closed k b p np)).
    { eapply Inv_close; [done..|by rewrite Hkd|done|done]. }
    assert (HQ' : Q (S k) (closed k b p np)).
    { eapply Q_close; [done..|by rewrite Hkd|done|done]. }
    destruct st' as [|p' st''].
    + injection Hl as <- <-. exists k, (closed k b p np). split_and!; [done| |done..].
      unfold closed. cbn [bstack]. by rewrite Hstack.
    + eapply (IH (S k)); [done..| |lia|done].
      intros _. unfold closed. cbn [bstack]. rewrite Hstack. cbn [tail].
      specialize (Hrun Hkpos).
      apply elem_of_cons in Hrun as [Hp0|Hrun]; [|done].
      pose proof (inv_sorted _ _ _ HI) as Hsorted. rewrite Hstack in Hsorted.
      destruct Hsorted as [Hbelow _]. specialize (Hbelow p' ltac:(left)). lia.
Qed.

Lemma link_also root t :
  Q 0 (mkBuilder ns0 [] (replicate (length ns0) None) 0) →
  link ns0 = Ret (root, t) →
  ∃ e b', Inv ns0 (S e) b' ∧ bstack b' = [] ∧ Q (S e) b' ∧
          t = mkTree (bnodes b') (bdowns b').
Proof.
  intros HQ Hl. eapply (link_loop_also (length ns0) 0); [by apply Inv_init|done| |done|done].
  lia.
Qed.

End link_also.

(** ** Attributes follow their element *)

Lemma attr_led_app ks ks' : attr_led ks → attr_led ks' → attr_led (ks ++ ks').
Proof.
  intros H1 H2 i Hi. destruct (decide (i < length ks)) as [Hlt|Hge].
  - rewrite lookup_app_l in Hi by done. destruct (H1 i Hi) as (j & k & -> & Hj & Hk).
    exists j, k. split_and!; [done| |done]. by apply lookup_app_l_Some.
  - rewrite lookup_app_r in Hi by lia. destruct (H2 _ Hi) as (j & k & Hij & Hj & Hk).
    exists (length ks + j), k. split_and!; [lia| |done].
    rewrite lookup_app_r by lia. rewrite <- Hj. f_equal. lia.
Qed.

Lemma attr_led_one k : k ≠ AttrNode → attr_led [k].
Proof. intros Hk [|[|i]] Hi; simpl in Hi; congruence. Qed.

Lemma attr_led_element n : attr_led (StartNode :: replicate n AttrNode).
Proof.
  intros [|i] Hi; [done|]. simpl in Hi. exists i. destruct i as [|i].
  - exists StartNode. auto.
  - exists AttrNode. split_and!; [done| |by right]. simpl.
    apply lookup_replicate in Hi as [_ Hi]. apply lookup_replicate. split; [done|lia].
Qed.

Lemma attr_led_nil : attr_led [].
Proof. by intros i Hi. Qed.

Lemma token_kinds_led t : attr_led (token_kinds t).
Proof.
  destruct t; simpl; try (by apply attr_led_one); [apply attr_led_element|apply attr_led_nil].
Qed.

Lemma read_tokens_led toks final : ∀ st st',
  read_tokens toks final st = Ret st' → attr_led (kind <$> st.1) → attr_led (kind <$> st'.1).
Proof.
  induction toks as [|t toks IH]; intros st st' Hr Hst; simpl in Hr.
  - destruct final; [|done]. by injection Hr as <-.
  - eapply IH; [done|]. rewrite read_token_kinds.
    apply attr_led_app; [done|apply token_kinds_led].
Qed.





Section attr_runs.

Variable ns0 : list Node.
Hypothesis ns0_fresh : Forall fresh ns0.
Hypothesis ns0_led : attr_led (kind <$> ns0).

Lemma AttrRuns_init : AttrRuns 0 (mkBuilder ns0 [] (replicate (length ns0) None) 0).
Proof.
  split; simpl; [|done]. intros i n p Hi _ Hu.
  destruct (Forall_lookup_1 _ _ _ _ ns0_fresh Hi) as (_ & _ & _ & Hup & _). congruence.
Qed.

Lemma AttrRuns_open k b nd :
  Inv ns0 k b → (0 < k → bstack b ≠ []) → AttrRuns k b → bnodes b !! k = Some nd →
  live (kind nd) = true → AttrRuns (S k) (open_node k nd b).
Proof.
  intros HI Hne [H1 H2] Hk Hl. rewrite open_node_eq.
  assert (Hklen : k < length (bnodes b)) by (by eapply lookup_lt_Some).
  assert (Hup : up (opened k nd (bstack b)) = head (bstack b)).
  { unfold opened. simpl. destruct (bstack b); [|done].
    by destruct (inv_later _ _ _ HI k nd Hk ltac:(lia)) as (_ & _ & _ & ? & _). }
  split; cbn [bnodes bstack].
  - intros i n p Hi Hka Hu. destruct (decide (i = k)) as [->|Hik].
    + rewrite list_lookup_insert_eq in Hi by done. injection Hi as <-.
      rewrite Hup in Hu. cbn [kind opened] in Hka.
      destruct (inv_static _ _ _ HI k nd Hk) as (n0 & Hn0 & Hkind & _).
      destruct (ns0_led k) as (j & kj & -> & Hj & Hkj).
      { rewrite list_lookup_fmap, Hn0. simpl. by rewrite <- Hkind, Hka. }
      rewrite list_lookup_fmap in Hj.
      destruct (ns0 !! j) as [mj|] eqn:Hmj; [|done]. injection Hj as <-.
      destruct (bnodes b !! j) as [m|] eqn:Hm; last first.
      { apply lookup_ge_None in Hm. lia. }
      destruct (inv_static _ _ _ HI j m Hm) as (mj' & Hmj' & Hkm & _).
      assert (mj' = mj) as -> by congruence.
      destruct (H2 j m eq_refl Hm) as [Hs Ha].
      exists j, m. split_and!; [done|by rewrite list_lookup_insert_ne by lia|].
      destruct Hkj as [Hkj|Hkj]; rewrite <- Hkm in Hkj.
      * left. split; [done|]. specialize (Hs Hkj). congruence.
      * right. split; [done|]. rewrite (Ha Hkj). done.
    + rewrite list_lookup_insert_ne in Hi by done.
      destruct (H1 i n p Hi Hka Hu) as (j & m & -> & Hm & Hcase).
      destruct (inv_up _ _ _ HI _ _ _ Hi Hu) as (_ & ? & _).
      exists j, m. split_and!; [done| |done]. by rewrite list_lookup_insert_ne by lia.
  - intros j m [= <-] Hm. rewrite list_lookup_insert_eq in Hm by done. injection Hm as <-.
    cbn [kind opened]. split.
    + intros Hs. by rewrite decide_True.
    + intros Ha. rewrite decide_False by congruence. done.
Qed.

Lemma AttrRuns_skip k b nd :
  Inv ns0 k b → AttrRuns k b → bnodes b !! k = Some nd → kind nd = AnyNode →
  AttrRuns (S k) b.
Proof.
  intros HI [H1 H2] Hk Hany. split; [done|].
  intros j m [= <-] Hm. assert (m = nd) as -> by congruence. rewrite Hany. done.
Qed.

Lemma AttrRuns_close k b nd p st' np :
  Inv ns0 k b → AttrRuns k b → bnodes b !! k = Some nd → kind nd = EndNode →
  bstack b = p :: st' → bnodes b !! p = Some np → AttrRuns (S k) (closed k b p np).
Proof.
  intros HI [H1 H2] Hk Hend Hst Hp. unfold closed. cbv zeta. unfold AttrRuns.
  cbn [bnodes bstack].
  assert (Hplen : p < length (bnodes b)) by (by eapply lookup_lt_Some).
  assert (Hkp : kind np = StartNode).
  { destruct (chain_elem _ _ p (inv_chain _ _ _ HI)) as (n & Hn & Hkn); [rewrite Hst; left|].
    congruence. }
  assert (Hpk : p < k) by (apply (inv_stack_lt _ _ _ HI); rewrite Hst; left).
  set (np' := set_down _ (set_end k np)).
  assert (Hlk : ∀ i n, <[p:=np']> (bnodes b) !! i = Some n →
            ∃ n', bnodes b !! i = Some n' ∧ kind n' = kind n ∧ up n' = up n).
  { intros i n Hi. destruct (decide (i = p)) as [->|Hip].
    - rewrite list_lookup_insert_eq in Hi by done. injection Hi as <-. by exists np.
    - rewrite list_lookup_insert_ne in Hi by done. by exists n. }
  assert (Hlk' : ∀ i n, bnodes b !! i = Some n →
            ∃ n', <[p:=np']> (bnodes b) !! i = Some n' ∧ kind n' = kind n ∧ up n' = up n).
  { intros i n Hi. destruct (decide (i = p)) as [->|Hip].
    - rewrite list_lookup_insert_eq by done. assert (n = np) as -> by congruence.
      by exists np'.
    - rewrite list_lookup_insert_ne by done. by exists n. }
  split.
  - intros i n q Hi Hka Hu. destruct (Hlk i n Hi) as (n' & Hn' & Hk' & Hu').
    destruct (H1 i n' q Hn') as (j & m & -> & Hm & Hcase); [congruence..|].
    destruct (Hlk' j m Hm) as (m' & Hm' & Hkm & Hum).
    exists j, m'. split_and!; [done..|]. rewrite Hkm, Hum. done.
  - intros j m [= <-] Hm. rewrite list_lookup_insert_ne in Hm by lia.
    assert (m = nd) as -> by congruence. rewrite Hend. done.
Qed.

End attr_runs.

(** An [AttrNode] with a parent comes directly after its parent or after
    another attribute of its parent. *)
Lemma link_attr_runs ns root t :
  events_ok ns → attr_led (kind <$> ns) → link ns = Ret (root, t) →
  ∀ i n p, arena t !! i = Some n → kind n = AttrNode → up n = Some p →
    ∃ j m, i = S j ∧ arena t !! j = Some m ∧
           ((kind m = StartNode ∧ p = j) ∨ (kind m = AttrNode ∧ up m = Some p)).
Proof.
  intros [Hroot Hfresh] Hled Hl.
  destruct (link_also ns Hfresh Hroot AttrRuns) with (root := root) (t := t)
    as (e & b & _ & _ & [H1 _] & ->);
    [by apply AttrRuns_open|by apply AttrRuns_skip|by apply AttrRuns_close
    |by apply AttrRuns_init|done|].
  done.
Qed.



(** ** Where an element closes *)

Section closes.

Variable ns0 : list Node.

Let ks := kind <$> ns0.

Lemma ks_lookup k b nd :
  Inv ns0 k b → bnodes b !! k = Some nd → drop k ks = kind nd :: drop (S k) ks.
Proof.
  intros HI Hk. destruct (inv_static _ _ _ HI k nd Hk) as (n0 & Hn0 & Hkind & _).
  apply drop_S. unfold ks. by rewrite list_lookup_fmap, Hn0, Hkind.
Qed.

Lemma Closes_init : Closes ks 0 (mkBuilder ns0 [] (replicate (length ns0) None) 0).
Proof. split; simpl; [intros; lia|done]. Qed.

Lemma Closes_open k b nd :
  Inv ns0 k b → Closes ks k b → bnodes b !! k = Some nd → live (kind nd) = true →
  Closes ks (S k) (open_node k nd b).
Proof.
  intros HI [H1 H2] Hk Hl. rewrite open_node_eq.
  assert (Hklen : k < length (bnodes b)) by (by eapply lookup_lt_Some).
  pose proof (ks_lookup k b nd HI Hk) as Hks.
  split; cbn [bnodes bstack].
  - intros i n Hi Hs Hlt Hnin. destruct (decide (i = k)) as [->|Hik].
    + rewrite list_lookup_insert_eq in Hi by done. injection Hi as <-.
      cbn [kind opened] in Hs. rewrite decide_True in Hnin by done.
      destruct Hnin. left.
    + rewrite list_lookup_insert_ne in Hi by done. apply H1; [done..|lia|].
      intros Hin. apply Hnin. destruct (decide _); [by right|done].
  - intros d s Hd. destruct (decide (kind nd = StartNode)) as [Hs|Hs].
    + destruct d as [|d]; simpl in Hd.
      * injection Hd as <-. by rewrite Hks, Hs.
      * rewrite (H2 d s Hd), Hks, Hs. done.
    + rewrite (H2 d s Hd), Hks. destruct (kind nd); done.
Qed.

Lemma Closes_skip k b nd :
  Inv ns0 k b → Closes ks k b → bnodes b !! k = Some nd → kind nd = AnyNode →
  Closes ks (S k) b.
Proof.
  intros HI [H1 H2] Hk Hany. pose proof (ks_lookup k b nd HI Hk) as Hks. split.
  - intros i n Hi Hs Hlt Hnin. apply H1; [done..| |done].
    destruct (decide (i = k)) as [->|]; [|lia]. congruence.
  - intros d s Hd. by rewrite (H2 d s Hd), Hks, Hany.
Qed.

Lemma Closes_close k b nd p st' np :
  Inv ns0 k b → Closes ks k b → bnodes b !! k = Some nd → kind nd = EndNode →
  bstack b = p :: st' → bnodes b !! p = Some np → Closes ks (S k) (closed k b p np).
Proof.
  intros HI [H1 H2] Hk Hend Hst Hp. pose proof (ks_lookup k b nd HI Hk) as Hks.
  unfold closed, Closes. cbv zeta. cbn [bnodes bstack]. rewrite Hst. cbn [tail].
  assert (Hplen : p < length (bnodes b)) by (by eapply lookup_lt_Some).
  pose proof (inv_sorted _ _ _ HI) as Hsorted. rewrite Hst in Hsorted.
  destruct Hsorted as [Hbelow _].
  split.
  - intros i n Hi Hs Hlt Hnin. destruct (decide (i = p)) as [->|Hip].
    + rewrite list_lookup_insert_eq in Hi by done. injection Hi as <-. simpl.
      rewrite (H2 0 p) by (by rewrite Hst). by rewrite Hks, Hend.
    + rewrite list_lookup_insert_ne in Hi by done. apply H1; [done..| |].
      * destruct (decide (i = k)) as [->|]; [|lia]. congruence.
      * rewrite Hst. intros [->|Hin]%elem_of_cons; done.
  - intros d s Hd. rewrite (H2 (S d) s) by (by rewrite Hst). by rewrite Hks, Hend.
Qed.

End closes.

(** The range of a [StartNode] that the pass has linked ends where
    [closing_index] finds its end. *)
Lemma link_closes ns root t i n :
  events_ok ns → link ns = Ret (root, t) →
  arena t !! i = Some n → kind n = StartNode → i = 0 ∨ is_Some (up n) →
  closing_index 0 i (kind <$> drop i (arena t)) = Some (end_ n).
Proof.
  intros [Hroot Hfresh] Hl Hi Hk Hin.
  destruct (link_also ns Hfresh Hroot (Closes (kind <$> ns))) with (root := root) (t := t)
    as (e & b & HI & Hst & [H1 _] & ->);
    [intros; by eapply Closes_open|by apply Closes_skip|by apply Closes_close
    |by apply Closes_init|done|].
  simpl in *.
  assert (Hks : kind <$> bnodes b = kind <$> ns).
  { apply list_eq. intros j. rewrite !list_lookup_fmap.
    destruct (bnodes b !! j) as [nj|] eqn:Hj.
    - destruct (inv_static _ _ _ HI j nj Hj) as (n0 & Hn0 & Hkk & _).
      rewrite Hn0. simpl. by rewrite Hkk.
    - apply lookup_ge_None in Hj. rewrite (inv_len _ _ _ HI) in Hj.
      apply lookup_ge_None in Hj. by rewrite Hj. }
  rewrite fmap_drop, Hks. apply H1; [done..| |].
  - destruct Hin as [->|[p Hu]]; [lia|].
    by destruct (inv_up _ _ _ HI i n p Hi Hu) as (_ & ? & _).
  - rewrite Hst. by intros ?%elem_of_nil.
Qed.

(** In a constructed tree the range of every element ends at the
    [EndNode] that closes it: counting from the element, the first
    [EndNode] at which every [StartNode] met since is closed again. *)
Theorem element_end root t i n :
  constructed root t → arena t !! i = Some n → kind n = StartNode →
  i = root ∨ descendant (arena t) root i →
  closing_index 0 i (kind <$> drop i (arena t)) = Some (end_ n).
Proof.
  intros Hc Hi Hk Hin.
  destruct (constructed_finished _ _ Hc) as (-> & _).
  destruct (constructed_link _ _ Hc) as (ns & Hns & Hl).
  apply (link_closes ns 0 t i n Hns Hl Hi Hk).
  destruct Hin as [->|Hd]; [by left|right].
  destruct Hd as [d nd' Hd Hu|d nd' p Hd Hu _];
    assert (nd' = n) as -> by congruence; eauto.
Qed.

Lemma element_end_witness :
  closing_index 0 3 (kind <$> drop 3 (arena sample_tree)) = Some 5 ∧
  end_ (entry sample_tree 3) = 5.
Proof.
  split; [|reflexivity].
  apply (element_end 0 sample_tree 3 (entry sample_tree 3) sample_constructed);
    [reflexivity..|].
  right. eapply (descendant_step _ _ 3 (entry sample_tree 3) 1); [reflexivity..|].
  by eapply (descendant_child _ _ 1 (entry sample_tree 1)).
Defined.

(** ** ParseHTML on a parsed document *)

Lemma forest_tokens_cons h f : forest_tokens (h :: f) = html_tokens h ++ forest_tokens f.
Proof. done. Qed.

Lemma html_tokens_eq ty data space attrs kids :
  html_tokens (HtmlNode ty data space attrs kids)
  = match ty with
    | html.ElementNode =>
        xml.StartElement (xml.mkName space data)
          ((λ a, xml.mkAttr (xml.mkName (html.AttrNamespace a) (html.Key a)) (html.Val a))
             <$> attrs)
          :: forest_tokens kids ++ [xml.EndElement (xml.mkName space data)]
    | html.TextNode => xml.CharData (list_ascii_of_string data) :: forest_tokens kids
    | html.CommentNode => xml.Comment (list_ascii_of_string data) :: forest_tokens kids
    | _ => forest_tokens kids
    end.
Proof.
  assert (Hgo : (fix go (l : list Html) : list xml.Token :=
                   match l with
                   | [] => []
                   | k :: l' => html_tokens k ++ go l'
                   end) kids = forest_tokens kids).
  { induction kids as [|k kids IH]; [done|]. by rewrite forest_tokens_cons, <- IH. }
  simpl. rewrite Hgo. done.
Qed.

Lemma html_text_eq ty data space attrs kids :
  html_text (HtmlNode ty data space attrs kids)
  = (if decide (ty = html.TextNode) then list_ascii_of_string data else [])
    ++ forest_text kids.
Proof.
  assert (Hgo : (fix go (l : list Html) : list ascii :=
                   match l with
                   | [] => []
                   | k :: l' => html_text k ++ go l'
                   end) kids = forest_text kids).
  { induction kids as [|k kids IH]; [done|].
    change (forest_text (k :: kids)) with (html_text k ++ forest_text kids).
    by rewrite <- IH. }
  simpl. rewrite Hgo. done.
Qed.

Lemma Html_forest_ind (P : Html → Prop) :
  (∀ ty data space attrs kids, Forall P kids → P (HtmlNode ty data space attrs kids)) →
  ∀ h, P h.
Proof.
  intros H. fix IH 1. intros [ty data space attrs kids]. apply H.
  induction kids as [|k kids IHk]; constructor; [apply IH|apply IHk].
Qed.

Lemma read_all_app toks toks' st :
  read_all (toks ++ toks') st = read_all toks' (read_all toks st).
Proof. apply foldl_app. Qed.

Lemma read_tokens_all toks : ∀ st, read_tokens toks EOF st = Ret (read_all toks st).
Proof. induction toks as [|t toks IH]; intros st; [done|]. apply IH. Qed.

(** [html_open] is [read_token] on the token that begins the node. *)
Lemma html_open_tokens hn kids st rest :
  read_all (html_tokens (HtmlNode (html.Type_ hn) (html.Data hn) (html.Namespace hn)
                            (html.Attr hn) kids) ++ rest) st
  = read_all rest
      (let st2 := read_all (forest_tokens kids) (html_open hn st) in
       (if decide (html.Type_ hn = html.ElementNode) then st2.1 ++ [endNode] else st2.1,
        st2.2)).
Proof.
  rewrite read_all_app. f_equal. rewrite html_tokens_eq. unfold html_open.
  destruct (html.Type_ hn) eqn:Hty; simpl.
  - by destruct (read_all _ _).
  - by destruct (read_all _ _).
  - by destruct (read_all _ _).
  - change (read_all (?t :: ?l) ?s) with (read_all l (read_token t s)).
    rewrite read_all_app. simpl. rewrite !foldl_snoc_fmap, <- list_fmap_compose. done.
  - by destruct (read_all _ _).
  - by destruct (read_all _ _).
  - by destruct (read_all _ _).
Qed.

Lemma climbs_nil heap nodes : climbs heap None nodes (None, nodes).
Proof. exists 0. by intros [|fuel] _. Qed.

Lemma climbs_sib heap p hn sib nodes :
  heap !! p = Some hn → html.NextSibling hn = Some sib →
  climbs heap (Some p) nodes
    (Some sib, if decide (html.Type_ hn = html.ElementNode) then nodes ++ [endNode]
               else nodes).
Proof.
  intros Hp Hs. exists 1. intros [|fuel] Hf; [lia|].
  simpl. unfold html_deref. rewrite Hp. simpl. by rewrite Hs.
Qed.

Lemma climbs_up heap p hn nodes r :
  heap !! p = Some hn → html.NextSibling hn = None →
  climbs heap (html.Parent hn)
    (if decide (html.Type_ hn = html.ElementNode) then nodes ++ [endNode] else nodes) r →
  climbs heap (Some p) nodes r.
Proof.
  intros Hp Hs [f0 Hc]. exists (S f0). intros [|fuel] Hf; [lia|].
  simpl. unfold html_deref. rewrite Hp. simpl. rewrite Hs. apply Hc. lia.
Qed.

Lemma walks_nil heap st : walks heap None st st.
Proof. exists 0. by intros [|fuel] _. Qed.

Lemma walks_child heap p hn c st st' :
  heap !! p = Some hn → html.FirstChild hn = Some c →
  walks heap (Some c) (html_open hn st) st' → walks heap (Some p) st st'.
Proof.
  intros Hp Hc [f0 Hw]. exists (S f0). intros [|fuel] Hf; [lia|].
  simpl. unfold html_deref. rewrite Hp. simpl. rewrite Hc. apply Hw. lia.
Qed.

Lemma walks_leaf heap p hn st st' :
  heap !! p = Some hn → html.FirstChild hn = None →
  walks_on heap (Some p) (html_open hn st) st' → walks heap (Some p) st st'.
Proof.
  intros Hp Hc (r & [f1 Hcl] & [f2 Hw]). exists (S (f1 `max` f2)).
  intros [|fuel] Hf; [lia|].
  simpl. unfold html_deref. rewrite Hp. simpl. rewrite Hc.
  rewrite Hcl by lia. simpl. apply Hw. lia.
Qed.

Lemma lays_none heap parent f : lays heap parent None f → f = [].
Proof. by inversion 1. Qed.

(** The walk over a forest that lies in the heap appends what the token loop
    appends for the tokens of the forest, and goes on above the forest. *)
Lemma walk_forest heap parent n f :
  lays heap parent n f →
  ∀ p, n = Some p →
  ∀ st st', walks_on heap parent (read_all (forest_tokens f) st) st' →
            walks heap n st st'.
Proof.
  induction 1 as [|parent p hn kids rest Hp Hpar Hkids IHkids Hrest IHrest];
    intros p' Hn st st' Hon; [done|]. clear p' Hn.
  rewrite forest_tokens_cons, html_open_tokens in Hon. cbv zeta in Hon.
  set (st2 := read_all (forest_tokens kids) (html_open hn st)) in *.
  assert (Hup : walks_on heap (Some p) st2 st').
  { destruct (html.NextSibling hn) as [sib|] eqn:Hsib.
    - eexists. split; [by eapply climbs_sib|]. simpl. by eapply IHrest.
    - apply lays_none in Hrest as ->. destruct Hon as (r & Hc & Hw).
      exists r. split; [|done]. eapply climbs_up; [done..|]. by rewrite Hpar. }
  destruct (html.FirstChild hn) as [c|] eqn:Hc.
  - eapply walks_child; [done..|]. by eapply IHkids.
  - apply lays_none in Hkids as ->. by eapply walks_leaf.
Qed.

Lemma walk_document heap n f st :
  lays heap None (Some n) f →
  walks heap (Some n) st (read_all (forest_tokens f) st).
Proof.
  intros Hl. eapply walk_forest; [done..|].
  eexists. split; [apply climbs_nil|]. simpl.
  destruct (read_all _ _). apply walks_nil.
Qed.

Lemma hi_lays : lays (html.heap hi_fragment) None (Some 0) hi_document.
Proof.
  apply (lays_cons _ None 0 (html.mkNode None (Some 1) None html.ElementNode "html" "" []));
    [reflexivity..| |apply lays_nil].
  apply (lays_cons _ (Some 0) 1
           (html.mkNode (Some 0) None (Some 2) html.ElementNode "head" "" []));
    [reflexivity..|apply lays_nil|].
  apply (lays_cons _ (Some 0) 2
           (html.mkNode (Some 0) (Some 3) None html.ElementNode "body" "" []));
    [reflexivity..| |apply lays_nil].
  apply (lays_cons _ (Some 2) 3
           (html.mkNode (Some 2) (Some 4) None html.ElementNode "p" ""
              [html.mkAttribute "" "id" "x"]));
    [reflexivity..| |apply lays_nil].
  apply (lays_cons _ (Some 3) 4 (html.mkNode (Some 3) None None html.TextNode "Hi" "" []));
    [reflexivity..|apply lays_nil|apply lays_nil].
Defined.

(** On a parsed document, [ParseHTML] is [ParseDecoder] on the tokens that
    spell the document out: the walk over the tree ends, and what the two
    return is the same, node slice and children alike. *)
Theorem ParseHTML_as_tokens r n f :
  html.err r = None → html.ns r !! 0 = Some n → lays (html.heap r) None (Some n) f →
  ∃ N, ∀ fuel, N ≤ fuel →
    ParseHTML fuel r = ParseDecoder (mkDecoder (forest_tokens f) EOF).
Proof.
  intros He Hn Hl. destruct (walk_document _ _ _ ([rootNode], []) Hl) as [N HN].
  exists N. intros fuel Hf. unfold ParseHTML, ParseDecoder. rewrite He, Hn, HN by done.
  simpl. by rewrite read_tokens_all.
Qed.

Lemma ParseHTML_as_tokens_witness :
  ∃ N, ∀ fuel, N ≤ fuel →
    ParseHTML fuel hi_fragment
    = ParseDecoder
        (mkDecoder
           [xml.StartElement (local_name "html") [];
            xml.StartElement (local_name "head") []; xml.EndElement (local_name "head");
            xml.StartElement (local_name "body") [];
            xml.StartElement (local_name "p") [xml.mkAttr (local_name "id") "x"];
            xml.CharData (list_ascii_of_string "Hi");
            xml.EndElement (local_name "p"); xml.EndElement (local_name "body");
            xml.EndElement (local_name "html")] EOF).
Proof. exact (ParseHTML_as_tokens hi_fragment 0 hi_document eq_refl eq_refl hi_lays). Defined.

(** The tokens of a parsed document are well nested. *)
Lemma html_tokens_balanced h : ∀ depth rest,
  balanced depth (html_tokens h ++ rest) = balanced depth rest.
Proof.
  induction h as [ty data space attrs kids IH] using Html_forest_ind. intros depth rest.
  assert (Hkids : ∀ depth rest,
            balanced depth (forest_tokens kids ++ rest) = balanced depth rest).
  { clear depth rest. induction IH as [|k kids Hk _ IHkids]; intros depth rest; [done|].
    rewrite forest_tokens_cons, <- app_assoc, Hk. apply IHkids. }
  rewrite html_tokens_eq. destruct ty; simpl; try apply Hkids.
  rewrite <- app_assoc, Hkids. done.
Qed.

Lemma forest_tokens_balanced f : balanced 0 (forest_tokens f) = true.
Proof.
  induction f as [|h f IH]; [done|]. by rewrite forest_tokens_cons, html_tokens_balanced.
Qed.

Lemma html_tokens_text h : concat (token_text <$> html_tokens h) = html_text h.
Proof.
  induction h as [ty data space attrs kids IH] using Html_forest_ind.
  assert (Hkids : concat (token_text <$> forest_tokens kids) = forest_text kids).
  { induction IH as [|k kids Hk _ IHkids]; [done|].
    rewrite forest_tokens_cons, fmap_app, concat_app, Hk, IHkids. done. }
  rewrite html_tokens_eq, html_text_eq.
  destruct ty; rewrite ?fmap_cons, ?fmap_app, ?concat_cons, ?concat_app, ?Hkids; simpl;
    rewrite ?app_nil_r; done.
Qed.

Lemma forest_tokens_text f : concat (token_text <$> forest_tokens f) = forest_text f.
Proof.
  induction f as [|h f IH]; [done|].
  rewrite forest_tokens_cons, fmap_app, concat_app, html_tokens_text, IH. done.
Qed.

(** Well-nested tokens, read to the end: the root closes at the last entry
    and its value is the character data of the tokens. *)
Lemma balanced_tokens_tree toks :
  balanced 0 toks = true →
  ∃ t nr, ParseDecoder (mkDecoder toks EOF) = Ret (0, t) ∧ arena t !! 0 = Some nr ∧
          kind nr = StartNode ∧ pos nr = 0 ∧ S (end_ nr) = length (arena t) ∧
          Bytes (arena t) nr = Ret (concat (token_text <$> toks)).
Proof.
  intros Hbal. unfold ParseDecoder. simpl.
  destruct (read_tokens_EOF toks ([rootNode], [])) as [st Hst]. rewrite Hst. simpl.
  assert (Hns : events_ok (st.1 ++ [endNode])).
  { apply events_ok_snoc; [|done]. eapply read_tokens_ok; [done|apply events_ok_root]. }
  destruct (read_tokens_kinds _ _ _ _ Hst) as [Hk Ht]. simpl in Hk, Ht.
  pose proof (link_spec _ (proj2 Hns) (proj1 Hns)) as Hl.
  rewrite fmap_app, Hk in Hl. simpl in Hl.
  rewrite (closing_index_balanced _ 0 1 Hbal) in Hl.
  destruct Hl as (t & Hl & Hfin). exists t.
  destruct (fin_root _ _ t Hns Hfin) as (nr & Hnr & Hkr & _ & _ & Hp & He & Hn).
  destruct (fin_length _ _ t Hfin) as [Hlen _].
  assert (Hlst : length st.1 = S (length (concat (token_kinds <$> toks)))).
  { rewrite <- (length_fmap kind), Hk. done. }
  exists nr. split_and!; try done.
  { rewrite Hlen, length_app, Hlst, He. simpl. lia. }
  rewrite (fin_Bytes_start _ _ t 0 nr Hns Hfin Hnr Hkr). f_equal.
  unfold range_text, slice. rewrite Hp, He, drop_0, Nat.sub_0_r.
  rewrite (same_static_texts _ (take (1 + length (concat (token_kinds <$> toks)))
                                  (st.1 ++ [endNode]))).
  - rewrite take_app_length' by (by rewrite Hlst). by rewrite Ht.
  - apply Forall2_take. by eapply fin_static.
Qed.

(** On a parsed document [ParseHTML] succeeds, whatever the document: the
    walk ends, every element it opens is closed again, so the root closes at
    the last entry of the node slice, the synthetic [EndNode]; and the root's
    string value is the data of the text nodes of the document, in document
    order. *)
Theorem ParseHTML_document r n f :
  html.err r = None → html.ns r !! 0 = Some n → lays (html.heap r) None (Some n) f →
  ∃ N, ∀ fuel, N ≤ fuel →
    ∃ t nr, ParseHTML fuel r = Ret (0, t) ∧ arena t !! 0 = Some nr ∧
            kind nr = StartNode ∧ S (end_ nr) = length (arena t) ∧
            String_ (arena t) nr = Ret (string_of_list_ascii (forest_text f)).
Proof.
  intros He Hn Hl. destruct (walk_document _ _ _ ([rootNode], []) Hl) as [N HN].
  exists N. intros fuel Hf.
  destruct (balanced_tokens_tree (forest_tokens f) (forest_tokens_balanced f))
    as (t & nr & Ht & Hnr & Hk & _ & Hend & Hb).
  exists t, nr. split_and!; try done.
  - unfold ParseHTML. rewrite He, Hn, HN by done. simpl.
    unfold ParseDecoder in Ht. simpl in Ht. by rewrite read_tokens_all in Ht.
  - unfold String_. rewrite decide_False by (by rewrite Hk). rewrite Hb. simpl.
    by rewrite forest_tokens_text.
Qed.

Lemma ParseHTML_document_witness :
  ∃ N, ∀ fuel, N ≤ fuel →
    ∃ t nr, ParseHTML fuel hi_fragment = Ret (0, t) ∧ arena t !! 0 = Some nr ∧
            kind nr = StartNode ∧ S (end_ nr) = length (arena t) ∧
            String_ (arena t) nr = Ret "Hi".
Proof. exact (ParseHTML_document hi_fragment 0 hi_document eq_refl eq_refl hi_lays). Defined.

(** ** The tree of a parsed document *)

Lemma forest_nodes_cons h f : forest_nodes (h :: f) = html_nodes h ++ forest_nodes f.
Proof.
  unfold forest_nodes, html_nodes. by rewrite forest_tokens_cons, fmap_app, concat_app.
Qed.

Lemma forest_nodes_app f1 f2 : forest_nodes (f1 ++ f2) = forest_nodes f1 ++ forest_nodes f2.
Proof.
  induction f1 as [|h f1 IH]; [done|].
  simpl. by rewrite !forest_nodes_cons, IH, app_assoc.
Qed.

Lemma html_nodes_eq ty data space attrs kids :
  html_nodes (HtmlNode ty data space attrs kids)
  = match ty with
    | html.ElementNode =>
        newNode StartNode (xml.mkName space data) "" []
          :: (attr_node <$> attrs) ++ forest_nodes kids ++ [endNode]
    | html.TextNode =>
        newNode TextNode noName "" (list_ascii_of_string data) :: forest_nodes kids
    | html.CommentNode =>
        newNode CommentNode noName "" (list_ascii_of_string data) :: forest_nodes kids
    | _ => forest_nodes kids
    end.
Proof.
  unfold html_nodes. rewrite html_tokens_eq. unfold forest_nodes.
  destruct ty; rewrite ?fmap_cons, ?fmap_app, ?concat_cons, ?concat_app; try done.
  cbn [token_nodes fmap list_fmap concat app]. rewrite <- list_fmap_compose. done.
Qed.

Lemma proper_eq ty data space attrs kids :
  proper (HtmlNode ty data space attrs kids) = true ↔
  match ty with
  | html.ElementNode => Forall (λ k, proper k = true) kids
  | html.TextNode | html.CommentNode => kids = []
  | _ => False
  end.
Proof.
  simpl. destruct ty; try done; try (by destruct kids).
  induction kids as [|k kids IH]; [done|].
  rewrite andb_true_iff, Forall_cons, IH. done.
Qed.

Lemma proper_nodes h : proper h = true → 0 < length (html_nodes h).
Proof.
  destruct h as [ty data space attrs kids]. intros Hp%proper_eq. rewrite html_nodes_eq.
  destruct ty; try done; simpl; lia.
Qed.

(** *** Where the elements of a document close *)

Lemma block_through h : ∀ depth here rest,
  closing_index (S depth) here ((kind <$> html_nodes h) ++ rest)
  = closing_index (S depth) (here + length (html_nodes h)) rest.
Proof.
  induction h as [ty data space attrs kids IH] using Html_forest_ind.
  assert (Hkids : ∀ depth here rest,
            closing_index (S depth) here ((kind <$> forest_nodes kids) ++ rest)
            = closing_index (S depth) (here + length (forest_nodes kids)) rest).
  { induction IH as [|k kids Hk _ IHkids]; intros depth here rest.
    - simpl. by rewrite Nat.add_0_r.
    - rewrite forest_nodes_cons, fmap_app, <- app_assoc, Hk, IHkids, length_app.
      f_equal. lia. }
  intros depth here rest. rewrite html_nodes_eq.
  destruct ty; try apply Hkids;
    try (cbn [fmap list_fmap app closing_index kind newNode length];
         rewrite Hkids; f_equal; lia).
  rewrite fmap_cons, !fmap_app, <- list_fmap_compose.
  cbn [app closing_index kind newNode].
  rewrite <- !app_assoc.
  rewrite closing_index_skip; last first.
  { apply Forall_fmap, Forall_true. by intros a. }
  rewrite Hkids. cbn [fmap list_fmap app closing_index kind endNode newNode].
  f_equal. rewrite length_fmap. cbn [length]. rewrite !length_app, !length_fmap.
  cbn [length]. lia.
Qed.

Lemma forest_through f : ∀ depth here rest,
  closing_index (S depth) here ((kind <$> forest_nodes f) ++ rest)
  = closing_index (S depth) (here + length (forest_nodes f)) rest.
Proof.
  induction f as [|h f IH]; intros depth here rest.
  - simpl. by rewrite Nat.add_0_r.
  - rewrite forest_nodes_cons, fmap_app, <- app_assoc, block_through, IH, length_app.
    f_equal. lia.
Qed.

Lemma element_kinds data space attrs kids :
  kind <$> html_nodes (HtmlNode html.ElementNode data space attrs kids)
  = StartNode :: replicate (length attrs) AttrNode ++ (kind <$> forest_nodes kids)
      ++ [EndNode].
Proof.
  rewrite html_nodes_eq, fmap_cons, !fmap_app. cbn [kind newNode]. do 2 f_equal.
  induction attrs as [|a attrs IH]; [done|]. rewrite !fmap_cons, IH. done.
Qed.

(** An element closes at its own end tag, the last of its nodes. *)
Lemma element_closes data space attrs kids here rest :
  closing_index 0 here
    ((kind <$> html_nodes (HtmlNode html.ElementNode data space attrs kids)) ++ rest)
  = Some (here + 1 + length attrs + length (forest_nodes kids)).
Proof.
  rewrite element_kinds. cbn [app closing_index]. rewrite <- !app_assoc.
  rewrite closing_index_skip by (apply Forall_replicate; by split).
  rewrite forest_through. simpl. f_equal. rewrite length_replicate. lia.
Qed.

(** Every element inside a document closes inside the document. *)
Lemma inner_closes h : ∀ o here rest,
  (kind <$> html_nodes h) !! o = Some StartNode →
  ∃ x, closing_index 0 here (drop o (kind <$> html_nodes h) ++ rest) = Some x ∧
       x < here + (length (html_nodes h) - o).
Proof.
  induction h as [ty data space attrs kids IH] using Html_forest_ind.
  assert (Hkids : ∀ o here rest,
            (kind <$> forest_nodes kids) !! o = Some StartNode →
            ∃ x, closing_index 0 here (drop o (kind <$> forest_nodes kids) ++ rest) = Some x ∧
                 x < here + (length (forest_nodes kids) - o)).
  { induction IH as [|k kids Hk _ IHkids]; intros o here rest Ho; [done|].
    rewrite forest_nodes_cons, fmap_app in Ho |- *. rewrite length_app.
    destruct (decide (o < length (kind <$> html_nodes k))) as [Hlt|Hge].
    - rewrite lookup_app_l in Ho by done.
      rewrite drop_app_le by lia. rewrite <- app_assoc.
      destruct (Hk o here ((kind <$> forest_nodes kids) ++ rest) Ho) as (x & -> & Hx).
      exists x. split; [done|]. rewrite length_fmap in Hlt. lia.
    - rewrite lookup_app_r in Ho by lia.
      rewrite drop_app_ge by lia.
      destruct (IHkids _ here rest Ho) as (x & -> & Hx).
      exists x. split; [done|]. rewrite length_fmap in *. lia. }
  intros o here rest Ho.
  assert (Hcons : ∀ k0, k0 ≠ StartNode →
            (kind <$> html_nodes (HtmlNode ty data space attrs kids))
            = k0 :: (kind <$> forest_nodes kids) →
            ∃ x, closing_index 0 here
                   (drop o (kind <$> html_nodes (HtmlNode ty data space attrs kids)) ++ rest)
                 = Some x ∧
                 x < here + (length (html_nodes (HtmlNode ty data space attrs kids)) - o)).
  { intros k0 Hk0 Heq. rewrite Heq in Ho. apply (f_equal length) in Heq as Hlen.
    rewrite Heq. simpl in Hlen. rewrite !length_fmap in Hlen. rewrite Hlen.
    destruct o as [|o]; simpl in Ho; [congruence|]. simpl.
    destruct (Hkids o here rest Ho) as (x & -> & Hx). exists x. split; [done|lia]. }
  destruct ty;
    try (rewrite html_nodes_eq in Ho |- *; by apply Hkids);
    try (by eapply Hcons; [|by rewrite html_nodes_eq]).
  destruct o as [|o].
  { rewrite drop_0, element_closes. eexists. split; [done|].
    rewrite html_nodes_eq. simpl. rewrite !length_app, length_fmap. simpl. lia. }
  rewrite element_kinds in Ho |- *. simpl in Ho. simpl drop.
  assert (Hlen : length (html_nodes (HtmlNode html.ElementNode data space attrs kids))
                 = S (length attrs + length (forest_nodes kids) + 1)).
  { rewrite html_nodes_eq. simpl. rewrite !length_app, length_fmap. simpl. lia. }
  rewrite Hlen.
  destruct (decide (o < length attrs)) as [Hlt|Hge].
  { rewrite lookup_app_l in Ho by (by rewrite length_replicate).
    apply lookup_replicate in Ho as [? _]. done. }
  rewrite lookup_app_r in Ho by (rewrite length_replicate; lia).
  rewrite length_replicate in Ho.
  rewrite drop_app_ge by (rewrite length_replicate; lia). rewrite length_replicate.
  destruct (decide (o - length attrs < length (forest_nodes kids))) as [Hlt'|Hge'].
  - rewrite lookup_app_l in Ho by (by rewrite length_fmap).
    rewrite drop_app_le by (rewrite length_fmap; lia). rewrite <- app_assoc.
    destruct (Hkids _ here ([EndNode] ++ rest) Ho) as (x & -> & Hx).
    exists x. split; [done|lia].
  - rewrite lookup_app_r in Ho by (rewrite length_fmap; lia).
    rewrite length_fmap in Ho.
    destruct (o - length attrs - length (forest_nodes kids)) as [|[|?]]; done.
Qed.

Lemma forest_inner_closes f : ∀ o here rest,
  (kind <$> forest_nodes f) !! o = Some StartNode →
  ∃ x, closing_index 0 here (drop o (kind <$> forest_nodes f) ++ rest) = Some x ∧
       x < here + (length (forest_nodes f) - o).
Proof.
  induction f as [|k f IH]; intros o here rest Ho; [done|].
  rewrite forest_nodes_cons, fmap_app in Ho |- *. rewrite length_app.
  destruct (decide (o < length (kind <$> html_nodes k))) as [Hlt|Hge].
  - rewrite lookup_app_l in Ho by done.
    rewrite drop_app_le by lia. rewrite <- app_assoc.
    destruct (inner_closes k o here ((kind <$> forest_nodes f) ++ rest) Ho) as (x & -> & Hx).
    exists x. split; [done|]. rewrite length_fmap in Hlt. lia.
  - rewrite lookup_app_r in Ho by lia.
    rewrite drop_app_ge by lia.
    destruct (IH _ here rest Ho) as (x & -> & Hx).
    exists x. split; [done|]. rewrite length_fmap in *. lia.
Qed.

(** *** Where the trees of a forest begin *)

Lemma starts_app i f1 f2 :
  starts i (f1 ++ f2) = starts i f1 ++ starts (i + length (forest_nodes f1)) f2.
Proof.
  revert i. induction f1 as [|h f1 IH]; intros i; simpl.
  - by rewrite Nat.add_0_r.
  - rewrite IH, forest_nodes_cons, length_app. do 3 f_equal. lia.
Qed.

Lemma starts_bounds f : ∀ i x,
  Forall (λ h, proper h = true) f → x ∈ starts i f →
  i ≤ x ∧ x < i + length (forest_nodes f).
Proof.
  induction f as [|h f IH]; intros i x Hf Hx; [by apply elem_of_nil in Hx|].
  apply Forall_cons in Hf as [Hh Hf]. pose proof (proper_nodes h Hh).
  rewrite forest_nodes_cons, length_app. simpl in Hx.
  apply elem_of_cons in Hx as [->|Hx]; [lia|]. apply IH in Hx; [lia|done].
Qed.

Lemma starts_ascending f : ∀ i,
  Forall (λ h, proper h = true) f → ascending (starts i f).
Proof.
  induction f as [|h f IH]; intros i Hf; [done|].
  apply Forall_cons in Hf as [Hh Hf]. pose proof (proper_nodes h Hh). simpl. split.
  - intros y Hy%starts_bounds; [lia|done].
  - by apply IH.
Qed.

(** An index inside the nodes of a forest lies in the nodes of one tree. *)
Lemma forest_cover f : ∀ o,
  o < length (forest_nodes f) →
  ∃ f1 h f2, f = f1 ++ h :: f2 ∧
             length (forest_nodes f1) ≤ o < length (forest_nodes f1) + length (html_nodes h).
Proof.
  induction f as [|h f IH]; intros o Ho; [simpl in Ho; lia|].
  rewrite forest_nodes_cons, length_app in Ho.
  destruct (decide (o < length (html_nodes h))) as [Hlt|Hge].
  - exists [], h, f. split; [done|]. simpl. lia.
  - destruct (IH (o - length (html_nodes h)) ltac:(lia)) as (f1 & h' & f2 & -> & Hb).
    exists (h :: f1), h', f2. split; [done|]. rewrite forest_nodes_cons, length_app. lia.
Qed.

Lemma filter_seq_ascending (P : nat → Prop) `{!∀ i, Decision (P i)} n : ∀ a l,
  ascending l → (∀ x, x ∈ l → a ≤ x < a + n) →
  (∀ j, a ≤ j < a + n → (P j ↔ j ∈ l)) →
  filter P (seq a n) = l.
Proof.
  induction n as [|n IH]; intros a l Hasc Hb HP.
  - destruct l as [|x l]; [done|]. specialize (Hb x ltac:(left)). lia.
  - simpl. rewrite filter_cons. destruct (decide (P a)) as [Ha|Ha].
    + apply HP in Ha; [|lia]. destruct l as [|x l]; [by apply elem_of_nil in Ha|].
      destruct Hasc as [Hx Hasc].
      assert (x = a) as ->.
      { apply elem_of_cons in Ha as [->|Ha]; [done|].
        specialize (Hx a Ha). specialize (Hb x ltac:(left)). lia. }
      f_equal. apply IH; [done| |].
      * intros y Hy. specialize (Hx y Hy). specialize (Hb y ltac:(by right)). lia.
      * intros j Hj. rewrite HP by lia. rewrite elem_of_cons. split; [|by right].
        intros [->|?]; [lia|done].
    + apply IH; [done| |].
      * intros y Hy. specialize (Hb y Hy).
        destruct (decide (y = a)) as [->|]; [|lia]. destruct Ha. apply HP; [lia|done].
      * intros j Hj. apply HP. lia.
Qed.

(** *** The linked slice of a document *)

Section document.

Variables (E : list Node) (e : nat) (t : Tree).
Hypothesis E_ok : events_ok E.
Hypothesis E_led : attr_led (kind <$> E).
Hypothesis t_link : link E = Ret (0, t).
Hypothesis t_fin : Finished E e t.

Lemma doc_static j n0 :
  E !! j = Some n0 → ∃ n, arena t !! j = Some n ∧ same_static n n0.
Proof.
  intros Hj. pose proof (fin_static _ _ _ t_fin) as Hs.
  destruct (Forall2_lookup_r _ _ _ _ _ Hs Hj) as (n & Hn & Hst). eauto.
Qed.

Lemma doc_length : length (arena t) = length E.
Proof. by destruct (fin_length _ _ _ t_fin). Qed.

Lemma doc_kinds i : kind <$> drop i (arena t) = kind <$> drop i E.
Proof.
  pose proof (fin_static _ _ _ t_fin) as Hs. apply (Forall2_drop _ _ _ i) in Hs.
  induction Hs as [|n n0 l l0 (Hk & _) _ IH]; [done|]. by rewrite !fmap_cons, Hk, IH.
Qed.

Lemma doc_lt_e p np j nj :
  arena t !! p = Some np → kind np = StartNode → arena t !! j = Some nj →
  live (kind nj) = true → j < end_ np → j < e.
Proof.
  intros Hp Hkp Hj Hl Hlt.
  assert (Hpe : p < S e).
  { destruct (decide (p < S e)); [done|].
    destruct (fin_fresh _ _ _ t_fin p np) as (_ & _ & He & _); [done|left; lia|]. lia. }
  destruct (fin_live _ _ _ t_fin p np Hp) as (_ & _ & _ & _ & Hend); [by rewrite Hkp|done|].
  destruct (decide (j = e)) as [->|]; [|lia].
  destruct t_fin as (b & _ & _ & -> & _ & _ & _ & ne & Hne & Hke). simpl in *.
  assert (ne = nj) as -> by congruence. by rewrite Hke in Hl.
Qed.

Lemma doc_up j nj :
  arena t !! j = Some nj → live (kind nj) = true → 0 < j → j < e → is_Some (up nj).
Proof.
  intros Hj Hl Hpos Hlt.
  destruct t_fin as (b & _ & _ & -> & _ & _ & HP & _). simpl in *.
  apply (HP j nj); [done|lia|lia|done].
Qed.

Lemma doc_end i n :
  arena t !! i = Some n → kind n = StartNode → i < e →
  closing_index 0 i (kind <$> drop i E) = Some (end_ n).
Proof.
  intros Hi Hk Hlt. rewrite <- doc_kinds.
  apply (link_closes E 0 t i n E_ok t_link Hi Hk).
  destruct (decide (i = 0)) as [->|]; [by left|right].
  apply (doc_up i n Hi); [by rewrite Hk|lia|done].
Qed.

Lemma doc_mid pre X post o x :
  E = pre ++ X ++ post → X !! o = Some x → E !! (length pre + o) = Some x.
Proof.
  intros -> Ho. rewrite lookup_app_r by lia.
  replace (length pre + o - length pre) with o by lia. by apply lookup_app_l_Some.
Qed.

Lemma doc_drop pre X post o :
  E = pre ++ X ++ post → o ≤ length X → drop (length pre + o) E = drop o X ++ post.
Proof.
  intros -> Ho. rewrite drop_app_ge by lia.
  replace (length pre + o - length pre) with o by lia. by rewrite drop_app_le.
Qed.

(** The parent of an entry inside the range of [p] that no element between
    the two holds. *)
Lemma doc_parent i n p np :
  arena t !! i = Some n → live (kind n) = true →
  arena t !! p = Some np → kind np = StartNode → p < i → i < end_ np →
  (∀ q nq, arena t !! q = Some nq → kind nq = StartNode → p < q → q < i → end_ nq ≤ i) →
  up n = Some p.
Proof.
  intros Hi Hl Hp Hkp Hpi Hend Hq.
  pose proof (doc_lt_e p np i n Hp Hkp Hi Hl Hend) as Hie.
  destruct (doc_up i n Hi Hl ltac:(lia) Hie) as [p' Hu].
  destruct (fin_up _ _ _ t_fin i n p' Hi Hu) as (Hlt & _ & _ & np' & Hp' & Hkp' & _ & _ & Hle).
  destruct (fin_live _ _ _ t_fin i n Hi Hl ltac:(lia)) as (_ & _ & _ & Hiend & _).
  pose proof (fin_innermost E e t i n p' E_ok t_fin Hi Hu p np Hp Hkp Hpi Hend) as Hpp.
  destruct (decide (p = p')) as [->|Hne]; [done|].
  specialize (Hq p' np' Hp' Hkp' ltac:(lia) Hlt). lia.
Qed.

Lemma doc_attrs i n pre attrs post :
  E = pre ++ (attr_node <$> attrs) ++ post → length pre = S i →
  arena t !! i = Some n → kind n = StartNode → S i + length attrs ≤ e →
  Forall2 (λ m a, kind m = AttrNode ∧
                  name m = xml.mkName (html.AttrNamespace a) (html.Key a) ∧
                  attr m = html.Val a ∧ up m = Some i)
    (take (length attrs) (drop (S i) (arena t))) attrs.
Proof.
  intros HE Hpre Hi Hk He.
  assert (Hat : ∀ k a, attrs !! k = Some a →
            ∃ m, arena t !! (S i + k) = Some m ∧ same_static m (attr_node a)).
  { intros k a Ha. rewrite <- Hpre. apply doc_static.
    apply (doc_mid pre _ post k _ HE). by rewrite list_lookup_fmap, Ha. }
  assert (Hup : ∀ k a m, attrs !! k = Some a → arena t !! (S i + k) = Some m →
            up m = Some i).
  { induction k as [|k IH]; intros a m Ha Hm.
    - destruct (Hat 0 a Ha) as (m' & Hm' & Hs & _).
      assert (m' = m) as -> by congruence.
      apply lookup_lt_Some in Ha as Hlt.
      destruct (doc_up (S i + 0) m Hm) as [p Hu]; [by rewrite Hs|lia|lia|].
      destruct (link_attr_runs E 0 t E_ok E_led t_link _ m p Hm Hs Hu)
        as (j & m0 & Hj & Hm0 & Hcase).
      assert (j = i) as -> by lia. assert (m0 = n) as -> by congruence.
      destruct Hcase as [[_ ->]|[? _]]; [done|congruence].
    - destruct (Hat (S k) a Ha) as (m' & Hm' & Hs & _).
      assert (m' = m) as -> by congruence.
      apply lookup_lt_Some in Ha as Hlt.
      destruct (attrs !! k) as [a'|] eqn:Ha'; last first.
      { apply lookup_ge_None in Ha'. lia. }
      destruct (Hat k a' Ha') as (mk & Hmk & Hsk & _). simpl in Hsk.
      destruct (doc_up (S i + S k) m Hm) as [p Hu]; [by rewrite Hs|lia|lia|].
      destruct (link_attr_runs E 0 t E_ok E_led t_link _ m p Hm Hs Hu)
        as (j & m0 & Hj & Hm0 & Hcase).
      assert (j = S i + k) as -> by lia. assert (m0 = mk) as -> by congruence.
      destruct Hcase as [[? _]|[_ Hum]]; [congruence|].
      rewrite (IH a' mk eq_refl Hmk) in Hum. congruence. }
  apply Forall2_same_length_lookup_2.
  - rewrite length_take, length_drop, doc_length, HE, !length_app, length_fmap. lia.
  - intros k m a Hm Ha. apply lookup_lt_Some in Ha as Hlt.
    rewrite lookup_take_lt in Hm by done. rewrite lookup_drop in Hm.
    destruct (Hat k a Ha) as (m' & Hm' & Hs & Hn & Hv & _).
    assert (m' = m) as -> by congruence.
    split_and!; [done..|]. by eapply Hup.
Qed.

(** The children of an element [i] whose range ends after the nodes of the
    forest [f], which lie after [pre]: when only attributes lie between the
    element and the forest, the [down] list of the element holds the places
    where the trees of [f] begin, and each of them shows its tree. *)
Lemma doc_body f :
  Forall (λ h, proper h = true ∧ shows_at E t h) f →
  ∀ i n pre post,
    arena t !! i = Some n → kind n = StartNode →
    E = pre ++ forest_nodes f ++ post → i < length pre →
    end_ n = length pre + length (forest_nodes f) →
    (∀ j nj, arena t !! j = Some nj → i < j → j < length pre → kind nj = AttrNode) →
    children t n = Some <$> starts (length pre) f ∧
    Forall2 (shows t (Some i)) (starts (length pre) f) f.
Proof.
  intros Hf i n pre post Hi Hk HE Hlt Hend Hattr.
  assert (Hproper : Forall (λ h, proper h = true) f).
  { eapply Forall_impl; [done|]. by intros h [? _]. }
  assert (Hshows : ∀ f1 f2, f = f1 ++ f2 →
            Forall2 (shows t (Some i)) (starts (length pre + length (forest_nodes f1)) f2) f2).
  { intros f1 f2. revert f1. induction f2 as [|h f2 IH]; intros f1 Hsplit; [constructor|].
    simpl. constructor.
    - assert (Hh : shows_at E t h).
      { apply (Forall_forall (λ h, proper h = true ∧ shows_at E t h) f); [done|].
        rewrite Hsplit. apply elem_of_app. right. left. }
      rewrite <- length_app.
      apply (Hh (pre ++ forest_nodes f1) (forest_nodes f2 ++ post) i n); [|done|done| | |].
      + rewrite HE, Hsplit, forest_nodes_app, forest_nodes_cons, <- !app_assoc. done.
      + rewrite length_app. lia.
      + rewrite Hend, Hsplit, forest_nodes_app, forest_nodes_cons, !length_app. lia.
      + intros q nq Hq Hkq Hiq Hqlt. rewrite length_app in Hqlt |- *.
        destruct (decide (q < length pre)) as [Hin|Hout].
        { specialize (Hattr q nq Hq Hiq Hin). congruence. }
        assert (Hqe : q < e).
        { apply (doc_lt_e i n q nq Hi Hk Hq); [by rewrite Hkq|].
          rewrite Hend, Hsplit, forest_nodes_app, length_app. lia. }
        assert (HE' : E = pre ++ forest_nodes f1 ++ (forest_nodes (h :: f2) ++ post)).
        { rewrite HE, Hsplit, forest_nodes_app, <- !app_assoc. done. }
        pose proof (doc_end q nq Hq Hkq Hqe) as Hc.
        replace q with (length pre + (q - length pre)) in Hc at 2 by lia.
        rewrite (doc_drop pre _ _ (q - length pre) HE') in Hc by lia.
        rewrite fmap_app, fmap_drop in Hc.
        destruct (forest_inner_closes f1 (q - length pre) q
                    (kind <$> forest_nodes (h :: f2) ++ post)) as (x & Hx & Hxlt).
        { destruct (forest_nodes f1 !! (q - length pre)) as [n0|] eqn:Hn0; last first.
          { apply lookup_ge_None in Hn0. lia. }
          rewrite list_lookup_fmap, Hn0. simpl. f_equal.
          pose proof (doc_mid pre _ _ _ _ HE' Hn0) as Hm.
          replace (length pre + (q - length pre)) with q in Hm by lia.
          destruct (doc_static q n0 Hm) as (nq' & Hq' & Hs & _).
          assert (nq' = nq) as -> by congruence. congruence. }
        rewrite Hx in Hc. injection Hc as <-. lia.
    - specialize (IH (f1 ++ [h])). rewrite forest_nodes_app, length_app in IH.
      replace (forest_nodes [h]) with (html_nodes h) in IH
        by (rewrite forest_nodes_cons; change (forest_nodes []) with (@nil Node);
            by rewrite app_nil_r).
      replace (length pre + length (forest_nodes f1) + length (html_nodes h))
        with (length pre + (length (forest_nodes f1) + length (html_nodes h))) by lia.
      apply IH. by rewrite <- app_assoc. }
  assert (Hall : Forall2 (shows t (Some i)) (starts (length pre) f) f).
  { specialize (Hshows [] f eq_refl). simpl in Hshows. by rewrite Nat.add_0_r in Hshows. }
  split; [|done].
  rewrite (fin_children _ _ _ t_fin i n Hi Hk). f_equal. unfold kids.
  apply filter_seq_ascending.
  - by apply starts_ascending.
  - intros x Hx%starts_bounds; [|done]. rewrite doc_length, HE, !length_app. lia.
  - intros j _. unfold child_of. split.
    + intros Hc. destruct (arena t !! j) as [nj|] eqn:Hj; [|done].
      apply Is_true_eq_true, andb_true_iff in Hc as [Hu%bool_decide_eq_true Hel].
      destruct (fin_up _ _ _ t_fin j nj i Hj Hu) as (Hij & Hje & Hl & n' & Hi' & _ & _ & _ & Hle).
      assert (n' = n) as -> by congruence.
      destruct (fin_live _ _ _ t_fin j nj Hj Hl Hje) as (_ & _ & _ & Hjend & _).
      destruct (decide (j < length pre)) as [Hin|Hout].
      { rewrite (Hattr j nj Hj Hij Hin) in Hel. done. }
      destruct (forest_cover f (j - length pre) ltac:(lia)) as (f1 & h & f2 & Hsplit & Hb).
      set (c := length pre + length (forest_nodes f1)).
      assert (Hc : c ∈ starts (length pre) f).
      { rewrite Hsplit, starts_app. apply elem_of_app. right. left. }
      destruct (decide (j = c)) as [->|Hne]; [done|]. exfalso.
      assert (Hph : proper h = true).
      { apply (Forall_forall (λ h, proper h = true) f); [done|].
        rewrite Hsplit. apply elem_of_app. right. left. }
      assert (HE' : E = (pre ++ forest_nodes f1) ++ html_nodes h ++ (forest_nodes f2 ++ post)).
      { rewrite HE, Hsplit, forest_nodes_app, forest_nodes_cons, <- !app_assoc. done. }
      assert (Hclen : length (pre ++ forest_nodes f1) = c) by (by rewrite length_app).
      destruct h as [ty data space attrs kids0].
      apply proper_eq in Hph. rewrite html_nodes_eq in Hb, HE'.
      destruct ty; try done; try (subst kids0; simpl in Hb; lia).
      destruct (doc_static c (newNode StartNode (xml.mkName space data) "" []))
        as (nc & Hnc & Hkc & _).
      { rewrite <- Hclen, <- (Nat.add_0_r (length _)). by eapply doc_mid. }
      simpl in Hkc.
      assert (Hce : c < e).
      { apply (doc_lt_e i n c nc Hi Hk Hnc); [by rewrite Hkc|lia]. }
      pose proof (doc_end c nc Hnc Hkc Hce) as Hcl.
      pose proof (doc_drop _ _ _ 0 HE' ltac:(lia)) as Hd.
      rewrite Nat.add_0_r, Hclen, drop_0 in Hd. rewrite Hd, fmap_app in Hcl.
      pose proof (element_closes data space attrs kids0 c
                    (kind <$> forest_nodes f2 ++ post)) as Hec.
      rewrite html_nodes_eq in Hec. rewrite Hec in Hcl. injection Hcl as Hcend.
      simpl in Hb. rewrite !length_app, length_fmap in Hb. simpl in Hb.
      destruct (decide (j = c + 1 + length attrs + length (forest_nodes kids0)))
        as [Hlast|Hnl].
      { destruct (doc_static j endNode) as (nj' & Hj' & Hkj & _).
        { replace j with (length (pre ++ forest_nodes f1)
                          + S (length attrs + length (forest_nodes kids0))) by lia.
          eapply doc_mid; [done|]. simpl.
          rewrite lookup_app_r by (rewrite length_fmap; lia).
          rewrite length_fmap.
          rewrite lookup_app_r by lia.
          by replace (length attrs + length (forest_nodes kids0) - length attrs
                      - length (forest_nodes kids0)) with 0 by lia. }
        assert (nj' = nj) as -> by congruence. rewrite Hkj in Hel. done. }
      pose proof (fin_innermost E e t j nj i E_ok t_fin Hj Hu c nc Hnc Hkc) as Hin.
      unfold c in *. lia.
    + intros Hj. apply list_elem_of_lookup in Hj as [m Hm].
      destruct (Forall2_lookup_l _ _ _ _ _ Hall Hm) as (h & _ & Hsh).
      inversion Hsh as [? ? nj ? ? ? ? ? Hj Hkj Hu|? ? nj ? ? ? Hj Hkj Hu|? ? nj ? ? ? Hj Hkj Hu];
        subst; rewrite Hj, Hkj, bool_decide_eq_true_2 by done; done.
Qed.

(** Every proper document is shown wherever its nodes lie. *)
Lemma doc_tree h : proper h = true → shows_at E t h.
Proof.
  induction h as [ty data space attrs kids IH] using Html_forest_ind.
  intros Hp pre post p np HE Hp' Hkp Hlt Hend Hq.
  apply proper_eq in Hp.
  assert (Hfirst : ∀ n0 tl, html_nodes (HtmlNode ty data space attrs kids) = n0 :: tl →
            live (kind n0) = true →
            ∃ n, arena t !! length pre = Some n ∧ same_static n n0 ∧ up n = Some p ∧
                 length pre < e).
  { intros n0 tl Heq Hl.
    destruct (doc_static (length pre) n0) as (n & Hn & Hs).
    { rewrite <- (Nat.add_0_r (length pre)). eapply doc_mid; [done|]. by rewrite Heq. }
    pose proof Hs as (Hk & _). rewrite <- Hk in Hl.
    assert (Hin : length pre < end_ np) by (rewrite Heq in Hend; simpl in Hend; lia).
    exists n. split_and!; [done..| |].
    - by apply (doc_parent (length pre) n p np).
    - by apply (doc_lt_e p np (length pre) n). }
  destruct ty; try done.
  - subst kids.
    destruct (Hfirst _ _ (html_nodes_eq _ _ _ _ _) eq_refl) as (n & Hn & (Hk & _ & _ & Ht) & Hu & _).
    by eapply shows_text.
  - destruct (Hfirst _ _ (html_nodes_eq _ _ _ _ _) eq_refl)
      as (n & Hn & (Hk & Hnm & _ & _) & Hu & Hne).
    simpl in Hk, Hnm.
    assert (Hlen : length (html_nodes (HtmlNode html.ElementNode data space attrs kids))
                   = S (length attrs + length (forest_nodes kids) + 1)).
    { rewrite html_nodes_eq. simpl. rewrite !length_app, length_fmap. simpl. lia. }
    rewrite Hlen in Hend.
    assert (Hnend : end_ n = length pre + 1 + length attrs + length (forest_nodes kids)).
    { pose proof (doc_end (length pre) n Hn Hk Hne) as Hcl.
      pose proof (doc_drop _ _ _ 0 HE ltac:(lia)) as Hd.
      rewrite Nat.add_0_r, drop_0 in Hd. rewrite Hd, fmap_app, element_closes in Hcl.
      by injection Hcl as <-. }
    assert (Hpe : p < S e).
    { destruct (decide (p < S e)); [done|].
      destruct (fin_fresh _ _ _ t_fin p np) as (_ & _ & He & _); [done|left; lia|]. lia. }
    destruct (fin_live _ _ _ t_fin p np Hp') as (_ & _ & _ & _ & Hpend); [by rewrite Hkp|done|].
    rewrite html_nodes_eq in HE.
    set (start := newNode StartNode (xml.mkName space data) "" []) in *.
    assert (HEa : E = (pre ++ [start]) ++ (attr_node <$> attrs)
                        ++ (forest_nodes kids ++ [endNode] ++ post)).
    { rewrite HE. simpl. rewrite <- !app_assoc. done. }
    assert (HEb : E = (pre ++ [start] ++ (attr_node <$> attrs)) ++ forest_nodes kids
                        ++ ([endNode] ++ post)).
    { rewrite HE. simpl. rewrite <- !app_assoc. done. }
    assert (Hlb : length (pre ++ [start] ++ (attr_node <$> attrs))
                  = length pre + 1 + length attrs).
    { rewrite !length_app, length_fmap. simpl. lia. }
    destruct (doc_body kids) with (i := length pre) (n := n)
      (pre := pre ++ [start] ++ (attr_node <$> attrs)) (post := [endNode] ++ post)
      as [Hch Hsh]; [|done|done|done|lia|lia| |].
    { apply Forall_forall. intros k Hk0.
      pose proof (proj1 (Forall_forall _ _) Hp k Hk0) as Hpk.
      split; [done|]. by apply (proj1 (Forall_forall _ _) IH k Hk0). }
    { intros j nj Hj Hij Hjlt. rewrite Hlb in Hjlt.
      destruct (attrs !! (j - S (length pre))) as [a|] eqn:Ha; last first.
      { apply lookup_ge_None in Ha. lia. }
      destruct (doc_static j (attr_node a)) as (nj' & Hj' & Hkj & _).
      { replace j with (length (pre ++ [start]) + (j - S (length pre)))
          by (rewrite length_app; simpl; lia).
        eapply doc_mid; [done|]. by rewrite list_lookup_fmap, Ha. }
      assert (nj' = nj) as -> by congruence. done. }
    eapply shows_element; [done..| |done|done].
    apply (doc_attrs (length pre) n (pre ++ [start]) attrs _ HEa); [|done|done|lia].
    rewrite length_app. simpl. lia.
  - subst kids.
    destruct (Hfirst _ _ (html_nodes_eq _ _ _ _ _) eq_refl) as (n & Hn & (Hk & _ & _ & Ht) & Hu & _).
    by eapply shows_comment.
Qed.

(** The children of the root are the top-level nodes of the document. *)
Lemma doc_root f :
  Forall (λ h, proper h = true) f → E = rootNode :: forest_nodes f ++ [endNode] →
  ∃ nr, arena t !! 0 = Some nr ∧ children t nr = Some <$> starts 1 f ∧
        Forall2 (shows t (Some 0)) (starts 1 f) f.
Proof.
  intros Hf HE.
  destruct (fin_root _ _ _ E_ok t_fin) as (nr & Hnr & Hk & _ & _ & _ & He & _).
  destruct (fin_live _ _ _ t_fin 0 nr Hnr) as (_ & _ & _ & Hpos & _); [by rewrite Hk|lia|].
  assert (Hend : end_ nr = 1 + length (forest_nodes f)).
  { pose proof (doc_end 0 nr Hnr Hk ltac:(lia)) as Hcl.
    rewrite drop_0, HE in Hcl. rewrite fmap_cons, fmap_app in Hcl.
    cbn [kind rootNode newNode closing_index] in Hcl. rewrite forest_through in Hcl.
    simpl in Hcl. by injection Hcl as <-. }
  exists nr. split; [done|].
  apply (doc_body f) with (i := 0) (n := nr) (pre := [rootNode]) (post := [endNode]);
    [|done|done|done|simpl; lia|done|simpl; intros; lia].
  eapply Forall_impl; [done|]. intros h Hh. split; [done|]. by apply doc_tree.
Qed.

End document.

(** The tree of the tokens of a proper document. *)
Lemma forest_tree f :
  Forall (λ h, proper h = true) f →
  ∃ t nr, ParseDecoder (mkDecoder (forest_tokens f) EOF) = Ret (0, t) ∧
          arena t !! 0 = Some nr ∧ children t nr = Some <$> starts 1 f ∧
          Forall2 (shows t (Some 0)) (starts 1 f) f.
Proof.
  intros Hf.
  destruct (balanced_tokens_tree (forest_tokens f) (forest_tokens_balanced f))
    as (t & _ & Ht & _).
  exists t. unfold ParseDecoder in Ht. simpl in Ht.
  destruct (read_tokens_EOF (forest_tokens f) ([rootNode], [])) as [st Hst].
  rewrite Hst in Ht. simpl in Ht.
  assert (HE : st.1 ++ [endNode] = rootNode :: forest_nodes f ++ [endNode]).
  { by rewrite (read_tokens_nodes _ _ _ _ Hst). }
  assert (Hns : events_ok (st.1 ++ [endNode])).
  { apply events_ok_snoc; [|done]. eapply read_tokens_ok; [done|apply events_ok_root]. }
  assert (Hled : attr_led (kind <$> st.1 ++ [endNode])).
  { rewrite fmap_app. apply attr_led_app; [|by apply attr_led_one].
    eapply read_tokens_led; [done|]. by apply attr_led_one. }
  destruct (link_finished _ 0 t Hns Ht) as (_ & e & _ & Hfin).
  destruct (doc_root _ e t Hns Hled Ht Hfin f Hf HE) as (nr & ? & ? & ?).
  exists nr. split_and!; [|done..].
  unfold ParseDecoder. simpl. by rewrite Hst.
Qed.

(** The tree that [ParseHTML] returns is the tree of the document: on a
    parsed document of elements, texts and comments, the children of the
    root are the top-level nodes of the document, in order; an element is a
    [StartNode] with the element's name, followed by its attributes with
    their names and values, whose [down] list holds its children, in order;
    a text or a comment is a node with its data; and [up] of each is its
    parent in the document.  [ParseDecoder] returns the same tree for the
    tokens that spell the document out. *)
Theorem ParseHTML_tree r n f :
  html.err r = None → html.ns r !! 0 = Some n → lays (html.heap r) None (Some n) f →
  Forall (λ h, proper h = true) f →
  ∃ N, ∀ fuel, N ≤ fuel →
    ∃ t nr cs, ParseHTML fuel r = Ret (0, t) ∧
               ParseDecoder (mkDecoder (forest_tokens f) EOF) = Ret (0, t) ∧
               arena t !! 0 = Some nr ∧
               children t nr = Some <$> cs ∧ Forall2 (shows t (Some 0)) cs f.
Proof.
  intros He Hn Hl Hf. destruct (walk_document _ _ _ ([rootNode], []) Hl) as [N HN].
  exists N. intros fuel Hfuel.
  destruct (forest_tree f Hf) as (t & nr & Ht & Hnr & Hch & Hsh).
  exists t, nr, (starts 1 f). split_and!; [|done..].
  unfold ParseHTML. rewrite He, Hn, HN by done. simpl.
  unfold ParseDecoder in Ht. simpl in Ht. by rewrite read_tokens_all in Ht.
Qed.

Lemma ParseHTML_tree_witness :
  ∃ N, ∀ fuel, N ≤ fuel →
    ∃ t nr cs, ParseHTML fuel hi_fragment = Ret (0, t) ∧
               ParseDecoder (mkDecoder (forest_tokens hi_document) EOF) = Ret (0, t) ∧
               arena t !! 0 = Some nr ∧
               children t nr = Some <$> cs ∧ Forall2 (shows t (Some 0)) cs hi_document.
Proof.
  apply (ParseHTML_tree hi_fragment 0 hi_document eq_refl eq_refl hi_lays).
  repeat constructor.
Defined.

(** ** The value of an element, child by child *)

Lemma take_add {A} (X : list A) : ∀ a b, take (a + b) X = take a X ++ take b (drop a X).
Proof.
  induction X as [|x X IH]; intros a b.
  - by rewrite drop_nil, !take_nil.
  - destruct a as [|a]; [done|]. simpl. by rewrite IH.
Qed.

Lemma span_text_add store i a b :
  span_text store i (a + b) = span_text store i a ++ span_text store (i + a) b.
Proof.
  unfold span_text. rewrite take_add, filter_app, fmap_app, concat_app, drop_drop. done.
Qed.

Lemma span_text_none store i count :
  (∀ j nj, store !! j = Some nj → i ≤ j → j < i + count → kind nj ≠ TextNode) →
  span_text store i count = [].
Proof.
  revert i. induction count as [|count IH]; intros i Hno; [done|].
  destruct (store !! i) as [n|] eqn:Hi.
  - rewrite (span_text_S _ _ _ _ Hi), decide_False by (apply (Hno i n); [done|lia..]).
    apply IH. intros j nj Hj Hle Hlt. apply (Hno j nj); [done|lia..].
  - unfold span_text. rewrite drop_ge by (by apply lookup_ge_None). done.
Qed.

Lemma ascending_filter_seq (P : nat → Prop) `{!∀ i, Decision (P i)} n : ∀ a,
  ascending (filter P (seq a n)).
Proof.
  induction n as [|n IH]; intros a; [done|].
  simpl. rewrite filter_cons. destruct (decide (P a)); [|apply IH].
  split; [|apply IH]. intros y [_ Hy%elem_of_seq]%list_elem_of_filter. lia.
Qed.

(** The texts between [cursor] and [limit], when each of them lies in the
    range of one of the entries [l], whose ranges follow one another. *)
Lemma span_text_children store limit (rng : nat → nat) l : ∀ cursor,
  ascending l →
  (∀ c, c ∈ l → cursor ≤ c ∧ c < rng c ∧ rng c ≤ limit) →
  (∀ c c', c ∈ l → c' ∈ l → c < c' → rng c ≤ c') →
  (∀ j nj, store !! j = Some nj → kind nj = TextNode → cursor ≤ j → j < limit →
           ∃ c, c ∈ l ∧ c ≤ j ∧ j < rng c) →
  cursor ≤ limit →
  span_text store cursor (limit - cursor)
  = concat ((λ c, span_text store c (rng c - c)) <$> l).
Proof.
  induction l as [|c l IH]; intros cursor Hasc Hin Hord Hcov Hle.
  - simpl. apply span_text_none. intros j nj Hj Hlo Hhi Hk.
    destruct (Hcov j nj Hj Hk Hlo ltac:(lia)) as (c & Hc & _). by apply elem_of_nil in Hc.
  - destruct Hasc as [Hmin Hasc]. destruct (Hin c ltac:(left)) as (Hcc & Hcr & Hcl).
    replace (limit - cursor) with ((c - cursor) + ((rng c - c) + (limit - rng c))) by lia.
    rewrite !span_text_add.
    replace (cursor + (c - cursor)) with c by lia.
    replace (c + (rng c - c)) with (rng c) by lia.
    rewrite fmap_cons, concat_cons.
    rewrite (span_text_none store cursor); last first.
    { intros j nj Hj Hlo Hhi Hk.
      destruct (Hcov j nj Hj Hk Hlo ltac:(lia)) as (c' & Hc' & Hc'j & _).
      apply elem_of_cons in Hc' as [->|Hc']; [lia|]. specialize (Hmin c' Hc'). lia. }
    simpl. f_equal. apply IH; [done| | | |done].
    + intros c' Hc'. destruct (Hin c' ltac:(by right)) as (_ & ? & ?).
      split; [|done]. apply (Hord c c'); [left|by right|by apply Hmin].
    + intros c1 c2 H1 H2. apply Hord; by right.
    + intros j nj Hj Hk Hlo Hhi.
      destruct (Hcov j nj Hj Hk ltac:(lia) Hhi) as (c' & Hc' & Hc'j & Hjc').
      apply elem_of_cons in Hc' as [->|Hc']; [lia|]. eauto.
Qed.

(** In a constructed tree the string value of an element is made of the
    values of its children: [Bytes] of a [StartNode] is the concatenation,
    over its [down] list in order, of the text of each [TextNode] child and
    of the string value of each [StartNode] child, the comments and the
    processing instructions adding nothing. *)
Theorem value_of_children root t p np :
  constructed root t → arena t !! p = Some np → kind np = StartNode →
  ∃ cs, children t np = Some <$> cs ∧
        Bytes (arena t) np = Ret (concat (child_value (arena t) <$> cs)).
Proof.
  intros (-> & ns & e & Hns & Hfin)%constructed_finished Hp Hk.
  exists (kids (arena t) p). split; [by eapply fin_children|].
  rewrite (fin_Bytes_start ns e t p np Hns Hfin Hp Hk). f_equal.
  rewrite <- span_text_range.
  assert (Hkid : ∀ c, c ∈ kids (arena t) p →
            ∃ nc, arena t !! c = Some nc ∧ up nc = Some p ∧ eligible (kind nc) = true ∧
                  p < c ∧ c < end_ nc ∧ end_ nc ≤ end_ np ∧ pos nc = c ∧ pos np = p ∧
                  (kind nc ≠ StartNode → end_ nc = c + 1)).
  { intros c (nc & Hc & Hu & He)%kids_spec.
    destruct (fin_up ns e t Hfin c nc p Hc Hu) as (? & ? & Hl & np' & Hp' & _ & ? & ? & ?).
    assert (np' = np) as -> by congruence.
    destruct (fin_live ns e t Hfin c nc Hc Hl) as (_ & _ & ? & ? & _); [done|].
    exists nc. split_and!; done. }
  destruct (decide (p < S e)) as [Hpe'|Hpe']; last first.
  { destruct (fin_fresh ns e t Hfin p np) as (_ & Hp0 & He0 & _ & Hdn); [done|left; lia|].
    rewrite Hp0, He0. simpl.
    pose proof (fin_children ns e t Hfin p np Hp Hk) as Hch.
    unfold children in Hch. rewrite Hdn in Hch. symmetry in Hch.
    apply fmap_nil_inv in Hch. by rewrite Hch. }
  destruct (fin_live ns e t Hfin p np Hp) as (_ & Hpp & _ & Hpe & _); [by rewrite Hk|done|].
  rewrite Hpp.
  replace (end_ np - p) with (1 + (end_ np - S p)) by lia.
  rewrite span_text_add, (span_text_1 _ _ _ Hp), decide_False by congruence.
  replace (p + 1) with (S p) by lia. simpl.
  rewrite (span_text_children (arena t) (end_ np)
             (λ c, match arena t !! c with Some nc => end_ nc | None => c end)
             (kids (arena t) p) (S p)).
  - f_equal. apply list_fmap_ext. intros _ c Hc%list_elem_of_lookup_2.
    destruct (Hkid c Hc) as (nc & Hnc & _ & Hel & _ & _ & _ & Hposc & _ & Hleaf).
    unfold child_value. rewrite Hnc.
    destruct (decide (kind nc = StartNode)) as [Hs|Hs].
    + rewrite Hs. by rewrite <- span_text_range, Hposc.
    + rewrite (Hleaf Hs). replace (c + 1 - c) with 1 by lia.
      rewrite (span_text_1 _ _ _ Hnc). destruct (kind nc); done.
  - apply ascending_filter_seq.
  - intros c Hc. destruct (Hkid c Hc) as (nc & -> & _ & _ & ? & ? & ? & _). lia.
  - intros c c' Hc Hc' Hlt.
    destruct (Hkid c Hc) as (nc & Hnc & Hu & _).
    destruct (Hkid c' Hc') as (nc' & Hnc' & Hu' & _ & _ & _ & _ & Hposc' & _).
    rewrite Hnc. rewrite <- Hposc'.
    by eapply (fin_siblings ns e t Hfin c c').
  - intros j nj Hj Ht Hlo Hhi.
    assert (Hd : descendant (arena t) p j).
    { eapply (fin_range_descendant ns e t Hns Hfin j p np nj); [done..|by rewrite Ht|lia|done]. }
    destruct (descendant_top _ _ _ Hd) as (c & nc & Hc & Hcu & Hcd).
    assert (Hl : live (kind nj) = true) by (by rewrite Ht).
    assert (Hje : j < S e).
    { destruct (decide (j < S e)); [done|].
      destruct (decide (p < S e)) as [Hp'|Hp'].
      - destruct (fin_live ns e t Hfin p np Hp) as (_ & _ & _ & _ & ?); [by rewrite Hk|done|].
        lia.
      - destruct (fin_fresh ns e t Hfin p np) as (_ & _ & ? & _); [done|left; lia|]. lia. }
    destruct (fin_live ns e t Hfin j nj Hj Hl Hje) as (_ & Hposj & _ & Hjend & _).
    exists c. rewrite Hc. destruct Hcd as [->|Hcd].
    + assert (nc = nj) as -> by congruence. split_and!; [|done..].
      apply (kids_elem _ _ _ nj); [done..|by rewrite Ht].
    + destruct (descendant_range ns e t c j Hns Hfin Hcd nc nj Hc Hj) as (Hkc & ? & ? & ?).
      destruct (fin_up ns e t Hfin c nc p Hc Hcu) as (_ & _ & _ & _ & _ & _ & _ & Hposc & _).
      split_and!; [|lia..]. apply (kids_elem _ _ _ nc); [done..|by rewrite Hkc].
  - lia.
Qed.

Lemma value_of_children_witness :
  ∃ cs, children sample_tree (entry sample_tree 1) = Some <$> cs ∧
        Bytes (arena sample_tree) (entry sample_tree 1)
        = Ret (concat (child_value (arena sample_tree) <$> cs)).
Proof.
  apply (value_of_children 0 sample_tree 1 (entry sample_tree 1) sample_constructed);
    reflexivity.
Defined.

(** ** contains, from a node to its ancestors *)

Lemma match_prefix_done need t1 t2 :
  match_prefix need t1 = Some [] → match_prefix need (t1 ++ t2) = Some [].
Proof. intros H. by rewrite match_prefix_app, H. Qed.

Lemma search_mid need x v y : search need v = true → search need (x ++ v ++ y) = true.
Proof.
  intros Hv. rewrite search_app. apply orb_true_iff. right.
  induction v as [|c v IH]; [done|].
  simpl in Hv |- *. apply orb_true_iff in Hv as [Hm%bool_decide_eq_true|Hv].
  - apply orb_true_iff. left. apply bool_decide_eq_true.
    by apply (match_prefix_done need (c :: v) y).
  - apply orb_true_iff. right. by apply IH.
Qed.

Lemma Contains_mid x v y s :
  strings.Contains (string_of_list_ascii v) s = true →
  strings.Contains (string_of_list_ascii (x ++ v ++ y)) s = true.
Proof.
  destruct (decide (s = "")) as [->|Hs]; [by rewrite !Contains_empty|].
  rewrite !Contains_search by done. apply search_mid.
Qed.

(** In a constructed tree, what a node contains its ancestors contain:
    when [contains(s)] is true on a node that is no attribute, it is true on
    every element above it. *)
Theorem contains_in_ancestors root t a d na nd s :
  constructed root t → arena t !! a = Some na → arena t !! d = Some nd →
  descendant (arena t) a d → kind nd ≠ AttrNode →
  contains (arena t) nd s = Ret true → contains (arena t) na s = Ret true.
Proof.
  intros (-> & ns & e & Hns & Hfin)%constructed_finished Ha Hd Hdesc Hk Hc.
  destruct (descendant_range ns e t a d Hns Hfin Hdesc na nd Ha Hd) as (Hka & Hlt & Hne & Hle).
  assert (Hu : ∃ p, up nd = Some p).
  { destruct Hdesc as [d nd' Hd' Hu|d nd' p Hd' Hu _];
      assert (nd' = nd) as -> by congruence; eauto. }
  destruct Hu as [p Hu].
  destruct (fin_up ns e t Hfin d nd p Hd Hu) as (_ & Hde & Hl & _).
  destruct (fin_live ns e t Hfin d nd Hd Hl Hde) as (Hnd & Hpd & _ & _ & Hdend).
  destruct (descendant_top _ _ _ Hdesc) as (c & nc & Hcc & Hcu & _).
  destruct (fin_up ns e t Hfin c nc a Hcc Hcu) as (_ & Hce & _ & na' & Ha' & _ & Hpa & _).
  assert (na' = na) as -> by congruence.
  assert (Hae : a < S e) by (destruct (fin_up ns e t Hfin c nc a Hcc Hcu); lia).
  destruct (fin_live ns e t Hfin a na Ha) as (Hna & _ & _ & _ & Haend); [by rewrite Hka|done|].
  destruct (fin_length ns e t Hfin) as [Hlen He].
  assert (Hbd : end_ nd ≤ length (arena t)) by lia.
  assert (Hba : end_ na ≤ length (arena t)) by lia.
  assert (Hka' : kind na ≠ AttrNode) by (by rewrite Hka).
  rewrite (contains_spec _ _ s Hk (or_introl (conj Hnd Hbd))) in Hc.
  rewrite (contains_spec _ _ s Hka' (or_introl (conj Hna Hba))).
  injection Hc as Hc. f_equal.
  replace (end_ na - pos na)
    with ((pos nd - pos na) + ((end_ nd - pos nd) + (end_ na - end_ nd))) by lia.
  rewrite !span_text_add.
  replace (pos na + (pos nd - pos na)) with (pos nd) by lia.
  by apply Contains_mid.
Qed.

Lemma contains_in_ancestors_witness :
  contains (arena sample_tree) (entry sample_tree 4) "he" = Ret true ∧
  contains (arena sample_tree) (entry sample_tree 1) "he" = Ret true.
Proof.
  split; [reflexivity|].
  apply (contains_in_ancestors 0 sample_tree 1 4 (entry sample_tree 1) (entry sample_tree 4)
           "he" sample_constructed eq_refl eq_refl); [|discriminate|reflexivity].
  eapply (descendant_step _ _ 4 (entry sample_tree 4) 3); [reflexivity..|].
  by eapply (descendant_child _ _ 3 (entry sample_tree 3)).
Defined.

(** * C10: the root *)

(** ** Well-nested stretches of the node slice *)









(** ** What the walk over a parsed document appends *)







(** ** The root and what is under it *)



